(** * ObservableTree: a shallow embedding of [include/otree/ObservableTree.h]

    The header defines four classes, modelled here in the order in which
    they appear in the source:

    - [Path]               : a delimited string split into keys ([toKeys]);
    - [ModificationSignal] : the per-path callback registry, with its two
                             storage classes [SingleImpl] and [MultiImpl]
                             and the [Connection] handle;
    - [SignalMgr]          : the tree of registries and the two [onChanged]
                             overloads (recursive diff, path-targeted diff);
    - [ObservableTree]     : the facade owning the root document.

    C++ objects reached through [shared_ptr]/[weak_ptr] live in an explicit
    heap ([World]); owned sub-objects ([unique_ptr]) are plain values.
    Exceptions and undefined behaviour are explicit outcomes. *)

From stdpp Require Import gmap strings list.
From Stdlib Require Import Ascii String OrderedTypeEx Sorted.

Set Default Proof Using "Type".

(* ================================================================== *)
(** ** Path *)
(* ================================================================== *)

Module Path.

Definition KeyType := string.
Definition Keys := list KeyType.
Definition Sep := ascii.

Record t := mk { keys_ : Keys; sep_ : Sep }.

Definition default_sep : Sep := "/"%char.

(** The pair of iterators [istart, it) of [toKeys] is carried as the
    characters already scanned since [istart] ([pending]); [rest] is the
    range [it, iend).  [*istart] is the first pending character, or the
    character under [it] when the two iterators coincide. *)
Definition deref_istart (pending : string) (cur : ascii) : ascii :=
  match pending with
  | String c _ => c
  | EmptyString => cur
  end.

Fixpoint toKeys_loop (sep : Sep) (pending rest : string) (keys : Keys)
  : Keys * string :=
  match rest with
  | EmptyString => (keys, pending)
  | String c rest' =>
      if Ascii.eqb c sep then
        toKeys_loop sep EmptyString rest'
          (if negb (Ascii.eqb (deref_istart pending c) sep)
           then keys ++ [pending]
           else keys)
      else
        toKeys_loop sep (String.append pending (String c EmptyString)) rest' keys
  end.

(** [std::string::back] and [resize(size() - 1)]. *)
Fixpoint back (s : string) : ascii :=
  match s with
  | EmptyString => zero
  | String c EmptyString => c
  | String _ s' => back s'
  end.

Fixpoint drop_back (s : string) : string :=
  match s with
  | EmptyString => EmptyString
  | String _ EmptyString => EmptyString
  | String c s' => String c (drop_back s')
  end.

Definition toKeys (path : string) (sep : Sep) : Keys :=
  let '(keys, pending) := toKeys_loop sep EmptyString path [] in
  match pending with
  | EmptyString => keys                       (* istart == iend *)
  | _ =>
      let last := if Ascii.eqb (back pending) zero
                  then drop_back pending else pending in
      match last with
      | EmptyString => keys
      | _ => keys ++ [last]
      end
  end.

(** [Path(const String &path, Sep sep = '/')] *)
Definition of_string (path : string) (sep : Sep) : t :=
  {| keys_ := toKeys path sep; sep_ := sep |}.

(** [Path(const Keys &ks)] *)
Definition of_keys (ks : Keys) : t := {| keys_ := ks; sep_ := default_sep |}.

Definition keys (p : t) : Keys := keys_ p.

(** [Path() = default] *)
Definition empty : t := {| keys_ := []; sep_ := default_sep |}.

(** [toString()]: every key followed by the separator, the last
    separator cut off again. *)
Definition toString (p : t) : string :=
  let str := fold_left
               (fun str key =>
                  String.append str (String.append key (String (sep_ p) EmptyString)))
               (keys p) EmptyString in
  match str with
  | EmptyString => str
  | _ => drop_back str                       (* resize(size() - 1) *)
  end.

(** [operator/(const KeyType &)] and [operator/(KeyType &&)] *)
Definition div_key (p : t) (key : KeyType) : t :=
  let newPath := of_keys (keys_ p) in
  {| keys_ := keys_ newPath ++ [key]; sep_ := sep_ newPath |}.

(** [operator/(const Path &)] *)
Definition div (p path : t) : t := of_keys (keys_ p ++ keys path).

(** The loop of the member [operator==] over the two reversed ranges. *)
Fixpoint eq_loop (mi i : Keys) : bool :=
  match mi, i with
  | m :: mi', x :: i' => if negb (String.eqb m x) then false else eq_loop mi' i'
  | _, _ => true
  end.

(** [template <class String> bool operator==(const String &p) const] *)
Definition eq_string (p : t) (s : string) : bool :=
  let ks := toKeys s default_sep in
  if negb (Nat.eqb (List.length ks) (List.length (keys_ p))) then false
  else eq_loop (rev (keys_ p)) (rev ks).

(** [std::vector<std::string>]'s [operator==]: equal sizes and equal
    elements. *)
Fixpoint keys_eqb (a b : Keys) : bool :=
  match a, b with
  | [], [] => true
  | x :: a', y :: b' => String.eqb x y && keys_eqb a' b'
  | _, _ => false
  end.

(** [std::vector<std::string>]'s [operator<]:
    [std::lexicographical_compare] over [std::string]'s [operator<]. *)
Fixpoint keys_ltb (a b : Keys) : bool :=
  match a, b with
  | _, [] => false
  | [], _ :: _ => true
  | x :: a', y :: b' =>
      if String.ltb x y then true
      else if String.ltb y x then false
      else keys_ltb a' b'
  end.

(** [bool operator<(const Path &, const Path &)] *)
Definition ltb (kp1 kp2 : t) : bool := keys_ltb (keys kp1) (keys kp2).

(** [bool operator==(const Path &, const Path &)] *)
Definition eqb (kp1 kp2 : t) : bool := keys_eqb (keys kp1) (keys kp2).

(** The string [toString] builds before it cuts the last separator. *)
Fixpoint joined (sep : Sep) (ks : Keys) : string :=
  match ks with
  | [] => EmptyString
  | k :: rest => String.append k (String sep (joined sep rest))
  end.

(** Whether character [c] occurs in [s]. *)
Fixpoint has_char (c : ascii) (s : string) : bool :=
  match s with
  | EmptyString => false
  | String c' s' => Ascii.eqb c' c || has_char c s'
  end.

(** A key that survives a round trip through a string split on [sep]. *)
Definition plain_key (sep : Sep) (k : KeyType) : Prop :=
  k <> EmptyString /\ has_char sep k = false.

End Path.

Abbreviation KeyType := Path.KeyType.

(* ================================================================== *)
(** ** Outcomes, callbacks and the heap *)
(* ================================================================== *)

(** What a C++ call can do besides returning: throw, or run into
    undefined behaviour (null dereference, [erase(end())]). *)
Inductive Exn := BadFunctionCall | UserExn (code : nat).

Inductive Outcome (A : Type) :=
| Ok (a : A)
| Throws (e : Exn)
| Undefined.
Arguments Ok {A} a.
Arguments Throws {A} e.
Arguments Undefined {A}.

Definition is_Ok {A} (o : Outcome A) : bool :=
  match o with Ok _ => true | _ => false end.

Definition Addr := nat.          (* address of a ModificationSignal *)
Definition SlotIDType := nat.    (* SlotType*, 0 is nullptr *)
Definition SlotIDInvalid : SlotIDType := 0.

Section WithNode.
Context {Node : Type}.

(** A non-empty [std::function<void(const NodeType&, const NodeType&)>]:
    an identity and what a call does (return, or throw).  Calls are
    recorded in the world's trace.  Callbacks do not re-enter the tree. *)
Record Callback := { cb_id : nat; cb_body : Node -> Node -> option Exn }.

(** [SlotType]: [None] is the empty [std::function]. *)
Definition SlotType := option Callback.

(** A heap-allocated [SlotType]; [std::unique_ptr<SlotType>] is
    [option SlotCell], [None] being the null pointer. *)
Record SlotCell := { slot_addr : SlotIDType; slot_fn : SlotType }.
Definition SlotListType := list (option SlotCell).

Definition get_ptr (p : option SlotCell) : SlotIDType :=
  match p with Some c => slot_addr c | None => SlotIDInvalid end.

Inductive ImplType := Single | Multi.

Inductive ImplIF :=
| SingleImpl (slot_ : option SlotCell)
| MultiImpl (slots_ : SlotListType).

Record ModificationSignal := { impl_ : option ImplIF }.

(** The [shared_ptr] control block and the object it owns. *)
Record SigCell := { use_count : nat; object : ModificationSignal }.

Record Event := {
  ev_sig : Addr;            (* registry that dispatched *)
  ev_slot : SlotIDType;     (* slot that was invoked *)
  ev_cb : nat;              (* identity of the callable *)
  ev_old : Node;
  ev_new : Node }.

Record World := {
  heap : gmap Addr SigCell;
  sigs_allocated : nat;
  slots_allocated : nat;
  trace : list Event }.

Definition World_empty : World :=
  {| heap := ∅; sigs_allocated := 0; slots_allocated := 0; trace := [] |}.

Definition set_heap (h : gmap Addr SigCell) (w : World) : World :=
  {| heap := h; sigs_allocated := sigs_allocated w;
     slots_allocated := slots_allocated w; trace := trace w |}.

Definition log (e : Event) (w : World) : World :=
  {| heap := heap w; sigs_allocated := sigs_allocated w;
     slots_allocated := slots_allocated w; trace := trace w ++ [e] |}.

(** *** The monad of effectful member functions *)
Definition M (A : Type) : Type := World -> Outcome A * World.

Definition ret {A} (a : A) : M A := fun w => (Ok a, w).

Definition bind {A B} (c : M A) (k : A -> M B) : M B :=
  fun w => match c w with
           | (Ok a, w') => k a w'
           | (Throws e, w') => (Throws e, w')
           | (Undefined, w') => (Undefined, w')
           end.

Definition lift {A} (o : Outcome A) : M A := fun w => (o, w).

Definition undefined {A} : M A := fun w => (Undefined, w).

End WithNode.

Arguments Callback : clear implicits.
Arguments SlotType : clear implicits.
Arguments SlotCell : clear implicits.
Arguments SlotListType : clear implicits.
Arguments ImplIF : clear implicits.
Arguments ModificationSignal : clear implicits.
Arguments SigCell : clear implicits.
Arguments Event : clear implicits.
Arguments World : clear implicits.
Arguments M : clear implicits.

Declare Scope cpp_scope.
Delimit Scope cpp_scope with cpp.
Notation "'let*' x := c1 'in' c2" := (bind c1 (fun x => c2))
  (at level 10, x pattern, c1 at level 100, c2 at level 200) : cpp_scope.
Notation "c1 ;;; c2" := (bind c1 (fun _ => c2))
  (at level 100, right associativity) : cpp_scope.
Open Scope cpp_scope.


(* ================================================================== *)
(** ** ModificationSignal *)
(* ================================================================== *)

(** [std::find_if] returns a position; the length of the list is [end()].
    [std::list::erase] needs a dereferenceable position. *)
Fixpoint find_if {A} (p : A -> bool) (l : list A) : nat :=
  match l with
  | [] => 0
  | x :: r => if p x then 0 else S (find_if p r)
  end.

Definition list_erase {A} (l : list A) (pos : nat) : Outcome (list A) :=
  if pos <? List.length l then Ok (delete pos l) else Undefined.

Section Registry.
Context {Node : Type}.
Local Abbreviation M := (M Node).
Local Abbreviation SlotType := (SlotType Node).
Local Abbreviation SlotCell := (SlotCell Node).
Local Abbreviation SlotListType := (SlotListType Node).
Local Abbreviation ImplIF := (ImplIF Node).
Local Abbreviation ModificationSignal := (ModificationSignal Node).

(** *** Heap primitives *)

(** Access to [*this] through a strong pointer. *)
Definition deref (a : Addr) : M ModificationSignal :=
  fun w => match heap w !! a with
           | Some c => (Ok (object c), w)
           | None => (Undefined, w)
           end.

(** The world after the object held in cell [c] at [a] became [s]. *)
Definition with_object (a : Addr) (c : SigCell Node) (s : ModificationSignal)
           (w : World Node) : World Node :=
  set_heap (<[a := {| use_count := use_count c; object := s |}]> (heap w)) w.

Definition store (a : Addr) (s : ModificationSignal) : M unit :=
  fun w => match heap w !! a with
           | Some c => (Ok tt, with_object a c s w)
           | None => (Undefined, w)
           end.

(** [new SignalType] held by one [shared_ptr]. Addresses are never
    reused, so a stale [weak_ptr] cannot resolve to a later object. *)
Definition shared_new : M Addr :=
  fun w => let a := S (sigs_allocated w) in
           (Ok a, {| heap := <[a := {| use_count := 1;
                                       object := {| impl_ := None |} |}]> (heap w);
                     sigs_allocated := a;
                     slots_allocated := slots_allocated w;
                     trace := trace w |}).

Definition shared_copy (a : Addr) : M unit :=
  fun w => match heap w !! a with
           | Some c =>
               (Ok tt, set_heap (<[a := {| use_count := S (use_count c);
                                           object := object c |}]> (heap w)) w)
           | None => (Undefined, w)
           end.

(** Dropping a [shared_ptr]; the last owner destroys the object. *)
Definition shared_release (a : Addr) : M unit :=
  fun w => match heap w !! a with
           | Some c =>
               (Ok tt,
                set_heap (if use_count c <=? 1 then delete a (heap w)
                          else <[a := {| use_count := pred (use_count c);
                                         object := object c |}]> (heap w)) w)
           | None => (Undefined, w)
           end.

(** [weak_ptr::lock]: succeeds while the object is alive.  The
    temporary strong reference it yields is dropped by the caller at the
    end of its scope, so the count is left as it is. *)
Definition weak_lock (r : option Addr) : M (option Addr) :=
  fun w => match r with
           | Some a => if heap w !! a is Some _ then (Ok (Some a), w)
                       else (Ok None, w)
           | None => (Ok None, w)
           end.

(** [new SlotType{std::move(sl)}] / [std::make_unique<SlotType>]. *)
Definition new_slot (sl : SlotType) : M SlotCell :=
  fun w => let id := S (slots_allocated w) in
           (Ok {| slot_addr := id; slot_fn := sl |},
            {| heap := heap w; sigs_allocated := sigs_allocated w;
               slots_allocated := id; trace := trace w |}).

(** Calling a [std::function]: an empty one throws
    [std::bad_function_call]. *)
Definition invoke (this : Addr) (c : SlotCell) (oldNode newNode : Node) : M unit :=
  match slot_fn c with
  | None => lift (Throws BadFunctionCall)
  | Some cb =>
      fun w =>
        let w' := log {| ev_sig := this; ev_slot := slot_addr c;
                         ev_cb := cb_id cb;
                         ev_old := oldNode; ev_new := newNode |} w in
        match cb_body cb oldNode newNode with
        | Some e => (Throws e, w')
        | None => (Ok tt, w')
        end
  end.

(** *** SingleImpl *)

Definition SingleImpl_connected (slot_ : option SlotCell) : bool :=
  if slot_ is Some _ then true else false.

Definition SingleImpl_connect (sl : SlotType) : M (SlotIDType * ImplIF) :=
  let* c := new_slot sl in
  ret (get_ptr (Some c), SingleImpl (Some c)).

Definition SingleImpl_disconnect (slot_ : option SlotCell) (slotID : SlotIDType)
  : Outcome ImplIF :=
  if get_ptr slot_ =? slotID then Ok (SingleImpl None) else Ok (SingleImpl slot_).

Definition SingleImpl_stealSlots (slot_ : option SlotCell) : SlotListType * ImplIF :=
  ([slot_], SingleImpl None).

Definition SingleImpl_onChanged (this : Addr) (slot_ : option SlotCell)
           (oldNode newNode : Node) : M unit :=
  match slot_ with
  | Some c => if slot_fn c is Some _ then invoke this c oldNode newNode else ret tt
  | None => ret tt
  end.

(** *** MultiImpl *)

Definition MultiImpl_connected (slots_ : SlotListType) : bool :=
  if slots_ is [] then false else true.

Definition MultiImpl_connect (slots_ : SlotListType) (sl : SlotType)
  : M (SlotIDType * ImplIF) :=
  match sl with
  | Some _ =>
      let* c := new_slot sl in
      ret (slot_addr c, MultiImpl (slots_ ++ [Some c]))
  | None => ret (SlotIDInvalid, MultiImpl slots_)
  end.

Definition MultiImpl_disconnect (slots_ : SlotListType) (slotID : SlotIDType)
  : Outcome ImplIF :=
  match list_erase slots_ (find_if (fun sl => get_ptr sl =? slotID) slots_) with
  | Ok l => Ok (MultiImpl l)
  | Throws e => Throws e
  | Undefined => Undefined
  end.

Fixpoint MultiImpl_onChanged (this : Addr) (slots_ : SlotListType)
         (oldNode newNode : Node) : M unit :=
  match slots_ with
  | [] => ret tt
  | sl :: rest =>
      match sl with
      | Some c => invoke this c oldNode newNode
      | None => undefined          (* *sl on a null unique_ptr *)
      end ;;;
      MultiImpl_onChanged this rest oldNode newNode
  end.

Definition MultiImpl_stealSlots (slots_ : SlotListType) : SlotListType * ImplIF :=
  (slots_, MultiImpl []).

(** *** ImplIF: virtual dispatch *)

Definition ImplIF_type (i : ImplIF) : ImplType :=
  match i with SingleImpl _ => Single | MultiImpl _ => Multi end.

Definition ImplIF_connected (i : ImplIF) : bool :=
  match i with
  | SingleImpl s => SingleImpl_connected s
  | MultiImpl l => MultiImpl_connected l
  end.

Definition ImplIF_connect (i : ImplIF) (sl : SlotType) : M (SlotIDType * ImplIF) :=
  match i with
  | SingleImpl _ => SingleImpl_connect sl
  | MultiImpl l => MultiImpl_connect l sl
  end.

Definition ImplIF_disconnect (i : ImplIF) (slotID : SlotIDType) : Outcome ImplIF :=
  match i with
  | SingleImpl s => SingleImpl_disconnect s slotID
  | MultiImpl l => MultiImpl_disconnect l slotID
  end.

Definition ImplIF_onChanged (this : Addr) (i : ImplIF) (oldNode newNode : Node)
  : M unit :=
  match i with
  | SingleImpl s => SingleImpl_onChanged this s oldNode newNode
  | MultiImpl l => MultiImpl_onChanged this l oldNode newNode
  end.

Definition ImplIF_stealSlots (i : ImplIF) : SlotListType * ImplIF :=
  match i with
  | SingleImpl s => SingleImpl_stealSlots s
  | MultiImpl l => MultiImpl_stealSlots l
  end.

Definition is_Single (i : ImplIF) : bool :=
  match ImplIF_type i with Single => true | Multi => false end.

(** *** Connection *)

Record Connection := { signalRef_ : option Addr; slotID_ : SlotIDType }.

(** [Connection() = default], value-initialised by [return {}]. *)
Definition Connection_default : Connection :=
  {| signalRef_ := None; slotID_ := SlotIDInvalid |}.

Definition Connection_connected (c : Connection) : bool :=
  negb (slotID_ c =? SlotIDInvalid).

(** *** ModificationSignal member functions ([this] is an address) *)

Definition connect (this : Addr) (sl : SlotType) : M Connection :=
  let* slotID :=
    match sl with
    | Some _ =>
        let* self := deref this in
        let impl :=
          match impl_ self with
          | None => SingleImpl None
          | Some i =>
              if is_Single i && ImplIF_connected i
              then MultiImpl (fst (ImplIF_stealSlots i))
              else i
          end in
        let* (slotID, impl') := ImplIF_connect impl sl in
        store this {| impl_ := Some impl' |} ;;;
        ret slotID
    | None => ret SlotIDInvalid
    end in
  if slotID =? SlotIDInvalid then ret Connection_default
  else ret {| signalRef_ := Some this; slotID_ := slotID |}.

Definition connected (this : Addr) : M bool :=
  let* self := deref this in
  ret (match impl_ self with
       | Some i => ImplIF_connected i
       | None => false
       end).

Definition disconnect (this : Addr) (slotID : SlotIDType) : M unit :=
  let* self := deref this in
  match impl_ self with
  | Some i =>
      let* i' := lift (ImplIF_disconnect i slotID) in
      store this {| impl_ := Some i' |}
  | None => ret tt
  end.

(** [operator()] *)
Definition call (this : Addr) (jOld jNew : Node) : M unit :=
  let* self := deref this in
  match impl_ self with
  | Some i => ImplIF_onChanged this i jOld jNew
  | None => ret tt
  end.

Definition Connection_disconnect (c : Connection) : M unit :=
  if negb (slotID_ c =? 0) then
    let* sig := weak_lock (signalRef_ c) in
    match sig with
    | Some a => disconnect a (slotID_ c)
    | None => ret tt
    end
  else ret tt.

End Registry.


(* ================================================================== *)
(** ** SignalMgr *)
(* ================================================================== *)

(** [struct MySignalAndChild], with the recursive occurrence abstracted. *)
Record MySignalAndChild_ (Mgr : Type) := SigNChild {
  signalPtr_ : option Addr;        (* SignalPtrType, None is null *)
  child_ : option Mgr }.           (* std::unique_ptr<SignalMgr> *)
Arguments SigNChild {Mgr} _ _.
Arguments signalPtr_ {Mgr} _.
Arguments child_ {Mgr} _.

(** [std::map<KeyType, MySignalAndChild>] is a list of entries in
    iteration order, which [operator[]] keeps sorted by key. *)
#[local] Set Warnings "-register-all".
Inductive SignalMgr := Mgr (signalsMap_ : list (KeyType * MySignalAndChild_ SignalMgr)).
#[local] Set Warnings "register-all".

Abbreviation MySignalAndChild := (MySignalAndChild_ SignalMgr).
Abbreviation SignalsMap := (list (KeyType * MySignalAndChild)).

Definition signalsMap (m : SignalMgr) : SignalsMap :=
  match m with Mgr es => es end.

(** [std::map::find] *)
Fixpoint map_find (k : KeyType) (es : SignalsMap) : option MySignalAndChild :=
  match es with
  | [] => None
  | (k', v) :: rest => if String.eqb k k' then Some v else map_find k rest
  end.

(** The entry [operator[]] refers to: the stored one, or a
    value-initialised one inserted on the spot. *)
Definition map_subscript (k : KeyType) (es : SignalsMap) : MySignalAndChild :=
  default (SigNChild None None) (map_find k es).

(** Writing the entry back at its place in key order. *)
Fixpoint map_assign (k : KeyType) (v : MySignalAndChild) (es : SignalsMap)
  : SignalsMap :=
  match es with
  | [] => [(k, v)]
  | (k', v') :: rest =>
      match String.compare k k' with
      | Lt => (k, v) :: es
      | Eq => (k, v) :: rest
      | Gt => (k', v') :: map_assign k v rest
      end
  end.

(** The document adapter ([TraitType]).  Its functions are supplied by
    the user of the template and may throw. *)
Record Trait (Node : Type) := {
  t_get : Node -> KeyType -> Outcome Node;
  t_get_path : Node -> Path.t -> Outcome Node;
  t_set : Node -> Path.t -> Node -> Outcome Node;
  t_equal : Node -> Node -> Outcome bool;
  t_empty : Node -> Outcome bool }.
Arguments t_get {Node} _ _ _.
Arguments t_get_path {Node} _ _ _.
Arguments t_set {Node} _ _ _ _.
Arguments t_equal {Node} _ _ _.
Arguments t_empty {Node} _ _.

Section SignalMgr.
Context {Node : Type}.
Local Abbreviation M := (M Node).
Local Abbreviation World := (World Node).

(** *** createSignal *)

(** [createSignal(itFirstKey, itLastKey)] on a non-empty range
    [k :: rest]. *)
Fixpoint createSignal_range (k : KeyType) (rest : list KeyType) (m : SignalMgr)
  : M (Addr * SignalMgr) :=
  let subAndSig := map_subscript k (signalsMap m) in
  match rest with
  | k' :: rest' =>
      let child := default (Mgr []) (child_ subAndSig) in
      let* (p, child') := createSignal_range k' rest' child in
      ret (p, Mgr (map_assign k (SigNChild (signalPtr_ subAndSig) (Some child'))
                              (signalsMap m)))
  | [] =>
      let* a := match signalPtr_ subAndSig with
                | Some a => ret a
                | None => shared_new
                end in
      shared_copy a ;;;        (* the returned copy *)
      ret (a, Mgr (map_assign k (SigNChild (Some a) (child_ subAndSig))
                              (signalsMap m)))
  end.

Definition createSignal (path : Path.t) (m : SignalMgr)
  : M (option Addr * SignalMgr) :=
  match Path.keys path with
  | k :: rest =>
      let* (a, m') := createSignal_range k rest m in
      ret (Some a, m')
  | [] => ret (None, m)
  end.

(** *** getSignal *)

Fixpoint getSigNChild (k : KeyType) (rest : list KeyType) (m : SignalMgr)
  : option MySignalAndChild :=
  match map_find k (signalsMap m) with
  | Some sigNChild =>
      match rest with
      | k' :: rest' =>
          match child_ sigNChild with
          | Some c => getSigNChild k' rest' c
          | None => None
          end
      | [] => Some sigNChild
      end
  | None => None
  end.

Definition getSignal (m : SignalMgr) (path : Path.t) : option Addr :=
  match Path.keys path with
  | k :: rest =>
      match getSigNChild k rest m with
      | Some sigNChild => signalPtr_ sigNChild
      | None => None
      end
  | [] => None
  end.

Variable T : Trait Node.

(** *** onChanged(oldNode, newNode): the recursive diff *)

(** [if (modSignal)] then [modSignal->operator()(oldValue, newValue)]. *)
Definition notify (modSignal : option Addr) (oldValue newValue : Node) : M unit :=
  match modSignal with
  | Some a => call a oldValue newValue
  | None => ret tt
  end.

(** The tail of the loop body: compare, then fire or drop the registry. *)
Definition compareAndNotify (modSignal : option Addr) (oldValue newValue : Node)
           (hasChanged : bool) : M (bool * option Addr) :=
  let* eq := lift (t_equal T oldValue newValue) in
  let diff := negb eq in
  let hasChanged := hasChanged || diff in
  match modSignal with
  | Some a =>
      let* c := connected a in
      if c then
        (if diff then call a oldValue newValue else ret tt) ;;;
        ret (hasChanged, modSignal)
      else
        shared_release a ;;;            (* modSignal.reset() *)
        ret (hasChanged, None)
  | None => ret (hasChanged, None)
  end.

(** [!empty(oldNode) || !empty(newNode)] *)
Definition notBothEmpty (oldNode newNode : Node) : Outcome bool :=
  match t_empty T oldNode with
  | Ok false => Ok true
  | Ok true =>
      match t_empty T newNode with
      | Ok b => Ok (negb b)
      | Throws e => Throws e
      | Undefined => Undefined
      end
  | Throws e => Throws e
  | Undefined => Undefined
  end.

Section Loop.
(** The recursive call [sub->onChanged]. *)
Variable rec : SignalMgr -> Node -> Node -> World -> Outcome bool * SignalMgr * World.

Definition recurse (sub : option SignalMgr) (oldValue newValue : Node) (w : World)
  : Outcome bool * option SignalMgr * World :=
  match sub with
  | Some s => let '(r, s', w') := rec s oldValue newValue w in (r, Some s', w')
  | None => (Ok false, None, w)
  end.

(** One iteration of the [for] loop over [signalsMap_]. *)
Definition visitEntry (oldNode newNode : Node) (hasChanged : bool)
           (e : KeyType * MySignalAndChild) (w : World)
  : Outcome bool * (KeyType * MySignalAndChild) * World :=
  let '(key, SigNChild modSignal sub) := e in
  match t_get T oldNode key with
  | Ok oldValue =>
      match t_get T newNode key with
      | Ok newValue =>
          match recurse sub oldValue newValue w with
          | (Ok true, sub', w1) =>
              match notify modSignal oldValue newValue w1 with
              | (Ok _, w2) => (Ok true, (key, SigNChild modSignal sub'), w2)
              | (Throws x, w2) => (Throws x, (key, SigNChild modSignal sub'), w2)
              | (Undefined, w2) => (Undefined, (key, SigNChild modSignal sub'), w2)
              end
          | (Ok false, sub', w1) =>
              match compareAndNotify modSignal oldValue newValue hasChanged w1 with
              | (Ok (hc, modSignal'), w2) =>
                  (Ok hc, (key, SigNChild modSignal' sub'), w2)
              | (Throws x, w2) => (Throws x, (key, SigNChild modSignal sub'), w2)
              | (Undefined, w2) => (Undefined, (key, SigNChild modSignal sub'), w2)
              end
          | (Throws x, sub', w1) => (Throws x, (key, SigNChild modSignal sub'), w1)
          | (Undefined, sub', w1) => (Undefined, (key, SigNChild modSignal sub'), w1)
          end
      | Throws x => (Throws x, e, w)
      | Undefined => (Undefined, e, w)
      end
  | Throws x => (Throws x, e, w)
  | Undefined => (Undefined, e, w)
  end.

Definition loopEntries (oldNode newNode : Node) :=
  fix loop (es : SignalsMap) (hasChanged : bool) (w : World)
    : Outcome bool * SignalsMap * World :=
    match es with
    | [] => (Ok hasChanged, [], w)
    | e :: rest =>
        match visitEntry oldNode newNode hasChanged e w with
        | (Ok hc, e', w1) =>
            let '(r, rest', w2) := loop rest hc w1 in (r, e' :: rest', w2)
        | (Throws x, e', w1) => (Throws x, e' :: rest, w1)
        | (Undefined, e', w1) => (Undefined, e' :: rest, w1)
        end
    end.
End Loop.

Fixpoint onChanged (m : SignalMgr) (oldNode newNode : Node) (w : World) {struct m}
  : Outcome bool * SignalMgr * World :=
  match m with
  | Mgr es =>
      match notBothEmpty oldNode newNode with
      | Ok true =>
          let '(r, es', w') := loopEntries onChanged oldNode newNode es false w in
          (r, Mgr es', w')
      | Ok false => (Ok false, m, w)
      | Throws x => (Throws x, m, w)
      | Undefined => (Undefined, m, w)
      end
  end.

(** *** onChanged(path, oldData, newData): the path-targeted diff *)
Definition onChanged_at (m : SignalMgr) (path : Path.t) (oldData newData : Node)
  : M bool :=
  match getSignal m path with
  | Some a =>
      let* eq := lift (t_equal T oldData newData) in
      if negb eq then call a oldData newData ;;; ret true
      else ret false
  | None => ret false
  end.

End SignalMgr.

(* ================================================================== *)
(** ** ObservableTree *)
(* ================================================================== *)

Record ObservableTree (Node : Type) := {
  signalMgr_ : SignalMgr;
  root_ : Node }.
Arguments signalMgr_ {Node} _.
Arguments root_ {Node} _.

Section ObservableTree.
Context {Node : Type} (T : Trait Node).
Local Abbreviation World := (World Node).
Local Abbreviation ObservableTree := (ObservableTree Node).

(** A freshly constructed tree around a value-initialised root. *)
Definition ObservableTree_new (root : Node) : ObservableTree :=
  {| signalMgr_ := Mgr []; root_ := root |}.

Definition modificationSignal (path : Path.t) (t : ObservableTree) (w : World)
  : Outcome (option Addr) * ObservableTree * World :=
  match createSignal path (signalMgr_ t) w with
  | (Ok (p, mgr'), w') => (Ok p, {| signalMgr_ := mgr'; root_ := root_ t |}, w')
  | (Throws x, w') => (Throws x, t, w')
  | (Undefined, w') => (Undefined, t, w')
  end.

(** [set(const NodeType &newData)] and [set(NodeType &&newData)] *)
Definition set (newData : Node) (t : ObservableTree) (w : World)
  : Outcome unit * ObservableTree * World :=
  match onChanged T (signalMgr_ t) (root_ t) newData w with
  | (Ok _, mgr', w') => (Ok tt, {| signalMgr_ := mgr'; root_ := newData |}, w')
  | (Throws x, mgr', w') => (Throws x, {| signalMgr_ := mgr'; root_ := root_ t |}, w')
  | (Undefined, mgr', w') => (Undefined, {| signalMgr_ := mgr'; root_ := root_ t |}, w')
  end.

(** [set(const Path &path, const NodeType &newNode)] *)
Definition set_at (path : Path.t) (newNode : Node) (t : ObservableTree) (w : World)
  : Outcome unit * ObservableTree * World :=
  match t_get_path T (root_ t) path with
  | Ok oldNode =>
      match onChanged_at T (signalMgr_ t) path oldNode newNode w with
      | (Ok _, w') =>
          match t_set T (root_ t) path newNode with
          | Ok root' => (Ok tt, {| signalMgr_ := signalMgr_ t; root_ := root' |}, w')
          | Throws x => (Throws x, t, w')
          | Undefined => (Undefined, t, w')
          end
      | (Throws x, w') => (Throws x, t, w')
      | (Undefined, w') => (Undefined, t, w')
      end
  | Throws x => (Throws x, t, w)
  | Undefined => (Undefined, t, w)
  end.

Definition get (t : ObservableTree) : Node := root_ t.

(** The registration idiom of [test/test.cpp]:
    [tree->modificationSignal(path)->connect(sl)].  The temporary
    [SignalPtrType] is dereferenced unchecked and dropped at the end of
    the expression. *)
Definition registerAt (path : Path.t) (sl : SlotType Node) (t : ObservableTree)
           (w : World) : Outcome Connection * ObservableTree * World :=
  match modificationSignal path t w with
  | (Ok (Some a), t', w1) =>
      let '(r, w2) := (let* c := connect a sl in
                       shared_release a ;;; ret c) w1 in
      (r, t', w2)
  | (Ok None, t', w1) => (Undefined, t', w1)      (* -> on a null pointer *)
  | (Throws x, t', w1) => (Throws x, t', w1)
  | (Undefined, t', w1) => (Undefined, t', w1)
  end.

End ObservableTree.

(* ================================================================== *)
(** ** The adapter of [test/test.cpp] *)
(* ================================================================== *)

Module Json11.

(** [json11::Json], numbers restricted to integers. *)
#[local] Set Warnings "-register-all".
Inductive Json :=
| JNull
| JNumber (n : Z)
| JString (s : string)
| JObject (items : list (string * Json)).
#[local] Set Warnings "register-all".

Fixpoint object_lookup (key : string) (items : list (string * Json)) : Json :=
  match items with
  | [] => JNull
  | (k, v) :: rest => if String.eqb key k then v else object_lookup key rest
  end.

(** [Json::operator[](const std::string &)] *)
Definition subscript (j : Json) (key : string) : Json :=
  match j with
  | JObject items => object_lookup key items
  | _ => JNull
  end.

Definition is_null (j : Json) : bool :=
  match j with JNull => true | _ => false end.

(** [Json::operator==] *)
Fixpoint eqb (a b : Json) {struct a} : bool :=
  match a, b with
  | JNull, JNull => true
  | JNumber x, JNumber y => Z.eqb x y
  | JString x, JString y => String.eqb x y
  | JObject xs, JObject ys =>
      (fix items_eqb (xs ys : list (string * Json)) : bool :=
         match xs, ys with
         | [], [] => true
         | (k, v) :: xs', (k', v') :: ys' =>
             String.eqb k k' && eqb v v' && items_eqb xs' ys'
         | _, _ => false
         end) xs ys
  | _, _ => false
  end.

(** [Json11Trait::get(const JsonType &, const Path &)] *)
Fixpoint get_keys (jret : Json) (ks : list KeyType) : Json :=
  match ks with
  | [] => jret
  | key :: rest =>
      let jret := subscript jret key in
      if is_null jret then jret else get_keys jret rest
  end.

Definition Json11Trait : Trait Json := {|
  t_get := fun j key => Ok (subscript j key);
  t_get_path := fun j kp => Ok (get_keys j (Path.keys kp));
  t_set := fun j _ _ => Ok j;
  t_equal := fun j1 j2 => Ok (eqb j1 j2);
  t_empty := fun j => Ok (is_null j) |}.

End Json11.

(* ================================================================== *)
(** ** Specification vocabulary *)
(* ================================================================== *)

Definition nonempty_key (k : KeyType) : Prop := k <> EmptyString.

Section Vocabulary.
Context {Node : Type}.

(** A stored slot that [MultiImpl::onChanged] can invoke: the
    [unique_ptr] is non-null and the [std::function] it owns is
    non-empty. *)
Definition callable (sl : option (SlotCell Node)) : bool :=
  match sl with
  | Some c => if slot_fn c is Some _ then true else false
  | None => false
  end.

Definition ImplIF_ok (i : ImplIF Node) : bool :=
  match i with
  | SingleImpl None => true
  | SingleImpl (Some c) => callable (Some c)
  | MultiImpl l => forallb callable l
  end.

Definition World_ok (w : World Node) : Prop :=
  forall a c i, heap w !! a = Some c -> impl_ (object c) = Some i ->
                ImplIF_ok i = true.

(** What the public interface can do to the heap of registries. *)
Inductive step (T : Trait Node) : World Node -> World Node -> Prop :=
| step_createSignal p m w : step T w (snd (createSignal p m w))
| step_connect a sl w : step T w (snd (connect a sl w))
| step_cancel h w : step T w (snd (Connection_disconnect h w))
| step_release a w : step T w (snd (shared_release a w))
| step_onChanged m o n w : step T w (snd (onChanged T m o n w))
| step_onChanged_at m p o n w : step T w (snd (onChanged_at T m p o n w)).

Inductive reachable (T : Trait Node) : World Node -> Prop :=
| reachable_init : reachable T World_empty
| reachable_step w w' : reachable T w -> step T w w' -> reachable T w'.

(** Calling a list of genuine callbacks in order, stopping at the first
    one that throws. *)
Fixpoint invoke_all (this : Addr) (cbs : list (SlotIDType * Callback Node))
         (oldNode newNode : Node) : M Node unit :=
  match cbs with
  | [] => ret tt
  | (id, cb) :: rest =>
      invoke this {| slot_addr := id; slot_fn := Some cb |} oldNode newNode ;;;
      invoke_all this rest oldNode newNode
  end.

Definition slot_of (x : SlotIDType * Callback Node) : option (SlotCell Node) :=
  Some {| slot_addr := fst x; slot_fn := Some (snd x) |}.

(** An effectful computation that maintains [World_ok]. *)
Definition keeps_ok {A} (m : M Node A) : Prop :=
  forall w, World_ok w -> World_ok (snd (m w)).

Definition rec_keeps_ok
  (rec : SignalMgr -> Node -> Node -> World Node -> Outcome bool * SignalMgr * World Node)
  (s : SignalMgr) : Prop :=
  forall o n w, World_ok w -> World_ok (snd (rec s o n w)).

(** The storage after one more callback has been connected. *)
Definition grown (i0 : option (ImplIF Node)) (cell : SlotCell Node) : ImplIF Node :=
  match i0 with
  | None => SingleImpl (Some cell)
  | Some (SingleImpl None) => SingleImpl (Some cell)
  | Some (SingleImpl (Some s)) => MultiImpl [Some s; Some cell]
  | Some (MultiImpl l) => MultiImpl (l ++ [Some cell])
  end.

(** The registry pointer stored for the key range [k :: rest], if any. *)
Definition signalAt (k : KeyType) (rest : list KeyType) (m : SignalMgr) : option Addr :=
  match getSigNChild k rest m with
  | Some e => signalPtr_ e
  | None => None
  end.

(** The tree [createSignal] leaves behind when the registry for
    [k :: rest] is [a]. *)
Fixpoint graft (k : KeyType) (rest : list KeyType) (m : SignalMgr) (a : Addr)
  : SignalMgr :=
  let e := map_subscript k (signalsMap m) in
  match rest with
  | k' :: rest' =>
      Mgr (map_assign k
             (SigNChild (signalPtr_ e)
                        (Some (graft k' rest' (default (Mgr []) (child_ e)) a)))
             (signalsMap m))
  | [] => Mgr (map_assign k (SigNChild (Some a) (child_ e)) (signalsMap m))
  end.

(** What [createSignal] does to the heap: reuse or allocate the registry,
    and hand out one more strong reference. *)
Definition acquire (existing : option Addr) : M Node Addr :=
  let* a := match existing with
            | Some a => ret a
            | None => shared_new
            end in
  shared_copy a ;;; ret a.

(** A registry holding no callback in Single (or not yet any) storage. *)
Definition unconnected (o : ModificationSignal Node) : Prop :=
  impl_ o = None \/ impl_ o = Some (SingleImpl None).

Definition ready (existing : option Addr) (w : World Node) : Prop :=
  match existing with
  | None => True
  | Some a => exists c, heap w !! a = Some c /\ 1 <= use_count c
                        /\ unconnected (object c)
  end.

(** Nothing is registered yet at [p]: no registry, or one the tree owns
    that holds no callback. *)
Definition first_registration (t : ObservableTree Node) (w : World Node)
           (p : Path.t) : Prop :=
  ready (getSignal (signalMgr_ t) p) w.

(** The registry addresses a tree holds, children before the node's own
    registry, entries in iteration order. *)
Definition ownAddr (sp : option Addr) : list Addr :=
  match sp with Some a => [a] | None => [] end.

Fixpoint sigAddrs (m : SignalMgr) : list Addr :=
  match m with
  | Mgr es =>
      (fix entries (es : SignalsMap) : list Addr :=
         match es with
         | [] => []
         | (_, SigNChild sp sub) :: rest =>
             (match sub with Some c => sigAddrs c | None => [] end ++ ownAddr sp)
               ++ entries rest
         end) es
  end.

Definition childAddrs (sub : option SignalMgr) : list Addr :=
  match sub with Some c => sigAddrs c | None => [] end.

Definition entryAddrs (e : KeyType * MySignalAndChild) : list Addr :=
  childAddrs (child_ (snd e)) ++ ownAddr (signalPtr_ (snd e)).

Definition mapAddrs (es : SignalsMap) : list Addr :=
  List.concat (map entryAddrs es).

(** Every registry the tree points to is alive, and no registry is held
    at two places of the tree. *)
Definition wf (m : SignalMgr) (w : World Node) : Prop :=
  NoDup (sigAddrs m) /\ Forall (fun a => is_Some (heap w !! a)) (sigAddrs m).

#[global] Instance wf_dec (m : SignalMgr) (w : World Node) : Decision (wf m w).
Proof. unfold wf. apply _. Defined.

(** The heap is touched only at addresses the tree gave up. *)
Definition frame_ok (before after : list Addr) (w w' : World Node) : Prop :=
  after `sublist_of` before
  /\ forall b, b ∈ after \/ b ∉ before -> heap w' !! b = heap w !! b.

Definition rec_frame
  (rec : SignalMgr -> Node -> Node -> World Node -> Outcome bool * SignalMgr * World Node)
  (s : SignalMgr) : Prop :=
  forall o n w, NoDup (sigAddrs s) ->
    frame_ok (sigAddrs s) (sigAddrs (snd (fst (rec s o n w)))) w (snd (rec s o n w)).

(** The pointer the loop body leaves in the entry. *)
Definition kept (sp : option Addr) (r : Outcome (bool * option Addr)) : option Addr :=
  match r with Ok (_, sp') => sp' | _ => sp end.

(** A naive full deep walk: the recursive diff without the shortcut for
    two empty nodes, comparing the extracted values at every registered
    path. *)
Fixpoint naiveWalk (T : Trait Node) (m : SignalMgr) (oldNode newNode : Node)
         (w : World Node) {struct m} : Outcome bool * SignalMgr * World Node :=
  match m with
  | Mgr es =>
      let '(r, es', w') := loopEntries T (naiveWalk T) oldNode newNode es false w in
      (r, Mgr es', w')
  end.

(** Pairs of values the adapter cannot tell apart, at any depth. *)
Record quiet_relation (T : Trait Node) (R : Node -> Node -> Prop) : Prop := {
  qr_get : forall a b k, R a b ->
             exists a' b', t_get T a k = Ok a' /\ t_get T b k = Ok b' /\ R a' b';
  qr_equal : forall a b, R a b -> t_equal T a b = Ok true;
  qr_empty : forall a b, R a b -> exists x, notBothEmpty T a b = Ok x }.

Definition rec_quiet (R : Node -> Node -> Prop)
  (rec : SignalMgr -> Node -> Node -> World Node -> Outcome bool * SignalMgr * World Node)
  (s : SignalMgr) : Prop :=
  forall o n w, R o n -> wf s w ->
    exists s' w', rec s o n w = (Ok false, s', w') /\ trace w' = trace w.

Definition live (w : World Node) (a : Addr) : Prop := is_Some (heap w !! a).

(** In [evs], once registry [a] has fired no call of registry [b]
    follows: every call of [b] comes before every call of [a]. *)
Definition fires_before (b a : Addr) (evs : list (Event Node)) : Prop :=
  forall l1 e1 l2, evs = l1 ++ e1 :: l2 -> ev_sig e1 = a ->
                   Forall (fun e2 => ev_sig e2 <> b) l2.

(** The registry reached from one map entry by the remaining keys. *)
Definition entryAt (v : MySignalAndChild) (rest : list KeyType) : option Addr :=
  match rest with
  | [] => signalPtr_ v
  | k' :: rest' =>
      match child_ v with
      | Some c => signalAt k' rest' c
      | None => None
      end
  end.

(** Bottom-up order: a registry at a deeper path fires before the
    registry at any proper prefix of that path. *)
Definition bottom_up (m : SignalMgr) (evs : list (Event Node)) : Prop :=
  forall k rest q a b,
    q <> [] ->
    signalAt k rest m = Some a -> signalAt k (rest ++ q) m = Some b ->
    fires_before b a evs.

Definition bottom_up_entry (v : MySignalAndChild) (evs : list (Event Node)) : Prop :=
  forall rest q a b,
    q <> [] ->
    entryAt v rest = Some a -> entryAt v (rest ++ q) = Some b ->
    fires_before b a evs.

Definition fired_by (l : list Addr) (evs : list (Event Node)) : Prop :=
  Forall (fun ev => ev_sig ev ∈ l) evs.

Definition rec_events
  (rec : SignalMgr -> Node -> Node -> World Node -> Outcome bool * SignalMgr * World Node)
  (s : SignalMgr) : Prop :=
  forall o n w, NoDup (sigAddrs s) ->
    exists evs, trace (snd (rec s o n w)) = trace w ++ evs
                /\ fired_by (sigAddrs s) evs /\ bottom_up s evs.

(** The value the recursive diff extracts for a key sequence: one
    [TraitType::get] per key. *)
Fixpoint extract (T : Trait Node) (v : Node) (ks : list KeyType) : Outcome Node :=
  match ks with
  | [] => Ok v
  | k :: rest =>
      match t_get T v k with
      | Ok v' => extract T v' rest
      | Throws e => Throws e
      | Undefined => Undefined
      end
  end.

(** A walk that adds nothing to the trace and does not report a change. *)
Definition rec_silent
  (rec : SignalMgr -> Node -> Node -> World Node -> Outcome bool * SignalMgr * World Node)
  (s : SignalMgr) : Prop :=
  forall v w, trace (snd (rec s v v w)) = trace w
              /\ fst (fst (rec s v v w)) <> Ok true.

(** A walk in which the registry at [k :: rest] stays silent when the
    value extracted for that path is the same on both sides. *)
Definition rec_unchanged_silent (T : Trait Node)
  (rec : SignalMgr -> Node -> Node -> World Node -> Outcome bool * SignalMgr * World Node)
  (s : SignalMgr) : Prop :=
  forall o n w k rest b v,
    NoDup (sigAddrs s) ->
    signalAt k rest s = Some b ->
    extract T o (k :: rest) = Ok v -> extract T n (k :: rest) = Ok v ->
    exists evs, trace (snd (rec s o n w)) = trace w ++ evs
                /\ Forall (fun ev => ev_sig ev <> b) evs.

(** The order of [std::map<std::string, ...>]. *)
Definition key_lt (k k' : KeyType) : Prop := String.compare k k' = Lt.

(** Every map of the tree lists its keys in strictly increasing order. *)
Fixpoint sorted (m : SignalMgr) : Prop :=
  match m with
  | Mgr es =>
      StronglySorted key_lt (map fst es)
      /\ (fix children (es : SignalsMap) : Prop :=
            match es with
            | [] => True
            | (_, SigNChild _ sub) :: rest =>
                match sub with Some c => sorted c | None => True end
                /\ children rest
            end) es
  end.

(** The state of a tree and its registries between two calls of the
    facade: maps in key order, each registry held once by the tree, owned
    (the tree's reference counts) and allocated in the past. *)
Definition Inv (t : ObservableTree Node) (w : World Node) : Prop :=
  sorted (signalMgr_ t)
  /\ NoDup (sigAddrs (signalMgr_ t))
  /\ Forall (fun a => exists c, heap w !! a = Some c /\ 1 <= use_count c
                                /\ a <= sigs_allocated w)
            (sigAddrs (signalMgr_ t)).

(** What a client does with the facade, as [test/test.cpp] does:
    register, replace the document, write at a path, cancel a handle. *)
Inductive facade_step (T : Trait Node)
  : ObservableTree Node * World Node -> ObservableTree Node * World Node -> Prop :=
| facade_register p sl t w :
    facade_step T (t, w) (snd (fst (registerAt p sl t w)), snd (registerAt p sl t w))
| facade_set d t w :
    facade_step T (t, w) (snd (fst (set T d t w)), snd (set T d t w))
| facade_set_at p d t w :
    facade_step T (t, w) (snd (fst (set_at T p d t w)), snd (set_at T p d t w))
| facade_cancel h t w :
    facade_step T (t, w) (t, snd (Connection_disconnect h w)).

Inductive facade_reachable (T : Trait Node) (root : Node)
  : ObservableTree Node * World Node -> Prop :=
| facade_init : facade_reachable T root (ObservableTree_new root, World_empty)
| facade_next s s' :
    facade_reachable T root s -> facade_step T s s' -> facade_reachable T root s'.

(** A walk that keeps the keys in order and allocates no registry. *)
Definition rec_tidy
  (rec : SignalMgr -> Node -> Node -> World Node -> Outcome bool * SignalMgr * World Node)
  (s : SignalMgr) : Prop :=
  forall o n w,
    (sorted s -> sorted (snd (fst (rec s o n w))))
    /\ sigs_allocated (snd (rec s o n w)) = sigs_allocated w.

End Vocabulary.

(** ** Vocabulary for slots and lifetimes *)

Section Lifetimes.
Context {Node : Type}.

(** The slots a registry stores, by their ids, in storage order. *)
Definition cell_ids (sl : option (SlotCell Node)) : list SlotIDType :=
  match sl with Some c => [slot_addr c] | None => [] end.

Definition impl_ids (i : option (ImplIF Node)) : list SlotIDType :=
  match i with
  | None => []
  | Some (SingleImpl s) => cell_ids s
  | Some (MultiImpl l) => List.concat (map cell_ids l)
  end.

Definition slot_ids (o : ModificationSignal Node) : list SlotIDType :=
  impl_ids (impl_ o).

(** Registries and slots carry ids that were handed out in the past, and
    a registry stores no slot twice. *)
Definition Issued (w : World Node) : Prop :=
  forall a c, heap w !! a = Some c ->
    a <= sigs_allocated w
    /\ NoDup (slot_ids (object c))
    /\ Forall (fun i => i <= slots_allocated w) (slot_ids (object c)).

Definition issued_before (a : Addr) (id : SlotIDType) (w : World Node) : Prop :=
  id <= slots_allocated w /\ a <= sigs_allocated w.

Definition Tidy (a : Addr) (id : SlotIDType) (w : World Node) : Prop :=
  Issued w /\ issued_before a id w.



(** Registry [a] stores its slots in a list, if it is still there. *)
Definition MultiAt (a : Addr) (w : World Node) : Prop :=
  a <= sigs_allocated w
  /\ forall c, heap w !! a = Some c -> exists l, impl_ (object c) = Some (MultiImpl l).

(** Registry [a] was destroyed. *)
Definition Gone (a : Addr) (w : World Node) : Prop :=
  a <= sigs_allocated w /\ heap w !! a = None.

(** From [w] to [w'] no id was handed out, and every registry of [w']
    is a registry of [w] with the same slots. *)
Definition objects_kept (w w' : World Node) : Prop :=
  sigs_allocated w' = sigs_allocated w
  /\ slots_allocated w' = slots_allocated w
  /\ forall b c', heap w' !! b = Some c' ->
       exists c, heap w !! b = Some c /\ object c' = object c.

(** A computation that maintains [P]. *)
Definition keeps {A} (P : World Node -> Prop) (c : M Node A) : Prop :=
  forall w, P w -> P (snd (c w)).

(** The operations on registries all effects are made of. *)
Record kept_by_primitives (P : World Node -> Prop) : Prop := {
  kp_new : keeps P shared_new;
  kp_copy : forall a, keeps P (shared_copy a);
  kp_release : forall a, keeps P (shared_release a);
  kp_call : forall a o n, keeps P (call a o n);
  kp_connect : forall a sl, keeps P (connect a sl) }.



(** The record of one call of a callback. *)
Definition event_of (a : Addr) (o n : Node) (x : SlotIDType * Callback Node)
  : Event Node :=
  {| ev_sig := a; ev_slot := fst x; ev_cb := cb_id (snd x);
     ev_old := o; ev_new := n |}.

(** What a dispatch over the callbacks [cbs] delivers: the callbacks up
    to and including the first one that throws, and how it ends. *)
Fixpoint delivered (o n : Node) (cbs : list (SlotIDType * Callback Node))
  : list (SlotIDType * Callback Node) :=
  match cbs with
  | [] => []
  | x :: rest =>
      x :: (if cb_body (snd x) o n is Some _ then [] else delivered o n rest)
  end.

Fixpoint first_failure (o n : Node) (cbs : list (SlotIDType * Callback Node))
  : Outcome unit :=
  match cbs with
  | [] => Ok tt
  | x :: rest =>
      match cb_body (snd x) o n with
      | Some e => Throws e
      | None => first_failure o n rest
      end
  end.

(** Registry [a] is alive and holds a callback. *)
Definition connected_at (w : World Node) (a : Addr) : Prop :=
  exists c i, heap w !! a = Some c /\ impl_ (object c) = Some i
              /\ ImplIF_connected i = true.

(** A walk that leaves every registry holding a callback at its path. *)
Definition rec_keeps_connected
  (rec : SignalMgr -> Node -> Node -> World Node -> Outcome bool * SignalMgr * World Node)
  (s : SignalMgr) : Prop :=
  forall o n w k rest a,
    NoDup (sigAddrs s) ->
    signalAt k rest s = Some a -> connected_at w a ->
    signalAt k rest (snd (fst (rec s o n w))) = Some a.

(** A call of registry [a] with the values [ov] and [nv]. *)
Definition fired (a : Addr) (ov nv : Node) (ev : Event Node) : Prop :=
  ev_sig ev = a /\ ev_old ev = ov /\ ev_new ev = nv.

(** Since the trace read [pre], only calls were added to it ... *)
Definition Extends (pre : list (Event Node)) (w : World Node) : Prop :=
  exists evs, trace w = pre ++ evs.

(** ... and among them a call of registry [a] with [ov] and [nv]. *)
Definition Fired (pre : list (Event Node)) (a : Addr) (ov nv : Node)
           (w : World Node) : Prop :=
  exists evs, trace w = pre ++ evs /\ Exists (fired a ov nv) evs.

(** Registry [a] is alive and holds a callback that can be called. *)
Definition holds_callback (w : World Node) (a : Addr) : Prop :=
  exists c i, heap w !! a = Some c /\ impl_ (object c) = Some i
              /\ ImplIF_connected i = true /\ ImplIF_ok i = true.

(** The adapter's guarantee behind the shortcut of the diff: below two
    empty values nothing differs. *)
Definition empty_alike (T : Trait Node) : Prop :=
  forall x y ks xv yv,
    t_empty T x = Ok true -> t_empty T y = Ok true ->
    extract T x ks = Ok xv -> extract T y ks = Ok yv ->
    t_equal T xv yv <> Ok false.

(** A walk that, when it returns, has called the registry stored at a
    path whose value differs between the two documents. *)
Definition rec_notifies (T : Trait Node)
  (rec : SignalMgr -> Node -> Node -> World Node -> Outcome bool * SignalMgr * World Node)
  (s : SignalMgr) : Prop :=
  forall o n w k rest a ov nv,
    NoDup (sigAddrs s) ->
    signalAt k rest s = Some a -> holds_callback w a ->
    extract T o (k :: rest) = Ok ov -> extract T n (k :: rest) = Ok nv ->
    t_equal T ov nv = Ok false ->
    is_Ok (fst (fst (rec s o n w))) = true ->
    Fired (trace w) a ov nv (snd (rec s o n w)).

(** A walk that installs no registry and moves none: at every key
    sequence the tree afterwards stores the registry it stored before,
    or none. *)
Definition rec_prunes
  (rec : SignalMgr -> Node -> Node -> World Node -> Outcome bool * SignalMgr * World Node)
  (s : SignalMgr) : Prop :=
  forall o n w k rest,
    signalAt k rest (snd (fst (rec s o n w))) = signalAt k rest s
    \/ signalAt k rest (snd (fst (rec s o n w))) = None.

(** Which slot of which registry a call was a call of. *)
Definition call_key (ev : Event Node) : Addr * SlotIDType :=
  (ev_sig ev, ev_slot ev).

(** A walk that calls registries of the tree only, and no slot twice. *)
Definition rec_once
  (rec : SignalMgr -> Node -> Node -> World Node -> Outcome bool * SignalMgr * World Node)
  (s : SignalMgr) : Prop :=
  forall o n w,
    NoDup (sigAddrs s) -> Issued w ->
    exists evs, trace (snd (rec s o n w)) = trace w ++ evs
                /\ fired_by (sigAddrs s) evs
                /\ NoDup (map call_key evs).

(** The registry stored for a key sequence, in a tree and below an
    entry. *)
Definition pathAt (ks : list KeyType) (m : SignalMgr) : option Addr :=
  match ks with
  | k :: rest => signalAt k rest m
  | [] => None
  end.

Definition childAt (sub : option SignalMgr) (ks : list KeyType) : option Addr :=
  match sub with
  | Some s => pathAt ks s
  | None => None
  end.

(** Key order: where two key sequences part, the registry on the side
    of the smaller key is called first. *)
Definition key_order (at_ : list KeyType -> option Addr) (evs : list (Event Node))
  : Prop :=
  forall pfx k1 r1 k2 r2 a b,
    key_lt k1 k2 ->
    at_ (pfx ++ k1 :: r1) = Some a -> at_ (pfx ++ k2 :: r2) = Some b ->
    fires_before a b evs.

Definition rec_in_key_order
  (rec : SignalMgr -> Node -> Node -> World Node -> Outcome bool * SignalMgr * World Node)
  (s : SignalMgr) : Prop :=
  forall o n w,
    NoDup (sigAddrs s) -> sorted s ->
    exists evs, trace (snd (rec s o n w)) = trace w ++ evs
                /\ fired_by (sigAddrs s) evs
                /\ key_order (fun ks => pathAt ks s) evs.

End Lifetimes.

(** Concrete states used to exercise the statements below. *)
Module Scenario.
Import Json11.

Definition path (s : string) : Path.t := Path.of_string s Path.default_sep.

(** A callback that returns normally, and one that throws. *)
Definition quiet_cb (n : nat) : Callback Json :=
  {| cb_id := n; cb_body := fun _ _ => None |}.
Definition failing_cb (n : nat) : Callback Json :=
  {| cb_id := n; cb_body := fun _ _ => Some (UserExn n) |}.
Definition quiet (n : nat) : SlotType Json := Some (quiet_cb n).
Definition failing (n : nat) : SlotType Json := Some (failing_cb n).

Definition tree0 : ObservableTree Json := ObservableTree_new JNull.
Definition world0 : World Json := World_empty.

Definition state : Type := ObservableTree Json * World Json.

Definition after {A} (r : Outcome A * ObservableTree Json * World Json) : state :=
  (snd (fst r), snd r).

Definition register (p : string) (sl : SlotType Json) (s : state) : state :=
  after (registerAt (path p) sl (fst s) (snd s)).

Definition handle (p : string) (sl : SlotType Json) (s : state) : Outcome Connection :=
  fst (fst (registerAt (path p) sl (fst s) (snd s))).

Definition replace (d : Json) (s : state) : state :=
  after (set Json11Trait d (fst s) (snd s)).

Definition cancel (c : Connection) (s : state) : state :=
  (fst s, snd (Connection_disconnect c (snd s))).

(** One registry, at address 1, holding two callbacks. *)
Definition world_two : World Json :=
  snd (connect 1 (quiet 2)
         (snd (connect 1 (quiet 1)
                 (snd (createSignal (path "a") (Mgr []) world0))))).

Definition slots_two : SlotListType Json :=
  [Some {| slot_addr := 1; slot_fn := quiet 1 |};
   Some {| slot_addr := 2; slot_fn := quiet 2 |}].

Definition obj (items : list (string * Json)) : Json := JObject items.

(** The adapter of the test with an [equal] that throws. *)
Definition ThrowingEqual : Trait Json := {|
  t_get := t_get Json11Trait;
  t_get_path := t_get_path Json11Trait;
  t_set := t_set Json11Trait;
  t_equal := fun _ _ => Throws (UserExn 7);
  t_empty := t_empty Json11Trait |}.

(** The adapter of the test with an [equal] that throws on objects
    and compares everything else. *)
Definition LeafEqual : Trait Json := {|
  t_get := t_get Json11Trait;
  t_get_path := t_get_path Json11Trait;
  t_set := t_set Json11Trait;
  t_equal := fun j1 j2 =>
               match j1, j2 with
               | JObject _, _ | _, JObject _ => Throws (UserExn 9)
               | _, _ => Ok (eqb j1 j2)
               end;
  t_empty := t_empty Json11Trait |}.

(** A tree holding [root] with one callback registered at [a]. *)
Definition watched (sl : SlotType Json) (root : Json) : state :=
  after (registerAt (path "a") sl (ObservableTree_new root) world0).

(** {"a":{"b":{"c":n},"d":7}} *)
Definition doc_abcd (n : Z) : Json :=
  obj [("a"%string, obj [("b"%string, obj [("c"%string, JNumber n)]);
                         ("d"%string, JNumber 7)])].

(** Callbacks 1, 2 and 3 at [a/b], [a/b/c] and [a/d], in registries 1, 2
    and 3, over the document [{"a":{"b":{"c":1},"d":7}}]. *)
Definition three_paths : state :=
  replace (doc_abcd 1)
    (register "a/d" (quiet 3)
       (register "a/b/c" (quiet 2)
          (register "a/b" (quiet 1) (tree0, world0)))).

End Scenario.

(* ================================================================== *)
(** * Verification *)
(* ================================================================== *)

(* ------------------------------------------------------------------ *)
(** ** Path *)

Section PathFacts.
Import Path.

Lemma toKeys_loop_nonempty sep rest : forall pending keys keys' pending',
  Forall nonempty_key keys ->
  toKeys_loop sep pending rest keys = (keys', pending') ->
  Forall nonempty_key keys'.
Proof.
  induction rest as [|c rest IH]; simpl; intros pending keys keys' pending' Hk Hl.
  - by inversion Hl; subst.
  - destruct (Ascii.eqb c sep) eqn:Hc.
    + apply (IH _ _ _ _) in Hl; [done|].
      destruct pending as [|p0 pending]; simpl.
      * by rewrite Hc.
      * destruct (Ascii.eqb p0 sep); simpl; [done|].
        apply Forall_app; split; [done|]. by repeat constructor.
    + by apply (IH _ _ _ _ Hk) in Hl.
Qed.

Lemma toKeys_loop_app sep a : forall b pending keys,
  toKeys_loop sep pending (String.append a b) keys =
  toKeys_loop sep (snd (toKeys_loop sep pending a keys)) b
                  (fst (toKeys_loop sep pending a keys)).
Proof.
  induction a as [|c a IH]; simpl; intros b pending keys; [done|].
  destruct (Ascii.eqb c sep); by rewrite IH.
Qed.

Lemma toKeys_all_nonempty raw sep : Forall nonempty_key (toKeys raw sep).
Proof.
  unfold toKeys.
  destruct (toKeys_loop sep EmptyString raw []) as [keys pending] eqn:Hl.
  apply toKeys_loop_nonempty in Hl; [|constructor].
  destruct pending as [|p0 pending]; [done|].
  destruct (if Ascii.eqb (back (String p0 pending)) zero
            then drop_back (String p0 pending) else String p0 pending)
    as [|l0 last]; [done|].
  apply Forall_app; split; [done|]. by repeat constructor.
Qed.

Lemma toKeys_leading_sep raw sep :
  toKeys (String sep raw) sep = toKeys raw sep.
Proof. unfold toKeys; simpl. by rewrite Ascii.eqb_refl. Qed.

Lemma toKeys_sep_run a b sep :
  toKeys (String.append a (String sep (String sep b))) sep =
  toKeys (String.append a (String sep b)) sep.
Proof.
  unfold toKeys. rewrite !toKeys_loop_app. simpl.
  by rewrite !Ascii.eqb_refl.
Qed.

End PathFacts.

(** C9. For every raw string and separator, [Path] construction yields
    only non-empty segments: the empty string yields the empty sequence,
    a leading separator contributes no segment, and a run of consecutive
    separators (interior or trailing) counts as a single separator, so no
    empty segment arises from it. *)
Theorem C9_toKeys_segments_nonempty :
  forall (raw : string) (sep : Path.Sep),
    Forall nonempty_key (Path.keys (Path.of_string raw sep))
    /\ Path.keys (Path.of_string EmptyString sep) = []
    /\ Path.toKeys (String sep raw) sep = Path.toKeys raw sep
    /\ (forall a b : string,
          Path.toKeys (String.append a (String sep (String sep b))) sep =
          Path.toKeys (String.append a (String sep b)) sep).
Proof.
  intros raw sep. split; [apply toKeys_all_nonempty|].
  split; [reflexivity|].
  split; [apply toKeys_leading_sep|].
  intros a b. apply toKeys_sep_run.
Qed.

(* ------------------------------------------------------------------ *)
(** ** The monad and the heap *)

Section MonadFacts.
Context {Node : Type}.
Implicit Types (w : World Node) (a : Addr) (c : SigCell Node).

Lemma bind_Ok {A B} (m : M Node A) (k : A -> M Node B) w x w' :
  m w = (Ok x, w') -> bind m k w = k x w'.
Proof. unfold bind. by intros ->. Qed.

Lemma bind_Throws {A B} (m : M Node A) (k : A -> M Node B) w e w' :
  m w = (Throws e, w') -> bind m k w = (Throws e, w').
Proof. unfold bind. by intros ->. Qed.

Lemma bind_Undefined {A B} (m : M Node A) (k : A -> M Node B) w w' :
  m w = (Undefined, w') -> bind m k w = (Undefined, w').
Proof. unfold bind. by intros ->. Qed.

Lemma deref_Some a c w :
  heap w !! a = Some c -> deref a w = (Ok (object c), w).
Proof. unfold deref. by intros ->. Qed.

Lemma store_Some a c s w :
  heap w !! a = Some c -> store a s w = (Ok tt, with_object a c s w).
Proof. unfold store. by intros ->. Qed.

Lemma heap_with_object a c s w :
  heap (with_object a c s w) !! a = Some {| use_count := use_count c; object := s |}.
Proof. unfold with_object; simpl. by rewrite lookup_insert_eq. Qed.

Lemma heap_with_object_ne a b c s w :
  a <> b -> heap (with_object a c s w) !! b = heap w !! b.
Proof. intros. unfold with_object; simpl. by rewrite lookup_insert_ne. Qed.

Lemma trace_with_object a c s w : trace (with_object a c s w) = trace w.
Proof. done. Qed.

Lemma with_object_twice a c c' s s' w :
  use_count c' = use_count c ->
  with_object a c' s' (with_object a c s w) = with_object a c s' w.
Proof.
  intros Hc. unfold with_object, set_heap; simpl.
  by rewrite insert_insert_eq, Hc.
Qed.

Lemma weak_lock_alive a c w :
  heap w !! a = Some c -> weak_lock (Some a) w = (Ok (Some a), w).
Proof. unfold weak_lock. by intros ->. Qed.

Lemma weak_lock_dead a w :
  heap w !! a = None -> weak_lock (Some a) w = (Ok None, w).
Proof. unfold weak_lock. by intros ->. Qed.

(** Evaluation of the registry's member functions on a live object. *)
Lemma disconnect_eval a c i slotID w :
  heap w !! a = Some c ->
  impl_ (object c) = Some i ->
  disconnect a slotID w =
  match ImplIF_disconnect i slotID with
  | Ok i' => (Ok tt, with_object a c {| impl_ := Some i' |} w)
  | Throws e => (Throws e, w)
  | Undefined => (Undefined, w)
  end.
Proof.
  intros Ha Hi. unfold disconnect.
  rewrite (bind_Ok _ _ _ _ _ (deref_Some _ _ _ Ha)), Hi.
  unfold bind, lift. destruct (ImplIF_disconnect i slotID); [|done..].
  by apply store_Some.
Qed.

Lemma call_eval a c w jOld jNew :
  heap w !! a = Some c ->
  call a jOld jNew w =
  match impl_ (object c) with
  | Some i => ImplIF_onChanged a i jOld jNew w
  | None => (Ok tt, w)
  end.
Proof.
  intros Ha. unfold call.
  rewrite (bind_Ok _ _ _ _ _ (deref_Some _ _ _ Ha)).
  by destruct (impl_ (object c)).
Qed.

Lemma connected_eval a c w :
  heap w !! a = Some c ->
  connected a w =
  (Ok (match impl_ (object c) with
       | Some i => ImplIF_connected i
       | None => false
       end), w).
Proof.
  intros Ha. unfold connected.
  by rewrite (bind_Ok _ _ _ _ _ (deref_Some _ _ _ Ha)).
Qed.

Lemma Connection_disconnect_eval (h : Connection) a c w :
  signalRef_ h = Some a ->
  slotID_ h <> SlotIDInvalid ->
  heap w !! a = Some c ->
  Connection_disconnect h w = disconnect a (slotID_ h) w.
Proof.
  intros Href Hid Ha. unfold SlotIDInvalid in Hid.
  unfold Connection_disconnect.
  rewrite (proj2 (Nat.eqb_neq _ _) Hid), Href. simpl.
  by rewrite (bind_Ok _ _ _ _ _ (weak_lock_alive _ _ _ Ha)).
Qed.

End MonadFacts.

(* ------------------------------------------------------------------ *)
(** ** ModificationSignal: cancellation *)

Section CancelFacts.
Context {Node : Type}.
Implicit Types (l : SlotListType Node) (w : World Node).

Lemma find_if_absent {A} (p : A -> bool) (xs : list A) :
  Forall (fun x => p x = false) xs -> find_if p xs = List.length xs.
Proof. induction 1 as [|x xs Hx _ IH]; simpl; [done|]. by rewrite Hx, IH. Qed.


(** [MultiImpl::disconnect] erases at [end()] when no slot matches. *)
Lemma MultiImpl_disconnect_absent l (slotID : SlotIDType) :
  Forall (fun sl => (get_ptr sl =? slotID) = false) l ->
  MultiImpl_disconnect l slotID = Undefined.
Proof.
  intros H. unfold MultiImpl_disconnect, list_erase.
  rewrite (find_if_absent _ _ H).
  by rewrite (proj2 (Nat.ltb_ge _ _)) by lia.
Qed.


(** [SingleImpl::disconnect] compares first: a stale id changes nothing. *)
Lemma SingleImpl_disconnect_absent (s : option (SlotCell Node)) (slotID : SlotIDType) :
  get_ptr s <> slotID ->
  SingleImpl_disconnect s slotID = Ok (SingleImpl s).
Proof.
  intros H. unfold SingleImpl_disconnect.
  by rewrite (proj2 (Nat.eqb_neq _ _) H).
Qed.

(** A handle whose registry is gone, or which never held a slot, is inert. *)
Lemma Connection_disconnect_dead (h : Connection) w :
  (slotID_ h = SlotIDInvalid \/ signalRef_ h = None \/
   exists a, signalRef_ h = Some a /\ heap w !! a = None) ->
  Connection_disconnect h w = (Ok tt, w).
Proof.
  unfold Connection_disconnect, SlotIDInvalid.
  intros [H|[H|(a & H & Ha)]].
  - by rewrite H.
  - destruct (slotID_ h =? 0); [done|]. simpl. by rewrite H.
  - destruct (slotID_ h =? 0); [done|]. simpl.
    by rewrite H, (bind_Ok _ _ _ _ _ (weak_lock_dead _ _ Ha)).
Qed.

(** In Single mode a second cancel compares the stale id with a null
    slot and leaves the registry as it is. *)
Lemma Connection_disconnect_single_twice (h : Connection) (a : Addr) w cell s :
  signalRef_ h = Some a ->
  slotID_ h <> SlotIDInvalid ->
  heap w !! a = Some cell ->
  impl_ (object cell) = Some (SingleImpl s) ->
  exists w1,
    Connection_disconnect h w = (Ok tt, w1) /\
    Connection_disconnect h w1 = (Ok tt, w1) /\
    trace w1 = trace w.
Proof.
  intros Href Hid Ha Hi.
  rewrite (Connection_disconnect_eval _ _ _ _ Href Hid Ha).
  rewrite (disconnect_eval _ _ _ _ _ Ha Hi). simpl.
  unfold SingleImpl_disconnect.
  destruct (get_ptr s =? slotID_ h) eqn:He.
  all: eexists; split; [reflexivity|]; split; [|done].
  all: rewrite (Connection_disconnect_eval _ _ _ _ Href Hid (heap_with_object _ _ _ _)).
  all: erewrite disconnect_eval;
    [|apply heap_with_object|simpl; reflexivity]; simpl.
  all: unfold SingleImpl_disconnect.
  - simpl. unfold SlotIDInvalid in *.
    destruct (slotID_ h) as [|n]; [done|]. simpl.
    by rewrite with_object_twice.
  - rewrite He. by rewrite with_object_twice.
Qed.

(** In Multi mode the same second cancel reaches [erase(end())]. *)
Lemma Connection_disconnect_multi_absent (h : Connection) (a : Addr) w cell l :
  signalRef_ h = Some a ->
  slotID_ h <> SlotIDInvalid ->
  heap w !! a = Some cell ->
  impl_ (object cell) = Some (MultiImpl l) ->
  Forall (fun sl => (get_ptr sl =? slotID_ h) = false) l ->
  Connection_disconnect h w = (Undefined, w).
Proof.
  intros Href Hid Ha Hi Habs.
  rewrite (Connection_disconnect_eval _ _ _ _ Href Hid Ha).
  rewrite (disconnect_eval _ _ _ _ _ Ha Hi). simpl.
  by rewrite (MultiImpl_disconnect_absent _ _ Habs).
Qed.

End CancelFacts.

(** C1 (evaluated at the failing input).  Two callbacks are registered at
    one path, so the registry is in Multi mode.  The first cancel of the
    first handle removes its callback; the second cancel of the same
    handle is not a no-op: [MultiImpl::disconnect] erases at the end
    position, which has no defined behaviour. *)
Theorem C1_second_cancel_in_multi_mode_is_undefined :
  let s0 := (Scenario.tree0, Scenario.world0) in
  let s1 := Scenario.register "a" (Scenario.quiet 1) s0 in
  let s2 := Scenario.register "a" (Scenario.quiet 2) s1 in
  exists h1 : Connection,
    Scenario.handle "a" (Scenario.quiet 1) s0 = Ok h1
    /\ fst (Connection_disconnect h1 (snd s2)) = Ok tt
    /\ fst (Connection_disconnect h1 (snd (Scenario.cancel h1 s2))) = Undefined.
Proof.
  eexists. split; [vm_compute; reflexivity|].
  split; vm_compute; reflexivity.
Qed.

(* ------------------------------------------------------------------ *)
(** ** Induction on registry trees *)

Lemma SignalMgr_nested_ind (P : SignalMgr -> Prop) :
  (forall es : SignalsMap,
      Forall (fun e => forall c, child_ (snd e) = Some c -> P c) es -> P (Mgr es)) ->
  forall m, P m.
Proof.
  intros H. fix IH 1. intros [es]. apply H.
  induction es as [|[k [sp sub]] es IHes]; constructor; [|exact IHes].
  simpl. intros c Hc. destruct sub as [c'|]; [|discriminate].
  injection Hc as <-. apply IH.
Qed.

(* ------------------------------------------------------------------ *)
(** ** The registry invariant: stored slots are callable *)

Section InvariantFacts.
Context {Node : Type}.
Implicit Types (w : World Node) (a : Addr) (c : SigCell Node).

Lemma World_ok_same_heap w w' : heap w' = heap w -> World_ok w -> World_ok w'.
Proof. unfold World_ok. intros ->. done. Qed.

Lemma World_ok_insert w a c w' :
  heap w' = <[a := c]> (heap w) ->
  World_ok w ->
  (forall i, impl_ (object c) = Some i -> ImplIF_ok i = true) ->
  World_ok w'.
Proof.
  intros Hh Hok Hc b cb i. rewrite Hh, lookup_insert.
  case_decide; [|by apply Hok].
  intros [= <-]. apply Hc.
Qed.

Lemma World_ok_delete w a w' :
  heap w' = delete a (heap w) -> World_ok w -> World_ok w'.
Proof.
  intros Hh Hok b cb i. rewrite Hh, lookup_delete.
  case_decide; [done|]. by apply Hok.
Qed.

Lemma keeps_ok_ret {A} (x : A) : keeps_ok (Node:=Node) (ret x).
Proof. by intros w. Qed.

Lemma keeps_ok_lift {A} (o : Outcome A) : keeps_ok (Node:=Node) (lift o).
Proof. by intros w. Qed.

Lemma keeps_ok_undefined {A} : keeps_ok (Node:=Node) (A:=A) undefined.
Proof. by intros w. Qed.

Lemma keeps_ok_bind {A B} (m : M Node A) (k : A -> M Node B) :
  keeps_ok m -> (forall x, keeps_ok (Node:=Node) (k x)) -> keeps_ok (Node:=Node) (bind m k).
Proof.
  intros Hm Hk w Hw. unfold bind. specialize (Hm w Hw).
  destruct (m w) as [[x|e|] w']; simpl in *; [by apply Hk|done..].
Qed.

Lemma keeps_ok_deref a : keeps_ok (Node:=Node) (deref a).
Proof. intros w Hw. unfold deref. by destruct (heap w !! a). Qed.

Lemma keeps_ok_connected a : keeps_ok (Node:=Node) (connected a).
Proof.
  apply keeps_ok_bind; [apply keeps_ok_deref|]. intros; apply keeps_ok_ret.
Qed.

Lemma keeps_ok_weak_lock r : keeps_ok (Node:=Node) (weak_lock r).
Proof. intros w Hw. unfold weak_lock. destruct r; [|done]. by destruct (heap w !! _). Qed.

Lemma keeps_ok_new_slot (sl : SlotType Node) : keeps_ok (Node:=Node) (new_slot sl).
Proof. intros w Hw. by apply (World_ok_same_heap w). Qed.

Lemma keeps_ok_shared_new : keeps_ok (Node:=Node) shared_new.
Proof. intros w Hw. by eapply (World_ok_insert w); [reflexivity|..]. Qed.

Lemma keeps_ok_shared_copy a : keeps_ok (Node:=Node) (shared_copy a).
Proof.
  intros w Hw. unfold shared_copy.
  destruct (heap w !! a) as [c|] eqn:Ha; [|done]. simpl.
  eapply (World_ok_insert w); [reflexivity|done|]. simpl. intros i Hi. by apply (Hw a c i).
Qed.

Lemma keeps_ok_shared_release a : keeps_ok (Node:=Node) (shared_release a).
Proof.
  intros w Hw. unfold shared_release.
  destruct (heap w !! a) as [c|] eqn:Ha; [|done]. simpl.
  destruct (use_count c <=? 1).
  - by eapply (World_ok_delete w); [reflexivity|].
  - eapply (World_ok_insert w); [reflexivity|done|]. simpl. intros i Hi. by apply (Hw a c i).
Qed.

Lemma keeps_ok_invoke a (sc : SlotCell Node) o n : keeps_ok (Node:=Node) (invoke a sc o n).
Proof.
  intros w Hw. unfold invoke. destruct (slot_fn sc) as [cb|]; [|done].
  destruct (cb_body cb o n); by apply (World_ok_same_heap w).
Qed.

Lemma keeps_ok_MultiImpl_onChanged a (l : SlotListType Node) o n :
  keeps_ok (Node:=Node) (MultiImpl_onChanged a l o n).
Proof.
  induction l as [|[sc|] l IH]; simpl.
  - apply keeps_ok_ret.
  - apply keeps_ok_bind; [apply keeps_ok_invoke|done].
  - apply keeps_ok_bind; [apply keeps_ok_undefined|done].
Qed.

Lemma keeps_ok_call a o n : keeps_ok (Node:=Node) (call a o n).
Proof.
  apply keeps_ok_bind; [apply keeps_ok_deref|]. intros self.
  destruct (impl_ self) as [[s|l]|]; simpl.
  - destruct s as [sc|]; simpl; [|apply keeps_ok_ret].
    destruct (slot_fn sc); [apply keeps_ok_invoke|apply keeps_ok_ret].
  - apply keeps_ok_MultiImpl_onChanged.
  - apply keeps_ok_ret.
Qed.

Lemma forallb_callable_delete (l : SlotListType Node) pos :
  forallb callable l = true -> forallb callable (delete pos l) = true.
Proof.
  revert pos. induction l as [|x l IH]; intros [|pos]; simpl; try done.
  - by intros [_ ?]%andb_prop.
  - intros [-> ?]%andb_prop. simpl. by apply IH.
Qed.

Lemma ImplIF_disconnect_ok (i i' : ImplIF Node) slotID :
  ImplIF_ok i = true -> ImplIF_disconnect i slotID = Ok i' -> ImplIF_ok i' = true.
Proof.
  destruct i as [s|l]; simpl.
  - unfold SingleImpl_disconnect.
    destruct (get_ptr s =? slotID); by intros ? [= <-].
  - unfold MultiImpl_disconnect, list_erase. intros Hl.
    destruct (_ <? _); [|done]. intros [= <-]. simpl.
    by apply forallb_callable_delete.
Qed.

Lemma keeps_ok_disconnect a slotID : keeps_ok (Node:=Node) (disconnect a slotID).
Proof.
  intros w Hw. unfold disconnect, bind at 1, deref.
  destruct (heap w !! a) as [c|] eqn:Ha; [|done].
  destruct (impl_ (object c)) as [i|] eqn:Hi; [|done].
  unfold bind, lift.
  destruct (ImplIF_disconnect i slotID) as [i'| |] eqn:Hd; [|done..].
  rewrite (store_Some _ _ _ _ Ha). simpl.
  eapply (World_ok_insert w); [reflexivity|done|]. simpl. intros ? [= <-].
  eapply ImplIF_disconnect_ok; [|done]. by eapply Hw.
Qed.

Lemma keeps_ok_Connection_disconnect h : keeps_ok (Node:=Node) (Connection_disconnect h).
Proof.
  unfold Connection_disconnect. destruct (negb _); [|apply keeps_ok_ret].
  apply keeps_ok_bind; [apply keeps_ok_weak_lock|].
  intros [a|]; [apply keeps_ok_disconnect|apply keeps_ok_ret].
Qed.

(** The storage [connect] is about to register into, and what it
    becomes, are both made of callable slots. *)
Lemma connect_target_ok (i0 : option (ImplIF Node)) :
  (forall i, i0 = Some i -> ImplIF_ok i = true) ->
  ImplIF_ok (match i0 with
             | None => SingleImpl None
             | Some i => if is_Single i && ImplIF_connected i
                         then MultiImpl (fst (ImplIF_stealSlots i))
                         else i
             end) = true.
Proof.
  intros H. destruct i0 as [i|]; [|done]. specialize (H i eq_refl).
  destruct i as [[sc|]|l]; simpl in *; [|done..].
  by rewrite H.
Qed.

Lemma ImplIF_connect_ok (i : ImplIF Node) (cb : Callback Node) w :
  ImplIF_ok i = true ->
  exists id i', ImplIF_connect i (Some cb) w =
                (Ok (id, i'), snd (new_slot (Some cb) w))
                /\ ImplIF_ok i' = true
                /\ id = S (slots_allocated w).
Proof.
  intros Hi. destruct i as [s|l]; simpl.
  - eexists _, _. split; [reflexivity|]. done.
  - eexists _, _. split; [reflexivity|]. split; [|done].
    simpl in *. rewrite forallb_app, Hi. done.
Qed.

Lemma keeps_ok_connect a (sl : SlotType Node) : keeps_ok (Node:=Node) (connect a sl).
Proof.
  intros w Hw. unfold connect.
  destruct sl as [cb|]; [|done].
  unfold bind at 1. unfold bind at 1. unfold deref.
  destruct (heap w !! a) as [c|] eqn:Ha; [|done].
  pose proof (connect_target_ok (impl_ (object c))
                (fun i Hi => Hw a c i Ha Hi)) as Hok.
  destruct (ImplIF_connect_ok _ cb w Hok) as (id & i' & Hc & Hi' & Hid).
  rewrite (bind_Ok _ _ _ _ _ Hc).
  assert (Ha' : heap (snd (new_slot (Some cb) w)) !! a = Some c) by done.
  rewrite (bind_Ok _ _ _ _ _ (store_Some _ _ _ _ Ha')).
  unfold ret. subst id. simpl.
  eapply (World_ok_insert w); [reflexivity|done|]. simpl. by intros ? [= <-].
Qed.

Lemma keeps_ok_createSignal_range rest : forall k m,
  keeps_ok (Node:=Node) (createSignal_range k rest m).
Proof.
  induction rest as [|k' rest IH]; intros k m; simpl.
  - apply keeps_ok_bind.
    + destruct (signalPtr_ _); [apply keeps_ok_ret|apply keeps_ok_shared_new].
    + intros a. apply keeps_ok_bind; [apply keeps_ok_shared_copy|].
      intros; apply keeps_ok_ret.
  - apply keeps_ok_bind; [apply IH|]. intros [p child']. apply keeps_ok_ret.
Qed.

Lemma keeps_ok_createSignal p m : keeps_ok (Node:=Node) (createSignal p m).
Proof.
  unfold createSignal. destruct (Path.keys p) as [|k rest]; [apply keeps_ok_ret|].
  apply keeps_ok_bind; [apply keeps_ok_createSignal_range|].
  intros [a m']. apply keeps_ok_ret.
Qed.

Variable T : Trait Node.

Lemma keeps_ok_notify sp o n : keeps_ok (Node:=Node) (notify sp o n).
Proof. destruct sp; [apply keeps_ok_call|apply keeps_ok_ret]. Qed.

Lemma keeps_ok_compareAndNotify sp o n hc : keeps_ok (Node:=Node) (compareAndNotify T sp o n hc).
Proof.
  apply keeps_ok_bind; [apply keeps_ok_lift|]. intros eq.
  destruct sp as [a|]; [|apply keeps_ok_ret].
  apply keeps_ok_bind; [apply keeps_ok_connected|]. intros [|].
  - apply keeps_ok_bind; [|intros; apply keeps_ok_ret].
    destruct (negb eq); [apply keeps_ok_call|apply keeps_ok_ret].
  - apply keeps_ok_bind; [apply keeps_ok_shared_release|intros; apply keeps_ok_ret].
Qed.

Lemma keeps_ok_onChanged_at m p o n : keeps_ok (Node:=Node) (onChanged_at T m p o n).
Proof.
  unfold onChanged_at. destruct (getSignal m p) as [a|]; [|apply keeps_ok_ret].
  apply keeps_ok_bind; [apply keeps_ok_lift|]. intros eq.
  destruct (negb eq); [|apply keeps_ok_ret].
  apply keeps_ok_bind; [apply keeps_ok_call|intros; apply keeps_ok_ret].
Qed.

Lemma visitEntry_keeps_ok rec o n hc (e : KeyType * MySignalAndChild) w :
  (forall s, child_ (snd e) = Some s -> rec_keeps_ok rec s) ->
  World_ok w -> World_ok (snd (visitEntry T rec o n hc e w)).
Proof.
  intros Hrec Hw. destruct e as [key [sp sub]]. unfold visitEntry.
  destruct (t_get T o key) as [ov| |]; [|done..].
  destruct (t_get T n key) as [nv| |]; [|done..].
  assert (Hsub : World_ok (snd (recurse rec sub ov nv w))).
  { unfold recurse. destruct sub as [s|]; [|done].
    specialize (Hrec s eq_refl ov nv w Hw).
    by destruct (rec s ov nv w) as [[r s'] w']. }
  destruct (recurse rec sub ov nv w) as [[[[|]| |] sub'] w1]; simpl in Hsub; [| |done..].
  - pose proof (keeps_ok_notify sp ov nv w1 Hsub) as H.
    by destruct (notify sp ov nv w1) as [[?| |] w2].
  - pose proof (keeps_ok_compareAndNotify sp ov nv hc w1 Hsub) as H.
    by destruct (compareAndNotify T sp ov nv hc w1) as [[[? ?]| |] w2].
Qed.

Lemma loopEntries_keeps_ok rec o n (es : SignalsMap) :
  Forall (fun e => forall s, child_ (snd e) = Some s -> rec_keeps_ok rec s) es ->
  forall hc w, World_ok w -> World_ok (snd (loopEntries T rec o n es hc w)).
Proof.
  induction 1 as [|e es He _ IH]; intros hc w Hw; simpl; [done|].
  pose proof (visitEntry_keeps_ok rec o n hc e w He Hw) as H.
  destruct (visitEntry T rec o n hc e w) as [[[hc'| |] e'] w1]; simpl in H; [|done..].
  specialize (IH hc' w1 H).
  by destruct (loopEntries T rec o n es hc' w1) as [[r rest'] w2].
Qed.

Lemma onChanged_keeps_ok m : rec_keeps_ok (Node:=Node) (onChanged T) m.
Proof.
  induction m as [es IH] using SignalMgr_nested_ind. intros o n w Hw. simpl.
  destruct (notBothEmpty T o n) as [[|]| |]; [|done..].
  pose proof (loopEntries_keeps_ok (onChanged T) o n es IH false w Hw) as H.
  by destruct (loopEntries T (onChanged T) o n es false w) as [[r es'] w'].
Qed.

Lemma step_keeps_ok w w' : step T w w' -> World_ok w -> World_ok w'.
Proof.
  destruct 1; intros Hw.
  - by apply keeps_ok_createSignal.
  - by apply keeps_ok_connect.
  - by apply keeps_ok_Connection_disconnect.
  - by apply keeps_ok_shared_release.
  - by apply onChanged_keeps_ok.
  - by apply keeps_ok_onChanged_at.
Qed.

Lemma reachable_ok w : reachable T w -> World_ok w.
Proof.
  induction 1 as [|w w' _ IH Hs]; [|by eapply step_keeps_ok].
  intros a c i. simpl. by rewrite lookup_empty.
Qed.

(** On a list of callable slots, dispatch is the plain sequence of calls. *)
Lemma MultiImpl_onChanged_callable a (l : SlotListType Node) o n :
  forallb callable l = true ->
  exists cbs, l = map slot_of cbs /\
              MultiImpl_onChanged a l o n = invoke_all a cbs o n.
Proof.
  induction l as [|sl l IH]; simpl; [by exists []|].
  intros [Hsl Hl]%andb_prop. destruct (IH Hl) as (cbs & -> & Heq).
  destruct sl as [[id [cb|]]|]; [|done..].
  exists ((id, cb) :: cbs). split; [done|]. simpl. by rewrite Heq.
Qed.

End InvariantFacts.

(* ------------------------------------------------------------------ *)
(** ** ModificationSignal: registration *)

Section ConnectFacts.
Context {Node : Type}.
Implicit Types (w : World Node) (a : Addr) (c : SigCell Node).

Lemma connect_eval a c (cb : Callback Node) w :
  heap w !! a = Some c ->
  connect a (Some cb) w =
  (Ok {| signalRef_ := Some a; slotID_ := S (slots_allocated w) |},
   with_object a c
     {| impl_ := Some (grown (impl_ (object c))
                             {| slot_addr := S (slots_allocated w);
                                slot_fn := Some cb |}) |}
     (snd (new_slot (Some cb) w))).
Proof.
  intros Ha. unfold connect.
  rewrite (bind_Ok _ _ w (S (slots_allocated w))
             (with_object a c
                {| impl_ := Some (grown (impl_ (object c))
                                        {| slot_addr := S (slots_allocated w);
                                           slot_fn := Some cb |}) |}
                (snd (new_slot (Some cb) w)))); [done|].
  rewrite (bind_Ok _ _ _ _ _ (deref_Some _ _ _ Ha)).
  destruct (impl_ (object c)) as [[[s|]|l]|]; simpl.
  all: unfold SingleImpl_connect, MultiImpl_connect, bind, new_slot, ret; simpl.
  all: unfold store; simpl; by rewrite Ha.
Qed.

Lemma connect_empty a w : connect a None w = (Ok Connection_default, w).
Proof. reflexivity. Qed.

End ConnectFacts.

(** C10. In every state reachable through the interface, each slot kept
    in a registry's Multi-mode list is a non-null pointer to a non-empty
    callable, so dispatch on it is exactly the sequence of calls of the
    stored callbacks (no null dereference, no call of an empty
    [std::function]).  This rests on two facts of [connect], also stated:
    an empty callback stores nothing, and the Single storage is turned
    into a Multi list only when its one slot is non-null. *)
Theorem C10_multi_slots_callable {Node : Type} (T : Trait Node) (w : World Node) :
  reachable T w ->
  (forall a c l,
      heap w !! a = Some c -> impl_ (object c) = Some (MultiImpl l) ->
      forallb callable l = true
      /\ forall o n, exists cbs,
           l = map slot_of cbs /\ call a o n w = invoke_all a cbs o n w)
  /\ (forall a, connect a None w = (Ok Connection_default, w))
  /\ (forall a c s cb,
         heap w !! a = Some c -> impl_ (object c) = Some (SingleImpl s) ->
         exists h c',
           connect a (Some cb) w = (Ok h, snd (connect a (Some cb) w))
           /\ heap (snd (connect a (Some cb) w)) !! a = Some c'
           /\ match impl_ (object c') with
              | Some (MultiImpl l') => callable s = true /\ forallb callable l' = true
              | Some (SingleImpl s') => s = None /\ callable s' = true
              | None => False
              end).
Proof.
  intros Hr. pose proof (reachable_ok T w Hr) as Hok.
  split; [|split].
  - intros a c l Ha Hi. pose proof (Hok a c _ Ha Hi) as Hl. simpl in Hl.
    split; [done|]. intros o n.
    destruct (MultiImpl_onChanged_callable a l o n Hl) as (cbs & -> & Heq).
    exists cbs. split; [done|].
    rewrite (call_eval _ _ _ _ _ Ha), Hi. simpl. by rewrite Heq.
  - intros a. apply connect_empty.
  - intros a c s cb Ha Hi. pose proof (Hok a c _ Ha Hi) as Hs.
    rewrite (connect_eval _ _ _ _ Ha). simpl.
    eexists _, _. split; [reflexivity|]. rewrite lookup_insert_eq.
    split; [reflexivity|]. simpl. rewrite Hi.
    destruct s as [sc|]; simpl in *; [|done].
    by rewrite Hs.
Qed.

(** C10, at a state with two callbacks registered at one path. *)
Lemma C10_multi_slots_callable_witness :
  reachable Json11.Json11Trait Scenario.world_two
  /\ forallb callable Scenario.slots_two = true.
Proof.
  assert (Hr : reachable Json11.Json11Trait Scenario.world_two).
  { do 3 (eapply reachable_step; [|constructor]). apply reachable_init. }
  split; [exact Hr|].
  refine (proj1 (proj1 (C10_multi_slots_callable Json11.Json11Trait
                          Scenario.world_two Hr) 1 _ Scenario.slots_two _ _)).
  - vm_compute. reflexivity.
  - vm_compute. reflexivity.
Defined.

(* ------------------------------------------------------------------ *)
(** ** SignalMgr: the map and [createSignal] *)

Section TreeFacts.
Context {Node : Type}.
Implicit Types (w : World Node) (a : Addr) (m : SignalMgr) (es : SignalsMap).

Lemma compare_refl (k : string) : String.compare k k = Eq.
Proof.
  pose proof (String.compare_antisym k k) as H.
  destruct (String.compare k k); simpl in H; congruence.
Qed.

Lemma compare_neq (k k' : string) : String.compare k k' <> Eq -> String.eqb k k' = false.
Proof. intros H. apply String.eqb_neq. intros ->. by rewrite compare_refl in H. Qed.

Lemma map_find_assign k v es : map_find k (map_assign k v es) = Some v.
Proof.
  induction es as [|[k' v'] es IH]; simpl.
  - by rewrite String.eqb_refl.
  - destruct (String.compare k k') eqn:Hc; simpl.
    + by rewrite String.eqb_refl.
    + by rewrite String.eqb_refl.
    + rewrite compare_neq by congruence. done.
Qed.

Lemma map_find_assign_ne k k' v es :
  k <> k' -> map_find k' (map_assign k v es) = map_find k' es.
Proof.
  intros Hne. induction es as [|[k0 v0] es IH]; simpl.
  - by rewrite (proj2 (String.eqb_neq k' k)).
  - destruct (String.compare k k0) eqn:Hc; simpl.
    + apply String.compare_eq_iff in Hc as <-.
      by rewrite (proj2 (String.eqb_neq k' k)).
    + by rewrite (proj2 (String.eqb_neq k' k)).
    + by rewrite IH.
Qed.

Lemma map_assign_assign k v1 v2 es :
  map_assign k v2 (map_assign k v1 es) = map_assign k v2 es.
Proof.
  induction es as [|[k' v'] es IH]; simpl.
  - by rewrite compare_refl.
  - destruct (String.compare k k') eqn:Hc; simpl.
    + by rewrite compare_refl.
    + by rewrite compare_refl.
    + by rewrite Hc, IH.
Qed.

Lemma map_subscript_assign k v es : map_subscript k (map_assign k v es) = v.
Proof. unfold map_subscript. by rewrite map_find_assign. Qed.

Lemma bind_assoc {A B C} (c : M Node A) (f : A -> M Node B) (g : B -> M Node C) w :
  bind (bind c f) g w = bind c (fun x => bind (f x) g) w.
Proof. unfold bind. by destruct (c w) as [[x|e|] w']. Qed.

Lemma bind_ext {A B} (c c' : M Node A) (f f' : A -> M Node B) w :
  c w = c' w -> (forall x w', f x w' = f' x w') -> bind c f w = bind c' f' w.
Proof. unfold bind. intros -> Hf. by destruct (c' w) as [[x|e|] w']. Qed.

Lemma getSigNChild_empty k rest : getSigNChild k rest (Mgr []) = None.
Proof. by destruct rest. Qed.

Lemma signalAt_cons k k' rest m :
  signalAt k (k' :: rest) m =
  signalAt k' rest (default (Mgr []) (child_ (map_subscript k (signalsMap m)))).
Proof.
  unfold signalAt, map_subscript. simpl.
  destruct (map_find k (signalsMap m)) as [[sp [c|]]|]; simpl; try done.
  all: by rewrite getSigNChild_empty.
Qed.

Lemma signalAt_nil k m :
  signalAt k [] m = signalPtr_ (map_subscript k (signalsMap m)).
Proof.
  unfold signalAt, map_subscript. simpl.
  by destruct (map_find k (signalsMap m)).
Qed.

Lemma getSignal_keys m p k rest :
  Path.keys p = k :: rest -> getSignal m p = signalAt k rest m.
Proof. unfold getSignal, signalAt. by intros ->. Qed.

Lemma createSignal_range_graft rest : forall k m w,
  createSignal_range k rest m w =
  (let* a := acquire (signalAt k rest m) in ret (a, graft k rest m a)) w.
Proof.
  induction rest as [|k' rest IH]; intros k m w.
  - simpl. rewrite signalAt_nil. unfold acquire. rewrite bind_assoc.
    apply bind_ext; [done|]. intros a w'. rewrite bind_assoc.
    apply bind_ext; [done|]. by intros [] w''.
  - simpl. rewrite signalAt_cons.
    rewrite (bind_ext _ _ _ _ _ (IH _ _ _) (fun _ _ => eq_refl)).
    rewrite bind_assoc. apply bind_ext; [done|]. by intros a w'.
Qed.

Lemma signalAt_graft rest : forall k m a, signalAt k rest (graft k rest m a) = Some a.
Proof.
  induction rest as [|k' rest IH]; intros k m a.
  - rewrite signalAt_nil. simpl. by rewrite map_subscript_assign.
  - rewrite signalAt_cons. simpl. rewrite map_subscript_assign. simpl. apply IH.
Qed.

Lemma graft_graft rest : forall k m a,
  graft k rest (graft k rest m a) a = graft k rest m a.
Proof.
  induction rest as [|k' rest IH]; intros k m a; simpl.
  - by rewrite map_subscript_assign, map_assign_assign.
  - rewrite map_subscript_assign, map_assign_assign. simpl. by rewrite IH.
Qed.

(** ** Registration through the facade *)

Lemma acquire_ready existing w :
  ready existing w ->
  exists a c1 w1,
    acquire existing w = (Ok a, w1)
    /\ heap w1 !! a = Some c1 /\ 2 <= use_count c1 /\ unconnected (object c1)
    /\ slots_allocated w1 = slots_allocated w /\ trace w1 = trace w.
Proof.
  unfold acquire. destruct existing as [a|]; simpl.
  - intros (c & Ha & Hc & Hu). exists a. unfold bind, ret, shared_copy. rewrite Ha.
    eexists _, _. split; [reflexivity|]. simpl. rewrite lookup_insert_eq.
    split; [reflexivity|]. simpl. repeat split; [lia|done].
  - intros _. unfold bind, ret, shared_new, shared_copy. simpl.
    rewrite lookup_insert_eq. eexists _, _, _. split; [reflexivity|]. simpl.
    rewrite lookup_insert_eq. split; [reflexivity|]. simpl.
    repeat split; [lia|by left].
Qed.

Lemma acquire_live a c w :
  heap w !! a = Some c ->
  exists w1,
    acquire (Some a) w = (Ok a, w1)
    /\ heap w1 !! a = Some {| use_count := S (use_count c); object := object c |}
    /\ slots_allocated w1 = slots_allocated w /\ trace w1 = trace w.
Proof.
  intros Ha. unfold acquire, bind, ret, shared_copy. rewrite Ha.
  eexists. split; [reflexivity|]. simpl. by rewrite lookup_insert_eq.
Qed.

Lemma connect_then_release a c1 (cb : Callback Node) w1 :
  heap w1 !! a = Some c1 -> 2 <= use_count c1 ->
  exists w2,
    (let* h := connect a (Some cb) in shared_release a ;;; ret h) w1 =
    (Ok {| signalRef_ := Some a; slotID_ := S (slots_allocated w1) |}, w2)
    /\ heap w2 !! a =
       Some {| use_count := pred (use_count c1);
               object := {| impl_ := Some (grown (impl_ (object c1))
                                             {| slot_addr := S (slots_allocated w1);
                                                slot_fn := Some cb |}) |} |}
    /\ slots_allocated w2 = S (slots_allocated w1) /\ trace w2 = trace w1.
Proof.
  intros Ha Hc.
  rewrite (bind_Ok _ _ _ _ _ (connect_eval _ _ _ _ Ha)).
  unfold bind, ret, shared_release. rewrite heap_with_object. simpl.
  rewrite (proj2 (Nat.leb_gt _ _)) by lia.
  eexists. split; [reflexivity|]. simpl. by rewrite lookup_insert_eq.
Qed.

Lemma createSignal_eval p k rest m w a w1 :
  Path.keys p = k :: rest ->
  acquire (signalAt k rest m) w = (Ok a, w1) ->
  createSignal p m w = (Ok (Some a, graft k rest m a), w1).
Proof.
  intros Hk Hacq. unfold createSignal. rewrite Hk.
  rewrite (bind_ext _ _ _ _ _ (createSignal_range_graft _ _ _ _) (fun _ _ => eq_refl)).
  rewrite bind_assoc. by rewrite (bind_Ok _ _ _ _ _ Hacq).
Qed.

Lemma registerAt_eval p k rest (t : ObservableTree Node) w a w1 c1 cb :
  Path.keys p = k :: rest ->
  acquire (signalAt k rest (signalMgr_ t)) w = (Ok a, w1) ->
  heap w1 !! a = Some c1 -> 2 <= use_count c1 ->
  exists w2,
    registerAt p (Some cb) t w =
    (Ok {| signalRef_ := Some a; slotID_ := S (slots_allocated w1) |},
     {| signalMgr_ := graft k rest (signalMgr_ t) a; root_ := root_ t |}, w2)
    /\ heap w2 !! a =
       Some {| use_count := pred (use_count c1);
               object := {| impl_ := Some (grown (impl_ (object c1))
                                             {| slot_addr := S (slots_allocated w1);
                                                slot_fn := Some cb |}) |} |}
    /\ slots_allocated w2 = S (slots_allocated w1) /\ trace w2 = trace w1.
Proof.
  intros Hk Hacq Ha Hc.
  destruct (connect_then_release a c1 cb w1 Ha Hc) as (w2 & Hcr & Hw2).
  exists w2. split; [|exact Hw2].
  unfold registerAt, modificationSignal.
  rewrite (createSignal_eval _ _ _ _ _ _ _ Hk Hacq). by rewrite Hcr.
Qed.

End TreeFacts.

Section UpgradeFacts.
Context {Node : Type}.
Implicit Types (w : World Node) (a : Addr).

Lemma bind_ret_tt (c : M Node unit) w : (c ;;; ret tt) w = c w.
Proof. unfold bind, ret. by destruct (c w) as [[[]|e|] w']. Qed.

Lemma invoke_trace a (sc : SlotCell Node) (cb : Callback Node) o n w :
  slot_fn sc = Some cb ->
  trace (snd (invoke a sc o n w)) =
  trace w ++ [{| ev_sig := a; ev_slot := slot_addr sc; ev_cb := cb_id cb;
                 ev_old := o; ev_new := n |}].
Proof. unfold invoke. intros ->. by destruct (cb_body cb o n). Qed.

Lemma onChanged_at_eval (T : Trait Node) m p a o n w :
  getSignal m p = Some a -> t_equal T o n = Ok false ->
  onChanged_at T m p o n w = (call a o n ;;; ret true) w.
Proof. unfold onChanged_at. intros -> Heq. unfold bind at 1, lift. by rewrite Heq. Qed.

Lemma grown_unconnected (o : ModificationSignal Node) (cell : SlotCell Node) :
  unconnected o -> grown (impl_ o) cell = SingleImpl (Some cell).
Proof. by intros [-> | ->]. Qed.

End UpgradeFacts.

(** C2. At any path with at least one key where nothing is registered
    yet, the first registration stores its callback in Single storage and
    the second one moves both into a Multi list.  Both handles refer to the
    registry itself, the first one stays valid: cancelling it removes its
    slot and nothing else, and a dispatch afterwards (directly, or through a
    path-targeted write that changes the value) calls the second callback
    once and no other. *)
Theorem C2_first_handle_survives_upgrade {Node : Type}
    (p : Path.t) (t : ObservableTree Node) (w : World Node)
    (cb1 cb2 : Callback Node) :
  Path.keys p <> [] ->
  first_registration t w p ->
  exists (h1 h2 : Connection) (t' : ObservableTree Node)
         (w1 w2 w3 : World Node) (a : Addr),
    registerAt p (Some cb1) t w = (Ok h1, t', w1)
    /\ registerAt p (Some cb2) t' w1 = (Ok h2, t', w2)
    /\ getSignal (signalMgr_ t') p = Some a
    /\ signalRef_ h1 = Some a /\ signalRef_ h2 = Some a
    /\ slotID_ h1 <> SlotIDInvalid /\ slotID_ h2 <> SlotIDInvalid
    /\ slotID_ h1 <> slotID_ h2
    /\ (exists c, heap w1 !! a = Some c
                  /\ impl_ (object c) = Some (SingleImpl (slot_of (slotID_ h1, cb1))))
    /\ (exists c, heap w2 !! a = Some c
                  /\ impl_ (object c) =
                     Some (MultiImpl [slot_of (slotID_ h1, cb1);
                                      slot_of (slotID_ h2, cb2)]))
    /\ Connection_disconnect h1 w2 = (Ok tt, w3)
    /\ (exists c, heap w3 !! a = Some c
                  /\ impl_ (object c) = Some (MultiImpl [slot_of (slotID_ h2, cb2)]))
    /\ trace w3 = trace w
    /\ (forall o n,
           call a o n w3 =
           invoke a {| slot_addr := slotID_ h2; slot_fn := Some cb2 |} o n w3
           /\ trace (snd (call a o n w3)) =
              trace w3 ++ [{| ev_sig := a; ev_slot := slotID_ h2;
                              ev_cb := cb_id cb2; ev_old := o; ev_new := n |}])
    /\ (forall (T : Trait Node) o n,
           t_get_path T (root_ t') p = Ok o -> t_equal T o n = Ok false ->
           trace (snd (set_at T p n t' w3)) =
           trace w3 ++ [{| ev_sig := a; ev_slot := slotID_ h2;
                           ev_cb := cb_id cb2; ev_old := o; ev_new := n |}]).
Proof.
  intros Hne Hfirst.
  destruct (Path.keys p) as [|k rest] eqn:Hk; [done|]. clear Hne.
  unfold first_registration in Hfirst. rewrite (getSignal_keys _ _ _ _ Hk) in Hfirst.
  destruct (acquire_ready _ _ Hfirst) as (a & c1 & wa & Hacq & Ha & Hc1 & Hu & Hs & Ht).
  destruct (registerAt_eval p k rest t w a wa c1 cb1 Hk Hacq Ha Hc1)
    as (w1 & Hr1 & Hw1 & Hs1 & Ht1).
  rewrite (grown_unconnected _ _ Hu) in Hw1.
  set (t' := {| signalMgr_ := graft k rest (signalMgr_ t) a; root_ := root_ t |}) in *.
  destruct (acquire_live _ _ _ Hw1) as (wb & Hacq2 & Hb & Hsb & Htb).
  assert (Hacq2' : acquire (signalAt k rest (signalMgr_ t')) w1 = (Ok a, wb)).
  { simpl. by rewrite signalAt_graft. }
  destruct (registerAt_eval p k rest t' w1 a wb _ cb2 Hk Hacq2' Hb)
    as (w2 & Hr2 & Hw2 & Hs2 & Ht2); [simpl; lia|].
  simpl in Hr2, Hw2. rewrite graft_graft in Hr2. fold t' in Hr2.
  set (h1 := {| signalRef_ := Some a; slotID_ := S (slots_allocated wa) |}) in *.
  set (h2 := {| signalRef_ := Some a; slotID_ := S (slots_allocated wb) |}) in *.
  assert (Hid : slotID_ h1 <> slotID_ h2) by (simpl; lia).
  assert (Hd : Connection_disconnect h1 w2 =
               (Ok tt, with_object a
                         {| use_count := use_count c1 - 1;
                            object := {| impl_ := None |} |}
                         {| impl_ := Some (MultiImpl [slot_of (slotID_ h2, cb2)]) |}
                         w2)).
  { rewrite (Connection_disconnect_eval h1 a _ w2 eq_refl ltac:(done) Hw2).
    erewrite disconnect_eval; [|exact Hw2|reflexivity]. simpl.
    unfold MultiImpl_disconnect. simpl. rewrite Nat.eqb_refl. simpl.
    unfold with_object. simpl. do 4 f_equal. lia. }
  eexists h1, h2, t', w1, w2, _, a.
  split; [exact Hr1|]. split; [exact Hr2|].
  split; [by rewrite (getSignal_keys _ _ _ _ Hk); apply signalAt_graft|].
  split; [done|]. split; [done|]. split; [done|]. split; [done|].
  split; [exact Hid|].
  split; [by eexists|]. split; [by eexists|].
  split; [exact Hd|].
  split; [eexists; split; [apply heap_with_object|done]|].
  split; [simpl; congruence|].
  assert (Hcall : forall o n,
             call a o n (with_object a
                           {| use_count := use_count c1 - 1;
                              object := {| impl_ := None |} |}
                           {| impl_ := Some (MultiImpl [slot_of (slotID_ h2, cb2)]) |}
                           w2) =
             invoke a {| slot_addr := slotID_ h2; slot_fn := Some cb2 |} o n
                    (with_object a
                           {| use_count := use_count c1 - 1;
                              object := {| impl_ := None |} |}
                           {| impl_ := Some (MultiImpl [slot_of (slotID_ h2, cb2)]) |}
                           w2)).
  { intros o n. erewrite call_eval; [|apply heap_with_object]. simpl.
    apply bind_ret_tt. }
  split.
  - intros o n. rewrite Hcall. split; [done|]. by apply invoke_trace.
  - intros T o n Hget Heq. unfold set_at. rewrite Hget.
    erewrite onChanged_at_eval; [| |exact Heq];
      [|simpl; rewrite (getSignal_keys _ _ _ _ Hk); apply signalAt_graft].
    unfold bind at 1. rewrite Hcall.
    pose proof (invoke_trace a {| slot_addr := slotID_ h2; slot_fn := Some cb2 |}
                  cb2 o n
                  (with_object a
                     {| use_count := use_count c1 - 1; object := {| impl_ := None |} |}
                     {| impl_ := Some (MultiImpl [slot_of (slotID_ h2, cb2)]) |}
                     w2) eq_refl) as Htr.
    destruct (invoke _ _ _ _ _) as [[[]|e|] w4]; simpl in *.
    + by destruct (t_set T (root_ t) p n).
    + done.
    + done.
Qed.

(** C2, for the path [a/b] of an empty tree. *)
Lemma C2_first_handle_survives_upgrade_witness :
  let p := Scenario.path "a/b" in
  Path.keys p <> []
  /\ first_registration Scenario.tree0 Scenario.world0 p
  /\ exists (h1 h2 : Connection) t' w1 w2 w3 (a : Addr),
       registerAt p (Scenario.quiet 1) Scenario.tree0 Scenario.world0 = (Ok h1, t', w1)
       /\ registerAt p (Scenario.quiet 2) t' w1 = (Ok h2, t', w2)
       /\ Connection_disconnect h1 w2 = (Ok tt, w3)
       /\ trace (snd (call a Json11.JNull (Json11.JNumber 1) w3)) =
          [{| ev_sig := a; ev_slot := slotID_ h2; ev_cb := 2;
              ev_old := Json11.JNull; ev_new := Json11.JNumber 1 |}].
Proof.
  intros p.
  assert (H1 : Path.keys p <> []) by (vm_compute; discriminate).
  assert (H2 : first_registration Scenario.tree0 Scenario.world0 p)
    by (vm_compute; exact I).
  split; [exact H1|]. split; [exact H2|].
  destruct (C2_first_handle_survives_upgrade p Scenario.tree0 Scenario.world0
              (Scenario.quiet_cb 1) (Scenario.quiet_cb 2) H1 H2)
    as (h1 & h2 & t' & w1 & w2 & w3 & a & Hr1 & Hr2 & _ & _ & _ & _ & _ & _
        & _ & _ & Hd & _ & Ht & Hcall & _).
  exists h1, h2, t', w1, w2, w3, a.
  split; [exact Hr1|]. split; [exact Hr2|]. split; [exact Hd|].
  rewrite (proj2 (Hcall _ _)), Ht. reflexivity.
Defined.

(* ------------------------------------------------------------------ *)
(** ** ObservableTree: replacing the document *)

(** C3. [set(newData)] runs the recursive diff of the old root against
    the new value first: the world and the registry tree it leaves are
    those of that diff.  The root is assigned only when the diff returns;
    when the diff throws (an exception of the adapter or of a callback),
    [set] throws the same exception and the stored document is still the
    old root. *)
Theorem C3_set_diffs_before_swap {Node : Type} (T : Trait Node)
    (newData : Node) (t : ObservableTree Node) (w : World Node) :
  let d := onChanged T (signalMgr_ t) (root_ t) newData w in
  let s := set T newData t w in
  snd s = snd d
  /\ signalMgr_ (snd (fst s)) = snd (fst d)
  /\ (forall b, fst (fst d) = Ok b ->
                fst (fst s) = Ok tt /\ get (snd (fst s)) = newData)
  /\ (forall e, fst (fst d) = Throws e ->
                fst (fst s) = Throws e /\ get (snd (fst s)) = root_ t).
Proof.
  unfold set.
  destruct (onChanged T (signalMgr_ t) (root_ t) newData w) as [[[b|e|] mgr'] w'];
    simpl; repeat split; try done; congruence.
Qed.

(** C3, where the exception comes from a callback and where it comes
    from the adapter's [equal]. *)
Lemma C3_set_diffs_before_swap_witness :
  let s1 := Scenario.watched (Scenario.failing 5) Json11.JNull in
  let s2 := Scenario.watched (Scenario.quiet 5) Json11.JNull in
  let d := Scenario.doc_abcd 1 in
  (fst (fst (onChanged Json11.Json11Trait (signalMgr_ (fst s1)) Json11.JNull d (snd s1)))
   = Throws (UserExn 5)
   /\ fst (fst (set Json11.Json11Trait d (fst s1) (snd s1))) = Throws (UserExn 5)
   /\ get (snd (fst (set Json11.Json11Trait d (fst s1) (snd s1)))) = Json11.JNull)
  /\ (fst (fst (onChanged Scenario.ThrowingEqual (signalMgr_ (fst s2)) Json11.JNull d (snd s2)))
      = Throws (UserExn 7)
      /\ fst (fst (set Scenario.ThrowingEqual d (fst s2) (snd s2))) = Throws (UserExn 7)
      /\ get (snd (fst (set Scenario.ThrowingEqual d (fst s2) (snd s2)))) = Json11.JNull).
Proof.
  intros s1 s2 d.
  assert (H1 : fst (fst (onChanged Json11.Json11Trait (signalMgr_ (fst s1))
                           (root_ (fst s1)) d (snd s1))) = Throws (UserExn 5))
    by (vm_compute; reflexivity).
  assert (H2 : fst (fst (onChanged Scenario.ThrowingEqual (signalMgr_ (fst s2))
                           (root_ (fst s2)) d (snd s2))) = Throws (UserExn 7))
    by (vm_compute; reflexivity).
  split.
  - split; [exact H1|].
    exact (proj2 (proj2 (proj2 (C3_set_diffs_before_swap Json11.Json11Trait d
                                  (fst s1) (snd s1)))) _ H1).
  - split; [exact H2|].
    exact (proj2 (proj2 (proj2 (C3_set_diffs_before_swap Scenario.ThrowingEqual d
                                  (fst s2) (snd s2)))) _ H2).
Defined.

(* ------------------------------------------------------------------ *)
(** ** Registration at an empty path *)

(** C8 as stated fails: for an empty path [modificationSignal] returns a
    null pointer, and the registration idiom dereferences it; no handle,
    inert or not, comes back. *)
Lemma C8_empty_path_registration_returns_no_handle :
  registerAt (Scenario.path "") (Scenario.quiet 1) Scenario.tree0 Scenario.world0
  = (Undefined, Scenario.tree0, Scenario.world0).
Proof. vm_compute. reflexivity. Qed.

(** C8, amended.  Asking for the registry of an empty path is an inert
    no-op and not a failure: it returns the null registry pointer, and the
    registry tree, the document and every registry are left as they were,
    so no node is created and no callback stored that a later replace
    could invoke. *)
Theorem C8_modificationSignal_empty_path {Node : Type}
    (p : Path.t) (t : ObservableTree Node) (w : World Node) :
  Path.keys p = [] ->
  modificationSignal p t w = (Ok None, t, w)
  /\ getSignal (signalMgr_ t) p = None.
Proof.
  intros Hp. unfold modificationSignal, createSignal, getSignal. rewrite Hp.
  simpl. by destruct t.
Qed.

Lemma C8_modificationSignal_empty_path_witness :
  Path.keys (Scenario.path "") = []
  /\ modificationSignal (Scenario.path "") Scenario.tree0 Scenario.world0
     = (Ok None, Scenario.tree0, Scenario.world0).
Proof.
  assert (H : Path.keys (Scenario.path "") = []) by reflexivity.
  split; [exact H|].
  exact (proj1 (C8_modificationSignal_empty_path (Scenario.path "")
                  Scenario.tree0 Scenario.world0 H)).
Defined.

(* ------------------------------------------------------------------ *)
(** ** The recursive diff and the heap *)

Section FrameFacts.
Context {Node : Type}.
Implicit Types (w : World Node) (a b : Addr) (m : SignalMgr) (es : SignalsMap).

Lemma sigAddrs_Mgr es : sigAddrs (Mgr es) = mapAddrs es.
Proof.
  unfold mapAddrs. induction es as [|[k [sp sub]] es IH]; [done|].
  simpl in *. by rewrite IH.
Qed.

Lemma mapAddrs_cons e es : mapAddrs (e :: es) = entryAddrs e ++ mapAddrs es.
Proof. done. Qed.

Lemma frame_ok_refl (l : list Addr) w : frame_ok l l w w.
Proof. split; [done|]. by intros. Qed.

Lemma frame_ok_same_heap (l : list Addr) w w' :
  heap w' = heap w -> frame_ok l l w w'.
Proof. intros H. split; [done|]. intros b _. by rewrite H. Qed.

(** Two consecutive phases working on disjoint parts of the tree. *)
Lemma frame_ok_app (l1 l1' l2 l2' : list Addr) w w1 w2 :
  NoDup (l1 ++ l2) ->
  frame_ok l1 l1' w w1 -> frame_ok l2 l2' w1 w2 ->
  frame_ok (l1 ++ l2) (l1' ++ l2') w w2.
Proof.
  intros (_ & Hdisj & _)%NoDup_app [Hs1 Hf1] [Hs2 Hf2].
  split; [by apply sublist_app|].
  intros b Hb. rewrite Hf2; [rewrite Hf1; [done|]|].
  - destruct Hb as [Hb|Hb].
    + apply elem_of_app in Hb as [Hb|Hb]; [by left|].
      right. intros Hb1. apply (Hdisj b Hb1). exact (elem_of_sublist _ _ _ Hb Hs2).
    + right. intros Hb1. apply Hb, elem_of_app. by left.
  - destruct Hb as [Hb|Hb].
    + apply elem_of_app in Hb as [Hb|Hb]; [|by left].
      right. apply Hdisj. exact (elem_of_sublist _ _ _ Hb Hs1).
    + right. intros Hb2. apply Hb, elem_of_app. by right.
Qed.

Lemma invoke_heap a (sc : SlotCell Node) o n w : heap (snd (invoke a sc o n w)) = heap w.
Proof.
  unfold invoke. destruct (slot_fn sc) as [cb|]; [|done].
  by destruct (cb_body cb o n).
Qed.

Lemma MultiImpl_onChanged_heap a (l : SlotListType Node) o n : forall w,
  heap (snd (MultiImpl_onChanged a l o n w)) = heap w.
Proof.
  induction l as [|[sc|] l IH]; intros w; simpl; [done| |done].
  unfold bind. pose proof (invoke_heap a sc o n w) as H.
  destruct (invoke a sc o n w) as [[[]|e|] w1]; simpl in *; [|done..].
  by rewrite IH.
Qed.

Lemma call_heap a o n w : heap (snd (call a o n w)) = heap w.
Proof.
  unfold call, bind, deref. destruct (heap w !! a) as [c|]; [|done].
  destruct (impl_ (object c)) as [[s|l]|]; simpl; [| |done].
  - destruct s as [sc|]; [|done]. simpl.
    destruct (slot_fn sc) eqn:Hf; [|done]. apply invoke_heap.
  - apply MultiImpl_onChanged_heap.
Qed.

Lemma notify_heap sp o n w : heap (snd (notify sp o n w)) = heap w.
Proof. destruct sp; [apply call_heap|done]. Qed.

Lemma connected_world a w : snd (connected a w) = w.
Proof. unfold connected, bind, deref. by destruct (heap w !! a). Qed.

Lemma shared_release_heap_ne a b w :
  a <> b -> heap (snd (shared_release a w)) !! b = heap w !! b.
Proof.
  intros Hne. unfold shared_release. destruct (heap w !! a) as [c|]; [|done].
  simpl. destruct (use_count c <=? 1).
  - by rewrite lookup_delete_ne.
  - by rewrite lookup_insert_ne.
Qed.

Variable T : Trait Node.

Lemma compareAndNotify_frame sp o n hc w :
  frame_ok (ownAddr sp)
           (ownAddr (kept sp (fst (compareAndNotify T sp o n hc w))))
           w (snd (compareAndNotify T sp o n hc w)).
Proof.
  unfold compareAndNotify, bind, lift.
  destruct (t_equal T o n) as [eq| |]; simpl; [|apply frame_ok_refl..].
  destruct sp as [a|]; [|apply frame_ok_refl].
  pose proof (connected_world a w) as Hw.
  destruct (connected a w) as [[[|]| |] w0]; simpl in Hw; subst w0;
    [| |apply frame_ok_refl..].
  - assert (Hh : heap (snd ((if negb eq then call a o n else ret tt) w)) = heap w).
    { destruct (negb eq); [apply call_heap|done]. }
    destruct ((if negb eq then call a o n else ret tt) w) as [[[]|e|] w1];
      simpl in *; by apply frame_ok_same_heap.
  - pose proof (shared_release_heap_ne a) as Hr.
    destruct (shared_release a w) as [[[]|e|] w1] eqn:Hrel; simpl in *.
    + split; [apply sublist_nil_l|]. intros b [Hb|Hb]; [by apply elem_of_nil in Hb|].
      specialize (Hr b w). rewrite Hrel in Hr. apply Hr.
      intros ->. apply Hb. by apply list_elem_of_singleton.
    + unfold shared_release in Hrel. by destruct (heap w !! a).
    + unfold shared_release in Hrel. destruct (heap w !! a); [done|].
      injection Hrel as <-. apply frame_ok_refl.
Qed.

Lemma visitEntry_frame rec o n hc (e : KeyType * MySignalAndChild) w :
  (forall s, child_ (snd e) = Some s -> rec_frame rec s) ->
  NoDup (entryAddrs e) ->
  frame_ok (entryAddrs e)
           (entryAddrs (snd (fst (visitEntry T rec o n hc e w))))
           w (snd (visitEntry T rec o n hc e w)).
Proof.
  intros Hrec Hnd. destruct e as [key [sp sub]]. unfold visitEntry.
  destruct (t_get T o key) as [ov| |]; [|apply frame_ok_refl..].
  destruct (t_get T n key) as [nv| |]; [|apply frame_ok_refl..].
  assert (Hsub : frame_ok (childAddrs sub)
                          (childAddrs (snd (fst (recurse rec sub ov nv w))))
                          w (snd (recurse rec sub ov nv w))).
  { unfold recurse. destruct sub as [s|]; [|apply frame_ok_refl].
    unfold entryAddrs in Hnd. simpl in Hnd. apply NoDup_app in Hnd as (Hs & _ & _).
    specialize (Hrec s eq_refl ov nv w Hs).
    by destruct (rec s ov nv w) as [[r s'] w']. }
  unfold entryAddrs in *. simpl in Hnd.
  destruct (recurse rec sub ov nv w) as [[[[|]| |] sub'] w1]; simpl in Hsub.
  - pose proof (notify_heap sp ov nv w1) as Hh.
    destruct (notify sp ov nv w1) as [[[]| |] w2]; simpl in *;
      (apply (frame_ok_app _ _ _ _ w w1 w2); [done|done|by apply frame_ok_same_heap]).
  - pose proof (compareAndNotify_frame sp ov nv hc w1) as Hc.
    destruct (compareAndNotify T sp ov nv hc w1) as [[[hc' sp']| |] w2]; simpl in *;
      by apply (frame_ok_app _ _ _ _ w w1 w2).
  - simpl. apply (frame_ok_app _ _ _ _ w w1 w1); [done|done|apply frame_ok_refl].
  - simpl. apply (frame_ok_app _ _ _ _ w w1 w1); [done|done|apply frame_ok_refl].
Qed.

Lemma loopEntries_frame rec o n es :
  Forall (fun e => forall s, child_ (snd e) = Some s -> rec_frame rec s) es ->
  forall hc w, NoDup (mapAddrs es) ->
    frame_ok (mapAddrs es)
             (mapAddrs (snd (fst (loopEntries T rec o n es hc w))))
             w (snd (loopEntries T rec o n es hc w)).
Proof.
  induction 1 as [|e es He _ IH]; intros hc w Hnd; simpl; [apply frame_ok_refl|].
  rewrite mapAddrs_cons in Hnd.
  pose proof Hnd as (Hnd1 & _ & Hnd2)%NoDup_app.
  pose proof (visitEntry_frame rec o n hc e w He Hnd1) as Hv.
  destruct (visitEntry T rec o n hc e w) as [[[hc'| |] e'] w1]; simpl in Hv.
  - specialize (IH hc' w1 Hnd2).
    destruct (loopEntries T rec o n es hc' w1) as [[r rest'] w2]; simpl in *.
    rewrite !mapAddrs_cons. by apply (frame_ok_app _ _ _ _ w w1 w2).
  - simpl. rewrite !mapAddrs_cons.
    apply (frame_ok_app _ _ _ _ w w1 w1); [done|done|apply frame_ok_refl].
  - simpl. rewrite !mapAddrs_cons.
    apply (frame_ok_app _ _ _ _ w w1 w1); [done|done|apply frame_ok_refl].
Qed.

Lemma onChanged_Mgr es o n w :
  onChanged T (Mgr es) o n w =
  match notBothEmpty T o n with
  | Ok true =>
      let '(r, es', w') := loopEntries T (onChanged T) o n es false w in
      (r, Mgr es', w')
  | Ok false => (Ok false, Mgr es, w)
  | Throws x => (Throws x, Mgr es, w)
  | Undefined => (Undefined, Mgr es, w)
  end.
Proof. done. Qed.

Lemma loopEntries_cons rec o n e es hc w :
  loopEntries T rec o n (e :: es) hc w =
  match visitEntry T rec o n hc e w with
  | (Ok hc', e', w1) =>
      let '(r, rest', w2) := loopEntries T rec o n es hc' w1 in (r, e' :: rest', w2)
  | (Throws x, e', w1) => (Throws x, e' :: es, w1)
  | (Undefined, e', w1) => (Undefined, e' :: es, w1)
  end.
Proof. done. Qed.

Lemma onChanged_frame m : rec_frame (onChanged T) m.
Proof.
  induction m as [es IH] using SignalMgr_nested_ind. intros o n w Hnd.
  rewrite onChanged_Mgr.
  destruct (notBothEmpty T o n) as [[|]| |]; [|apply frame_ok_refl..].
  rewrite sigAddrs_Mgr in *.
  pose proof (loopEntries_frame (onChanged T) o n es IH false w Hnd) as H.
  destruct (loopEntries T (onChanged T) o n es false w) as [[r es'] w'].
  cbn [fst snd] in *. by rewrite sigAddrs_Mgr.
Qed.

(** The diff keeps the tree well-formed, whatever its outcome. *)
Lemma frame_ok_wf m m' w w' :
  wf m w -> frame_ok (sigAddrs m) (sigAddrs m') w w' -> wf m' w'.
Proof.
  intros [Hnd Hlive] [Hsub Hf]. split; [by eapply sublist_NoDup|].
  apply Forall_forall. intros a Ha. rewrite Hf by by left.
  rewrite Forall_forall in Hlive. apply Hlive. by eapply elem_of_sublist.
Qed.

Lemma onChanged_wf m o n w :
  wf m w -> wf (snd (fst (onChanged T m o n w))) (snd (onChanged T m o n w)).
Proof.
  intros Hwf. eapply frame_ok_wf; [done|]. apply onChanged_frame. apply Hwf.
Qed.

End FrameFacts.

(* ------------------------------------------------------------------ *)
(** ** Diffs that stay silent *)

Section QuietFacts.
Context {Node : Type} (T : Trait Node) (R : Node -> Node -> Prop).
Implicit Types (w : World Node) (a b : Addr) (m : SignalMgr) (es : SignalsMap).
Hypothesis HR : quiet_relation T R.

Lemma compareAndNotify_quiet sp ov nv hc w :
  R ov nv -> Forall (live w) (ownAddr sp) ->
  exists sp' w', compareAndNotify T sp ov nv hc w = (Ok (hc, sp'), w')
                 /\ trace w' = trace w.
Proof using HR.
  intros Hr Hlive. unfold compareAndNotify.
  rewrite (qr_equal T R HR _ _ Hr). unfold bind at 1, lift. simpl.
  rewrite orb_false_r.
  destruct sp as [a|]; [|by eexists _, _].
  apply Forall_singleton in Hlive as [c Hc].
  rewrite (bind_Ok _ _ _ _ _ (connected_eval _ _ _ Hc)).
  destruct (match impl_ (object c) with Some i => ImplIF_connected i | None => false end).
  - by eexists _, _.
  - unfold bind, shared_release, ret. rewrite Hc. by eexists _, _.
Qed.

Lemma visitEntry_quiet rec o n hc (e : KeyType * MySignalAndChild) ov nv w :
  (forall s, child_ (snd e) = Some s -> rec_quiet R rec s /\ rec_frame rec s) ->
  t_get T o (fst e) = Ok ov -> t_get T n (fst e) = Ok nv -> R ov nv ->
  NoDup (entryAddrs e) -> Forall (live w) (entryAddrs e) ->
  exists e' w', visitEntry T rec o n hc e w = (Ok hc, e', w') /\ trace w' = trace w.
Proof using HR.
  intros Hrec Ho Hn Hr Hnd Hlive. destruct e as [key [sp sub]]. simpl in *.
  unfold visitEntry. rewrite Ho, Hn.
  unfold entryAddrs in *. simpl in *.
  apply NoDup_app in Hnd as (Hnd1 & Hdisj & Hnd2).
  apply Forall_app in Hlive as [Hl1 Hl2].
  assert (Hsub : exists sub' w1,
             recurse rec sub ov nv w = (Ok false, sub', w1) /\ trace w1 = trace w
             /\ Forall (live w1) (ownAddr sp)).
  { unfold recurse. destruct sub as [s|]; [|by eexists _, _].
    destruct (Hrec s eq_refl) as [Hq Hf].
    destruct (Hq ov nv w Hr (conj Hnd1 Hl1)) as (s' & w1 & Hrun & Htr).
    specialize (Hf ov nv w Hnd1). rewrite Hrun in Hf. simpl in Hf.
    exists (Some s'), w1. rewrite Hrun. split; [done|]. split; [done|].
    apply Forall_forall. intros a Ha. unfold live.
    rewrite (proj2 Hf a); [by apply (proj1 (Forall_forall _ _) Hl2)|].
    right. intros Hin. by apply (Hdisj a Hin). }
  destruct Hsub as (sub' & w1 & -> & Htr1 & Hl).
  destruct (compareAndNotify_quiet sp ov nv hc w1 Hr Hl) as (sp' & w2 & -> & Htr2).
  eexists _, _. split; [reflexivity|]. congruence.
Qed.

Lemma loopEntries_quiet rec o n es :
  Forall (fun e => forall s, child_ (snd e) = Some s ->
                             rec_quiet R rec s /\ rec_frame rec s) es ->
  R o n ->
  forall hc w, NoDup (mapAddrs es) -> Forall (live w) (mapAddrs es) ->
    exists es' w', loopEntries T rec o n es hc w = (Ok hc, es', w')
                   /\ trace w' = trace w.
Proof using HR.
  intros Hes Hr. induction Hes as [|e es He _ IH]; intros hc w Hnd Hlive; simpl.
  { by eexists _, _. }
  rewrite mapAddrs_cons in Hnd, Hlive.
  apply NoDup_app in Hnd as (Hnd1 & Hdisj & Hnd2).
  apply Forall_app in Hlive as [Hl1 Hl2].
  destruct (qr_get T R HR o n (fst e) Hr) as (ov & nv & Ho & Hn & Hr').
  destruct (visitEntry_quiet rec o n hc e ov nv w He Ho Hn Hr' Hnd1 Hl1)
    as (e' & w1 & Hv & Htr1).
  pose proof (visitEntry_frame T rec o n hc e w (fun s Hs => proj2 (He s Hs)) Hnd1)
    as [_ Hf].
  rewrite Hv in *. simpl in Hf.
  destruct (IH hc w1 Hnd2) as (es' & w2 & -> & Htr2).
  { apply Forall_forall. intros a Ha. unfold live. rewrite Hf.
    - by apply (proj1 (Forall_forall _ _) Hl2).
    - right. intros Hin. by apply (Hdisj a Hin). }
  eexists _, _. split; [reflexivity|]. congruence.
Qed.

Lemma onChanged_quiet m : rec_quiet R (onChanged T) m.
Proof using HR.
  induction m as [es IH] using SignalMgr_nested_ind. intros o n w Hr [Hnd Hlive].
  rewrite onChanged_Mgr. rewrite sigAddrs_Mgr in *.
  destruct (qr_empty T R HR o n Hr) as [[|] ->]; [|by eexists _, _].
  destruct (loopEntries_quiet (onChanged T) o n es) with (hc := false) (w := w)
    as (es' & w' & -> & Htr); [|done..|by eexists _, _].
  eapply Forall_impl; [exact IH|]. intros e He s Hs.
  split; [by apply He|apply onChanged_frame].
Qed.

Lemma naiveWalk_Mgr es o n w :
  naiveWalk T (Mgr es) o n w =
  let '(r, es', w') := loopEntries T (naiveWalk T) o n es false w in (r, Mgr es', w').
Proof. done. Qed.

Lemma naiveWalk_frame m : rec_frame (naiveWalk T) m.
Proof.
  induction m as [es IH] using SignalMgr_nested_ind. intros o n w Hnd.
  rewrite naiveWalk_Mgr. rewrite sigAddrs_Mgr in *.
  pose proof (loopEntries_frame T (naiveWalk T) o n es IH false w Hnd) as H.
  destruct (loopEntries T (naiveWalk T) o n es false w) as [[r es'] w'].
  cbn [fst snd] in *. by rewrite sigAddrs_Mgr.
Qed.

Lemma naiveWalk_quiet m : rec_quiet R (naiveWalk T) m.
Proof using HR.
  induction m as [es IH] using SignalMgr_nested_ind. intros o n w Hr [Hnd Hlive].
  rewrite naiveWalk_Mgr. rewrite sigAddrs_Mgr in *.
  destruct (loopEntries_quiet (naiveWalk T) o n es) with (hc := false) (w := w)
    as (es' & w' & -> & Htr); [|done..|by eexists _, _].
  eapply Forall_impl; [exact IH|]. intros e He s Hs.
  split; [by apply He|apply naiveWalk_frame].
Qed.

End QuietFacts.

(* ------------------------------------------------------------------ *)
(** ** The adapter of the test is lawful *)

Section Json11Facts.
Import Json11.

Lemma Json_nested_ind (P : Json -> Prop) :
  P JNull -> (forall n, P (JNumber n)) -> (forall s, P (JString s)) ->
  (forall items, Forall (fun kv => P (snd kv)) items -> P (JObject items)) ->
  forall j, P j.
Proof.
  intros HN HZ HS HO. fix IH 1. intros [|n|s|items]; [done..|].
  apply HO. induction items as [|[k v] items IHi]; constructor; [apply IH|done].
Qed.

Lemma eqb_refl j : eqb j j = true.
Proof.
  induction j as [|n|s|items IH] using Json_nested_ind; simpl.
  - done.
  - apply Z.eqb_refl.
  - apply String.eqb_refl.
  - induction IH as [|[k v] items Hv _ IHi]; [done|].
    simpl in *. by rewrite String.eqb_refl, Hv, IHi.
Qed.

Lemma eqb_eq a : forall b, eqb a b = true -> a = b.
Proof.
  induction a as [|n|s|items IH] using Json_nested_ind; intros [|n'|s'|items']; simpl;
    try done.
  - by intros ->%Z.eqb_eq.
  - by intros ->%String.eqb_eq.
  - intros H. f_equal. revert items' H.
    induction IH as [|[k v] items Hv _ IHi]; intros [|[k' v'] items']; try done.
    intros [[->%String.eqb_eq H2]%andb_prop H3]%andb_prop.
    simpl in Hv. by rewrite (Hv _ H2), (IHi _ H3).
Qed.

Lemma is_null_inv j : is_null j = true -> j = JNull.
Proof. by destruct j. Qed.

(** [equal] is a congruence for [get]. *)
Lemma Json11_congruence a b k :
  t_equal Json11Trait a b = Ok true ->
  exists a' b', t_get Json11Trait a k = Ok a' /\ t_get Json11Trait b k = Ok b'
                /\ t_equal Json11Trait a' b' = Ok true.
Proof.
  simpl. intros [= H]. apply eqb_eq in H as <-.
  eexists _, _. split; [done|]. split; [done|]. by rewrite eqb_refl.
Qed.

Lemma Json11_empty_total a : exists b, t_empty Json11Trait a = Ok b.
Proof. by eexists. Qed.

(** Empty values have only empty, mutually equal sub-values. *)
Lemma Json11_empty_sub a k :
  t_empty Json11Trait a = Ok true ->
  exists a', t_get Json11Trait a k = Ok a' /\ t_empty Json11Trait a' = Ok true.
Proof. simpl. intros [= ->%is_null_inv]. by eexists. Qed.

Lemma Json11_empty_equal a b :
  t_empty Json11Trait a = Ok true -> t_empty Json11Trait b = Ok true ->
  t_equal Json11Trait a b = Ok true.
Proof. simpl. by intros [= ->%is_null_inv] [= ->%is_null_inv]. Qed.

End Json11Facts.

(* ------------------------------------------------------------------ *)
(** ** Replacing the document by an equal one *)

(** C5. Let the adapter's [equal] be a congruence for its [get] (equal
    documents have equal sub-values at every key) and let [empty] return.
    If [set x] has returned, a following [set x'] with [x'] equal to [x]
    returns too and fires no callback at any registered path: the trace
    is left as it was. *)
Theorem C5_set_equal_value_fires_nothing {Node : Type} (T : Trait Node)
    (t t1 : ObservableTree Node) (w w1 : World Node) (x x' : Node) :
  (forall a b k, t_equal T a b = Ok true ->
     exists a' b', t_get T a k = Ok a' /\ t_get T b k = Ok b'
                   /\ t_equal T a' b' = Ok true) ->
  (forall a, exists b, t_empty T a = Ok b) ->
  wf (signalMgr_ t) w ->
  set T x t w = (Ok tt, t1, w1) ->
  t_equal T x x' = Ok true ->
  exists t2 w2,
    set T x' t1 w1 = (Ok tt, t2, w2) /\ trace w2 = trace w1 /\ get t2 = x'.
Proof.
  intros Hcong Hempty Hwf Hset Heq.
  assert (HR : quiet_relation T (fun a b => t_equal T a b = Ok true)).
  { split; [exact Hcong|done|]. intros a b _. unfold notBothEmpty.
    destruct (Hempty a) as [[|] ->]; [|by eexists].
    destruct (Hempty b) as [? ->]. by eexists. }
  pose proof (onChanged_wf T (signalMgr_ t) (root_ t) x w Hwf) as Hwf1.
  unfold set in Hset.
  destruct (onChanged T (signalMgr_ t) (root_ t) x w) as [[[b|e|] mgr1] w1'];
    [|done..].
  injection Hset as <- <-. simpl in Hwf1.
  destruct (onChanged_quiet T _ HR mgr1 x x' w1' Heq Hwf1) as (m2 & w2 & Hrun & Htr).
  unfold set. simpl. rewrite Hrun. by eexists _, _.
Qed.

(** C5, on the scenario of the specification: the same document is set
    twice. *)
Lemma C5_set_equal_value_fires_nothing_witness :
  let s0 := Scenario.register "a/d" (Scenario.quiet 3)
              (Scenario.register "a/b/c" (Scenario.quiet 2)
                 (Scenario.register "a/b" (Scenario.quiet 1)
                    (Scenario.tree0, Scenario.world0))) in
  let s1 := Scenario.replace (Scenario.doc_abcd 1) s0 in
  exists t2 w2,
    set Json11.Json11Trait (Scenario.doc_abcd 1) (fst s1) (snd s1) = (Ok tt, t2, w2)
    /\ trace w2 = trace (snd s1) /\ get t2 = Scenario.doc_abcd 1.
Proof.
  intros s0 s1.
  apply (C5_set_equal_value_fires_nothing Json11.Json11Trait
           (fst s0) (fst s1) (snd s0) (snd s1)
           (Scenario.doc_abcd 1) (Scenario.doc_abcd 1)).
  - apply Json11_congruence.
  - apply Json11_empty_total.
  - apply (bool_decide_unpack _ (dec:=wf_dec _ _)). vm_compute. exact I.
  - vm_compute. reflexivity.
  - vm_compute. reflexivity.
Defined.

(* ------------------------------------------------------------------ *)
(** ** Two empty roots *)

(** C6. When the old and the new node are both adapter-empty, the diff
    returns at once: no child is visited, no callback fires, no registry
    is touched, and it reports no change.  A naive full deep walk, which
    extracts and compares the values at every registered path, has the
    same outcome (it reports no change and leaves the trace as it was),
    provided the adapter guarantees that empty values have only empty
    sub-values and that empty values are equal to one another. *)
Theorem C6_empty_roots_short_circuit {Node : Type} (T : Trait Node)
    (m : SignalMgr) (o n : Node) (w : World Node) :
  t_empty T o = Ok true -> t_empty T n = Ok true ->
  onChanged T m o n w = (Ok false, m, w)
  /\ ((forall a k, t_empty T a = Ok true ->
         exists a', t_get T a k = Ok a' /\ t_empty T a' = Ok true) ->
      (forall a b, t_empty T a = Ok true -> t_empty T b = Ok true ->
                   t_equal T a b = Ok true) ->
      wf m w ->
      exists m' w',
        naiveWalk T m o n w = (Ok false, m', w') /\ trace w' = trace w).
Proof.
  intros Ho Hn. split.
  { destruct m as [es]. rewrite onChanged_Mgr. unfold notBothEmpty. by rewrite Ho, Hn. }
  intros Hsub Heq Hwf.
  assert (HR : quiet_relation T (fun a b => t_empty T a = Ok true /\ t_empty T b = Ok true)).
  { split.
    - intros a b k [Ha Hb].
      destruct (Hsub a k Ha) as (a' & Hga & Ha'). destruct (Hsub b k Hb) as (b' & Hgb & Hb').
      by exists a', b'.
    - intros a b [Ha Hb]. by apply Heq.
    - intros a b [Ha Hb]. unfold notBothEmpty. rewrite Ha, Hb. by eexists. }
  exact (naiveWalk_quiet T _ HR m o n w (conj Ho Hn) Hwf).
Qed.

(** C6, with registrations three levels deep and two null roots. *)
Lemma C6_empty_roots_short_circuit_witness :
  let s0 := Scenario.register "a/d" (Scenario.quiet 3)
              (Scenario.register "a/b/c" (Scenario.quiet 2)
                 (Scenario.register "a/b" (Scenario.quiet 1)
                    (Scenario.tree0, Scenario.world0))) in
  onChanged Json11.Json11Trait (signalMgr_ (fst s0)) Json11.JNull Json11.JNull (snd s0)
  = (Ok false, signalMgr_ (fst s0), snd s0)
  /\ exists m' w',
       naiveWalk Json11.Json11Trait (signalMgr_ (fst s0)) Json11.JNull Json11.JNull (snd s0)
       = (Ok false, m', w')
       /\ trace w' = trace (snd s0).
Proof.
  intros s0.
  destruct (C6_empty_roots_short_circuit Json11.Json11Trait (signalMgr_ (fst s0))
              Json11.JNull Json11.JNull (snd s0) eq_refl eq_refl) as [H1 H2].
  split; [exact H1|].
  apply (H2 Json11_empty_sub Json11_empty_equal).
  apply (bool_decide_unpack _ (dec:=wf_dec _ _)). vm_compute. exact I.
Defined.

(* ------------------------------------------------------------------ *)
(** ** The order of callbacks in one diff *)

Section OrderFacts.
Context {Node : Type}.
Implicit Types (w : World Node) (a b : Addr) (m : SignalMgr) (es : SignalsMap)
         (evs : list (Event Node)).

Lemma fires_before_no_a b a evs :
  Forall (fun ev => ev_sig ev <> a) evs -> fires_before b a evs.
Proof.
  intros H l1 e1 l2 -> Ha. apply Forall_app in H as [_ H].
  by apply Forall_cons in H as [H _].
Qed.

Lemma fires_before_no_b b a evs :
  Forall (fun ev => ev_sig ev <> b) evs -> fires_before b a evs.
Proof.
  intros H l1 e1 l2 -> _. apply Forall_app in H as [_ H].
  by apply Forall_cons in H as [_ H].
Qed.

Lemma fires_before_app b a (x y : list (Event Node)) :
  fires_before b a x -> fires_before b a y ->
  Forall (fun ev => ev_sig ev <> a) x \/ Forall (fun ev => ev_sig ev <> b) y ->
  fires_before b a (x ++ y).
Proof.
  intros Hx Hy Hxy l1 e1 l2 Heq Ha.
  apply app_eq_inv in Heq as [(k & -> & Hk)|(k & -> & Hk)].
  - destruct k as [|e k]; simpl in Hk.
    + subst y. rewrite app_nil_r in *. by eapply (Hy []).
    + injection Hk as <- ->. apply Forall_app. split.
      * by eapply Hx.
      * destruct Hxy as [Hxa|Hyb]; [|done].
        apply Forall_app in Hxa as [_ Hxa]. by apply Forall_cons in Hxa as [Hxa _].
  - by eapply Hy.
Qed.

Lemma fired_by_not (l : list Addr) a evs :
  fired_by l evs -> a ∉ l -> Forall (fun ev => ev_sig ev <> a) evs.
Proof.
  intros H Ha. eapply Forall_impl; [exact H|]. intros ev Hev Heq.
  simpl in Hev. by rewrite Heq in Hev.
Qed.

Lemma fired_by_mono (l l' : list Addr) evs :
  fired_by l evs -> (forall x, x ∈ l -> x ∈ l') -> fired_by l' evs.
Proof. intros H Hl. eapply Forall_impl; [exact H|]. intros ev. apply Hl. Qed.

(** *** What a dispatch adds to the trace *)

Lemma invoke_events a (sc : SlotCell Node) o n w :
  exists evs, trace (snd (invoke a sc o n w)) = trace w ++ evs
    /\ Forall (fun ev => ev_sig ev = a /\ ev_old ev = o /\ ev_new ev = n) evs.
Proof.
  unfold invoke. destruct (slot_fn sc) as [cb|]; [|exists []; by rewrite app_nil_r].
  eexists [_]. split; [by destruct (cb_body cb o n)|]. by repeat constructor.
Qed.

Lemma MultiImpl_onChanged_events a (l : SlotListType Node) o n : forall w,
  exists evs, trace (snd (MultiImpl_onChanged a l o n w)) = trace w ++ evs
    /\ Forall (fun ev => ev_sig ev = a /\ ev_old ev = o /\ ev_new ev = n) evs.
Proof.
  induction l as [|[sc|] l IH]; intros w; simpl.
  - exists []. by rewrite app_nil_r.
  - unfold bind. destruct (invoke_events a sc o n w) as (e1 & Ht1 & He1).
    destruct (invoke a sc o n w) as [[[]|e|] w1]; simpl in *;
      [|by exists e1..].
    destruct (IH w1) as (e2 & Ht2 & He2). exists (e1 ++ e2).
    split; [by rewrite Ht2, Ht1, app_assoc|by apply Forall_app].
  - exists []. by rewrite app_nil_r.
Qed.

Lemma call_events a o n w :
  exists evs, trace (snd (call a o n w)) = trace w ++ evs
    /\ Forall (fun ev => ev_sig ev = a /\ ev_old ev = o /\ ev_new ev = n) evs.
Proof.
  unfold call, bind, deref.
  destruct (heap w !! a) as [c|]; [|exists []; by rewrite app_nil_r].
  destruct (impl_ (object c)) as [[s|l]|]; simpl.
  - destruct s as [sc|]; [|exists []; by rewrite app_nil_r]. simpl.
    destruct (slot_fn sc) eqn:Hf; [apply invoke_events|exists []; by rewrite app_nil_r].
  - apply MultiImpl_onChanged_events.
  - exists []. by rewrite app_nil_r.
Qed.

Lemma notify_events sp o n w :
  exists evs, trace (snd (notify sp o n w)) = trace w ++ evs
    /\ Forall (fun ev => ev_sig ev ∈ ownAddr sp /\ ev_old ev = o /\ ev_new ev = n) evs.
Proof.
  destruct sp as [a|]; simpl; [|exists []; by rewrite app_nil_r].
  destruct (call_events a o n w) as (evs & Ht & He). exists evs. split; [done|].
  eapply Forall_impl; [exact He|]. intros ev (-> & ? & ?).
  split; [by apply list_elem_of_singleton|done].
Qed.

Lemma shared_release_trace a w : trace (snd (shared_release a w)) = trace w.
Proof. unfold shared_release. by destruct (heap w !! a). Qed.

Variable T : Trait Node.

Lemma compareAndNotify_events sp o n hc w :
  exists evs, trace (snd (compareAndNotify T sp o n hc w)) = trace w ++ evs
    /\ Forall (fun ev => ev_sig ev ∈ ownAddr sp /\ ev_old ev = o /\ ev_new ev = n) evs.
Proof.
  unfold compareAndNotify, bind, lift.
  destruct (t_equal T o n) as [eq| |]; simpl; [|exists []; by rewrite app_nil_r..].
  destruct sp as [a|]; [|exists []; by rewrite app_nil_r].
  pose proof (connected_world a w) as Hw.
  destruct (connected a w) as [[[|]| |] w0]; simpl in Hw; subst w0;
    [| |exists []; by rewrite app_nil_r..].
  - assert (Hn : exists evs,
               trace (snd ((if negb eq then call a o n else ret tt) w)) = trace w ++ evs
               /\ Forall (fun ev => ev_sig ev ∈ ownAddr (Some a)
                                    /\ ev_old ev = o /\ ev_new ev = n) evs).
    { destruct (negb eq); [apply (notify_events (Some a))|].
      exists []. by rewrite app_nil_r. }
    destruct Hn as (evs & Ht & He). exists evs.
    by destruct ((if negb eq then call a o n else ret tt) w) as [[[]|e|] w1].
  - pose proof (shared_release_trace a w) as Ht. exists [].
    rewrite app_nil_r. by destruct (shared_release a w) as [[[]|e|] w1].
Qed.

(** *** Paths and addresses *)

Lemma map_find_addrs k es v :
  map_find k es = Some v ->
  forall x, x ∈ childAddrs (child_ v) ++ ownAddr (signalPtr_ v) -> x ∈ mapAddrs es.
Proof.
  induction es as [|[k' v'] es IH]; [done|]. simpl.
  rewrite mapAddrs_cons. intros Hf x Hx. apply elem_of_app.
  destruct (String.eqb k k'); [|right; by apply IH].
  injection Hf as ->. by left.
Qed.

Lemma signalAt_Mgr k rest es :
  signalAt k rest (Mgr es) =
  match map_find k es with
  | Some v => entryAt v rest
  | None => None
  end.
Proof.
  unfold signalAt, entryAt.
  destruct rest as [|k' rest']; simpl; destruct (map_find k es) as [v|]; try done.
  by destruct (child_ v).
Qed.

Lemma signalAt_elem rest : forall k m a, signalAt k rest m = Some a -> a ∈ sigAddrs m.
Proof.
  induction rest as [|k' rest IH]; intros k [es] a; rewrite signalAt_Mgr, sigAddrs_Mgr;
    destruct (map_find k es) as [v|] eqn:Hf; try done; simpl; intros Ha.
  - apply (map_find_addrs _ _ _ Hf). apply elem_of_app. right.
    rewrite Ha. by apply list_elem_of_singleton.
  - destruct (child_ v) as [c|] eqn:Hc; [|done].
    apply (map_find_addrs _ _ _ Hf). apply elem_of_app. left.
    rewrite Hc. simpl. by eapply IH.
Qed.

Lemma entryAt_elem v rest a :
  entryAt v rest = Some a -> a ∈ childAddrs (child_ v) ++ ownAddr (signalPtr_ v).
Proof.
  destruct rest as [|k' rest']; simpl; intros Ha; apply elem_of_app.
  - right. rewrite Ha. by apply list_elem_of_singleton.
  - destruct (child_ v) as [c|]; [|done]. left. by eapply signalAt_elem.
Qed.

(** *** One map entry, then the loop, then the tree *)

Lemma visitEntry_events rec o n hc (e : KeyType * MySignalAndChild) w :
  (forall s, child_ (snd e) = Some s -> rec_events rec s) ->
  NoDup (entryAddrs e) ->
  exists evs, trace (snd (visitEntry T rec o n hc e w)) = trace w ++ evs
              /\ fired_by (entryAddrs e) evs /\ bottom_up_entry (snd e) evs.
Proof.
  intros Hrec Hnd. destruct e as [key [sp sub]]. unfold visitEntry, entryAddrs in *.
  simpl in Hnd. simpl fst. simpl snd.
  assert (Hnil : exists evs : list (Event Node),
             trace w = trace w ++ evs
             /\ fired_by (childAddrs sub ++ ownAddr sp) evs
             /\ bottom_up_entry (SigNChild sp sub) evs).
  { exists []. rewrite app_nil_r. split; [done|]. split; [constructor|].
    intros rest q a b _ _ _. by apply fires_before_no_a. }
  destruct (t_get T o key) as [ov| |]; [|done..].
  destruct (t_get T n key) as [nv| |]; [|done..].
  apply NoDup_app in Hnd as (Hnd1 & Hdisj & Hnd2).
  assert (Hsub : exists e_sub,
             trace (snd (recurse rec sub ov nv w)) = trace w ++ e_sub
             /\ fired_by (childAddrs sub) e_sub
             /\ (forall c, sub = Some c -> bottom_up c e_sub)).
  { unfold recurse. destruct sub as [s|].
    - destruct (Hrec s eq_refl ov nv w Hnd1) as (evs & Ht & Hf & Hb).
      exists evs. destruct (rec s ov nv w) as [[r s'] w']. simpl in *.
      split; [done|]. split; [done|]. by intros c [= <-].
    - exists []. rewrite app_nil_r. split; [done|]. split; [constructor|done]. }
  destruct Hsub as (e_sub & Ht1 & Hf1 & Hb1).
  assert (Hown : forall w1 w2 e_own,
             trace w1 = trace w ++ e_sub ->
             trace w2 = trace w1 ++ e_own ->
             Forall (fun ev => ev_sig ev ∈ ownAddr sp /\ ev_old ev = ov /\ ev_new ev = nv)
                    e_own ->
             exists evs, trace w2 = trace w ++ evs
                         /\ fired_by (childAddrs sub ++ ownAddr sp) evs
                         /\ bottom_up_entry (SigNChild sp sub) evs).
  { intros w1 w2 e_own Hw1 Hw2 Hown. exists (e_sub ++ e_own).
    assert (Hf2 : fired_by (ownAddr sp) e_own).
    { eapply Forall_impl; [exact Hown|]. by intros ev [? _]. }
    split; [by rewrite Hw2, Hw1, app_assoc|]. split.
    { apply Forall_app. split.
      - eapply fired_by_mono; [exact Hf1|]. intros x Hx. apply elem_of_app. by left.
      - eapply fired_by_mono; [exact Hf2|]. intros x Hx. apply elem_of_app. by right. }
    intros rest q a b Hq Ha Hb.
    destruct rest as [|k' rest']; simpl in Ha, Hb.
    - (* the node's own registry against a registry below it *)
      destruct q as [|k' q']; [done|]. simpl in Hb.
      destruct sub as [c|]; [|done]. simpl in *.
      assert (Hbc : b ∈ sigAddrs c) by by eapply signalAt_elem.
      assert (Hac : a ∉ sigAddrs c).
      { intros Hin. apply (Hdisj a Hin). rewrite Ha. by apply list_elem_of_singleton. }
      apply fires_before_app.
      + apply fires_before_no_a. by eapply fired_by_not.
      + apply fires_before_no_b. eapply fired_by_not; [exact Hf2|].
        rewrite Ha. intros ->%list_elem_of_singleton. done.
      + left. by eapply fired_by_not.
    - (* both registries below the node *)
      destruct sub as [c|]; [|done]. simpl in *.
      assert (Hbc : b ∈ sigAddrs c) by by eapply signalAt_elem.
      apply fires_before_app.
      + by eapply (Hb1 c eq_refl).
      + apply fires_before_no_b. eapply fired_by_not; [exact Hf2|].
        intros Hin. by apply (Hdisj b Hbc).
      + right. eapply fired_by_not; [exact Hf2|].
        intros Hin. by apply (Hdisj b Hbc). }
  destruct (recurse rec sub ov nv w) as [[[[|]| |] sub'] w1]; simpl in Ht1.
  - destruct (notify_events sp ov nv w1) as (e_own & Ht2 & He2).
    destruct (notify sp ov nv w1) as [[[]| |] w2]; simpl in *; by eapply Hown.
  - destruct (compareAndNotify_events sp ov nv hc w1) as (e_own & Ht2 & He2).
    destruct (compareAndNotify T sp ov nv hc w1) as [[[hc' sp']| |] w2]; simpl in *;
      by eapply Hown.
  - simpl. apply (Hown w1 w1 []); [done|by rewrite app_nil_r|constructor].
  - simpl. apply (Hown w1 w1 []); [done|by rewrite app_nil_r|constructor].
Qed.

Lemma loopEntries_events rec o n es :
  Forall (fun e => forall s, child_ (snd e) = Some s -> rec_events rec s) es ->
  forall hc w, NoDup (mapAddrs es) ->
    exists evs, trace (snd (loopEntries T rec o n es hc w)) = trace w ++ evs
                /\ fired_by (mapAddrs es) evs /\ bottom_up (Mgr es) evs.
Proof.
  induction 1 as [|e es He _ IH]; intros hc w Hnd.
  { exists []. simpl. rewrite app_nil_r. split; [done|]. split; [constructor|].
    intros k rest q a b _ _ _. by apply fires_before_no_a. }
  rewrite mapAddrs_cons in *.
  apply NoDup_app in Hnd as (Hnd1 & Hdisj & Hnd2).
  destruct (visitEntry_events rec o n hc e w He Hnd1) as (e1 & Ht1 & Hf1 & Hb1).
  assert (Hboth : forall w2 e2,
             trace w2 = trace (snd (visitEntry T rec o n hc e w)) ++ e2 ->
             fired_by (mapAddrs es) e2 -> bottom_up (Mgr es) e2 ->
             exists evs, trace w2 = trace w ++ evs
                         /\ fired_by (entryAddrs e ++ mapAddrs es) evs
                         /\ bottom_up (Mgr (e :: es)) evs).
  { intros w2 e2 Hw2 Hf2 Hb2. exists (e1 ++ e2).
    split; [by rewrite Hw2, Ht1, app_assoc|]. split.
    { apply Forall_app. split.
      - eapply fired_by_mono; [exact Hf1|]. intros x Hx. apply elem_of_app. by left.
      - eapply fired_by_mono; [exact Hf2|]. intros x Hx. apply elem_of_app. by right. }
    intros k rest q a b Hq. rewrite !signalAt_Mgr. destruct e as [k0 v0]. simpl.
    destruct (String.eqb k k0).
    - intros Ha Hb.
      assert (Hae : a ∈ entryAddrs (k0, v0)) by by eapply entryAt_elem.
      apply fires_before_app.
      + by eapply Hb1.
      + apply fires_before_no_a. eapply fired_by_not; [exact Hf2|]. by apply Hdisj.
      + right. eapply fired_by_not; [exact Hf2|]. apply Hdisj. by eapply entryAt_elem.
    - intros Ha Hb. specialize (Hb2 k rest q a b Hq). rewrite !signalAt_Mgr in Hb2.
      specialize (Hb2 Ha Hb).
      assert (Har : a ∈ mapAddrs es).
      { destruct (map_find k es) as [v|] eqn:Hf; [|done].
        eapply map_find_addrs; [exact Hf|]. by eapply entryAt_elem. }
      apply fires_before_app; [|done|].
      + apply fires_before_no_a. eapply fired_by_not; [exact Hf1|].
        intros Hin. by apply (Hdisj a Hin).
      + left. eapply fired_by_not; [exact Hf1|]. intros Hin. by apply (Hdisj a Hin). }
  simpl.
  destruct (visitEntry T rec o n hc e w) as [[[hc'| |] e'] w1]; simpl in *.
  - destruct (IH hc' w1 Hnd2) as (e2 & Ht2 & Hf2 & Hb2).
    destruct (loopEntries T rec o n es hc' w1) as [[r rest'] w2]; simpl in *.
    by eapply Hboth.
  - apply (Hboth w1 []); [by rewrite app_nil_r|constructor|].
    intros k rest q a b _ _ _. by apply fires_before_no_a.
  - apply (Hboth w1 []); [by rewrite app_nil_r|constructor|].
    intros k rest q a b _ _ _. by apply fires_before_no_a.
Qed.

Lemma onChanged_events m : rec_events (onChanged T) m.
Proof.
  induction m as [es IH] using SignalMgr_nested_ind. intros o n w Hnd.
  rewrite onChanged_Mgr. rewrite sigAddrs_Mgr in *.
  assert (Hnil : exists evs : list (Event Node),
             trace w = trace w ++ evs /\ fired_by (mapAddrs es) evs
             /\ bottom_up (Mgr es) evs).
  { exists []. rewrite app_nil_r. split; [done|]. split; [constructor|].
    intros k rest q a b _ _ _. by apply fires_before_no_a. }
  destruct (notBothEmpty T o n) as [[|]| |]; [|done..].
  destruct (loopEntries_events (onChanged T) o n es IH false w Hnd) as (evs & Ht & Hf).
  exists evs. by destruct (loopEntries T (onChanged T) o n es false w) as [[r es'] w'].
Qed.

End OrderFacts.

(* ------------------------------------------------------------------ *)
(** ** Registered paths whose value did not change *)

Section SilentFacts.
Context {Node : Type} (T : Trait Node).
Implicit Types (w : World Node) (a b : Addr) (m : SignalMgr) (es : SignalsMap).
Hypothesis equal_self : forall x, t_equal T x x <> Ok false.

Lemma compareAndNotify_same sp v hc w :
  trace (snd (compareAndNotify T sp v v hc w)) = trace w
  /\ forall hc' sp', fst (compareAndNotify T sp v v hc w) = Ok (hc', sp') -> hc' = hc.
Proof using equal_self.
  unfold compareAndNotify, bind, lift. pose proof (equal_self v) as Hv.
  destruct (t_equal T v v) as [[|]| |]; simpl; [|done..].
  rewrite orb_false_r.
  destruct sp as [a|]; [|split; [done|by intros ?? [= <-]]].
  pose proof (connected_world a w) as Hw.
  destruct (connected a w) as [[[|]| |] w0]; simpl in Hw; subst w0; simpl; [| |done..].
  - split; [done|by intros ?? [= <-]].
  - pose proof (shared_release_trace a w) as Ht.
    destruct (shared_release a w) as [[[]|e|] w1]; simpl in *; [|done..].
    split; [done|by intros ?? [= <-]].
Qed.

Lemma visitEntry_same rec v hc (e : KeyType * MySignalAndChild) w :
  (forall s, child_ (snd e) = Some s -> rec_silent rec s) ->
  trace (snd (visitEntry T rec v v hc e w)) = trace w
  /\ forall hc', fst (fst (visitEntry T rec v v hc e w)) = Ok hc' -> hc' = hc.
Proof using equal_self.
  intros Hrec. destruct e as [key [sp sub]]. unfold visitEntry.
  destruct (t_get T v key) as [cv| |]; [|done..].
  assert (Hsub : trace (snd (recurse rec sub cv cv w)) = trace w
                 /\ fst (fst (recurse rec sub cv cv w)) <> Ok true).
  { unfold recurse. destruct sub as [s|]; [|done].
    destruct (Hrec s eq_refl cv w) as [Ht Hr].
    by destruct (rec s cv cv w) as [[r s'] w']. }
  destruct Hsub as [Ht1 Hr1].
  destruct (recurse rec sub cv cv w) as [[[[|]| |] sub'] w1]; simpl in *; [done| |done..].
  destruct (compareAndNotify_same sp cv hc w1) as [Ht2 Hr2].
  destruct (compareAndNotify T sp cv cv hc w1) as [[[hc' sp']| |] w2]; simpl in *.
  - split; [congruence|]. intros ? [= <-]. by eapply Hr2.
  - split; [congruence|done].
  - split; [congruence|done].
Qed.

Lemma loopEntries_same rec v es :
  Forall (fun e => forall s, child_ (snd e) = Some s -> rec_silent rec s) es ->
  forall hc w,
    trace (snd (loopEntries T rec v v es hc w)) = trace w
    /\ forall hc', fst (fst (loopEntries T rec v v es hc w)) = Ok hc' -> hc' = hc.
Proof using equal_self.
  induction 1 as [|e es He _ IH]; intros hc w; simpl.
  { split; [done|by intros ? [= <-]]. }
  destruct (visitEntry_same rec v hc e w He) as [Ht1 Hr1].
  destruct (visitEntry T rec v v hc e w) as [[[hc1| |] e'] w1]; simpl in *; [|done..].
  rewrite (Hr1 hc1 eq_refl) in *.
  destruct (IH hc w1) as [Ht2 Hr2].
  destruct (loopEntries T rec v v es hc w1) as [[r rest'] w2]; simpl in *.
  split; [congruence|done].
Qed.

Lemma onChanged_same m : rec_silent (onChanged T) m.
Proof using equal_self.
  induction m as [es IH] using SignalMgr_nested_ind. intros v w.
  rewrite onChanged_Mgr.
  destruct (notBothEmpty T v v) as [[|]| |]; [|done..].
  destruct (loopEntries_same (onChanged T) v es IH false w) as [Ht Hr].
  destruct (loopEntries T (onChanged T) v v es false w) as [[r es'] w']; simpl in *.
  split; [done|]. intros ->. by specialize (Hr true eq_refl).
Qed.

(** The events of one entry, when the path of [b] does not go through
    it, or goes through it with an unchanged extracted value. *)
Lemma visitEntry_unchanged_silent rec o n hc (e : KeyType * MySignalAndChild) w b :
  (forall s, child_ (snd e) = Some s ->
             rec_events rec s /\ rec_silent rec s /\ rec_unchanged_silent T rec s) ->
  NoDup (entryAddrs e) ->
  (b ∉ entryAddrs e \/
   exists rest v, entryAt (snd e) rest = Some b
                  /\ extract T o (fst e :: rest) = Ok v
                  /\ extract T n (fst e :: rest) = Ok v) ->
  exists evs, trace (snd (visitEntry T rec o n hc e w)) = trace w ++ evs
              /\ Forall (fun ev => ev_sig ev <> b) evs.
Proof using equal_self.
  intros Hrec Hnd [Hb|(rest & v & Hat & Ho & Hn)].
  { destruct (visitEntry_events T rec o n hc e w (fun s Hs => proj1 (Hrec s Hs)) Hnd)
      as (evs & Ht & Hf & _).
    exists evs. split; [done|]. by eapply fired_by_not. }
  destruct e as [key [sp sub]]. simpl in *. unfold visitEntry.
  destruct (t_get T o key) as [ov| |]; [|done..].
  destruct (t_get T n key) as [nv| |]; [|done..].
  unfold entryAddrs in Hnd. simpl in Hnd.
  apply NoDup_app in Hnd as (Hnd1 & Hdisj & Hnd2).
  destruct rest as [|k' rest']; simpl in Hat.
  - (* [b] is this node's registry, and its value is unchanged *)
    injection Ho as ->. injection Hn as ->.
    assert (Hsub : trace (snd (recurse rec sub v v w)) = trace w
                   /\ fst (fst (recurse rec sub v v w)) <> Ok true).
    { unfold recurse. destruct sub as [s|]; [|done].
      destruct (proj1 (proj2 (Hrec s eq_refl)) v w) as [Ht Hr].
      by destruct (rec s v v w) as [[r s'] w']. }
    destruct Hsub as [Ht1 Hr1]. exists []. rewrite app_nil_r. split; [|constructor].
    destruct (recurse rec sub v v w) as [[[[|]| |] sub'] w1]; simpl in *; [done| |done..].
    destruct (compareAndNotify_same sp v hc w1) as [Ht2 _].
    destruct (compareAndNotify T sp v v hc w1) as [[[hc' sp']| |] w2]; simpl in *;
      congruence.
  - (* [b] lies below this node *)
    destruct sub as [c|]; [|done]. simpl in *.
    assert (Hbc : b ∈ sigAddrs c) by by eapply signalAt_elem.
    destruct (proj2 (proj2 (Hrec c eq_refl)) ov nv w k' rest' b v Hnd1 Hat Ho Hn)
      as (e_sub & Ht1 & Hf1).
    assert (Hown : forall w2 e_own,
               trace w2 = trace (snd (rec c ov nv w)) ++ e_own ->
               Forall (fun ev => ev_sig ev ∈ ownAddr sp /\ ev_old ev = ov /\ ev_new ev = nv)
                      e_own ->
               exists evs, trace w2 = trace w ++ evs
                           /\ Forall (fun ev => ev_sig ev <> b) evs).
    { intros w2 e_own Hw2 He. exists (e_sub ++ e_own).
      split; [by rewrite Hw2, Ht1, app_assoc|]. apply Forall_app. split; [done|].
      eapply Forall_impl; [exact He|]. intros ev [Hin _] Heq. simpl in Hin.
      rewrite Heq in Hin. by apply (Hdisj b Hbc). }
    destruct (rec c ov nv w) as [[[[|]| |] c'] w1]; simpl in *.
    + destruct (notify_events sp ov nv w1) as (e_own & Ht2 & He2).
      destruct (notify sp ov nv w1) as [[[]| |] w2]; simpl in *; by eapply Hown.
    + destruct (compareAndNotify_events T sp ov nv hc w1) as (e_own & Ht2 & He2).
      destruct (compareAndNotify T sp ov nv hc w1) as [[[hc' sp']| |] w2]; simpl in *;
        by eapply Hown.
    + apply (Hown w1 []); [by rewrite app_nil_r|constructor].
    + apply (Hown w1 []); [by rewrite app_nil_r|constructor].
Qed.

Lemma loopEntries_unchanged_silent rec o n es :
  Forall (fun e => forall s, child_ (snd e) = Some s ->
            rec_events rec s /\ rec_silent rec s /\ rec_unchanged_silent T rec s) es ->
  forall hc w k rest b v,
    NoDup (mapAddrs es) ->
    signalAt k rest (Mgr es) = Some b ->
    extract T o (k :: rest) = Ok v -> extract T n (k :: rest) = Ok v ->
    exists evs, trace (snd (loopEntries T rec o n es hc w)) = trace w ++ evs
                /\ Forall (fun ev => ev_sig ev <> b) evs.
Proof using equal_self.
  induction 1 as [|e es He Hes IH]; intros hc w k rest b v Hnd Hat Ho Hn.
  { by rewrite signalAt_Mgr in Hat. }
  rewrite mapAddrs_cons in Hnd.
  apply NoDup_app in Hnd as (Hnd1 & Hdisj & Hnd2).
  rewrite signalAt_Mgr in Hat. destruct e as [k0 v0]. simpl in Hat.
  destruct (String.eqb k k0) eqn:Hk.
  - (* the path goes through this entry; the later ones do not hold [b] *)
    apply String.eqb_eq in Hk as ->.
    assert (Hbe : b ∈ entryAddrs (k0, v0)) by by eapply entryAt_elem.
    destruct (visitEntry_unchanged_silent rec o n hc (k0, v0) w b He Hnd1)
      as (e1 & Ht1 & Hf1); [right; by exists rest, v|].
    rewrite loopEntries_cons.
    destruct (visitEntry T rec o n hc (k0, v0) w) as [[[hc'| |] e'] w1];
      cbn [fst snd] in *; [|by exists e1..].
    destruct (loopEntries_events T rec o n es
                (Forall_impl _ _ _ Hes (fun e H s Hs => proj1 (H s Hs))) hc' w1 Hnd2)
      as (e2 & Ht2 & Hf2 & _).
    destruct (loopEntries T rec o n es hc' w1) as [[r rest'] w2]; simpl in *.
    exists (e1 ++ e2). split; [by rewrite Ht2, Ht1, app_assoc|].
    apply Forall_app. split; [done|]. eapply fired_by_not; [exact Hf2|]. by apply Hdisj.
  - (* the path goes through a later entry *)
    assert (Hbr : b ∈ mapAddrs es).
    { destruct (map_find k es) as [v1|] eqn:Hf; [|done].
      eapply map_find_addrs; [exact Hf|]. by eapply entryAt_elem. }
    destruct (visitEntry_unchanged_silent rec o n hc (k0, v0) w b He Hnd1)
      as (e1 & Ht1 & Hf1).
    { left. intros Hin. by apply (Hdisj b Hin). }
    rewrite loopEntries_cons.
    destruct (visitEntry T rec o n hc (k0, v0) w) as [[[hc'| |] e'] w1];
      cbn [fst snd] in *; [|by exists e1..].
    destruct (IH hc' w1 k rest b v Hnd2) as (e2 & Ht2 & Hf2); [|done..|].
    { by rewrite signalAt_Mgr. }
    destruct (loopEntries T rec o n es hc' w1) as [[r rest'] w2]; simpl in *.
    exists (e1 ++ e2). split; [by rewrite Ht2, Ht1, app_assoc|]. by apply Forall_app.
Qed.

Lemma onChanged_unchanged_silent m : rec_unchanged_silent T (onChanged T) m.
Proof using equal_self.
  induction m as [es IH] using SignalMgr_nested_ind.
  intros o n w k rest b v Hnd Hat Ho Hn.
  rewrite onChanged_Mgr. rewrite sigAddrs_Mgr in Hnd.
  destruct (notBothEmpty T o n) as [[|]| |];
    [|exists []; rewrite app_nil_r; split; [done|constructor]..].
  destruct (loopEntries_unchanged_silent (onChanged T) o n es) with
    (hc := false) (w := w) (k := k) (rest := rest) (b := b) (v := v)
    as (evs & Ht & Hf); [|done..|].
  { eapply Forall_impl; [exact IH|]. intros e He s Hs.
    split; [apply onChanged_events|]. split; [apply onChanged_same|by apply He]. }
  exists evs. by destruct (loopEntries T (onChanged T) o n es false w) as [[r es'] w'].
Qed.

End SilentFacts.

(* ------------------------------------------------------------------ *)
(** ** The recursive diff of a replace *)

Section DiffFacts.
Context {Node : Type} (T : Trait Node).

Lemma set_world newData (t : ObservableTree Node) (w : World Node) :
  snd (set T newData t w) = snd (onChanged T (signalMgr_ t) (root_ t) newData w).
Proof.
  unfold set.
  by destruct (onChanged T (signalMgr_ t) (root_ t) newData w) as [[[b|e|] mgr'] w'].
Qed.

Lemma visitEntry_changed_below o n hc key sp sub w ov nv sub' w1 :
  t_get T o key = Ok ov -> t_get T n key = Ok nv ->
  onChanged T sub ov nv w = (Ok true, sub', w1) ->
  visitEntry T (onChanged T) o n hc (key, SigNChild sp (Some sub)) w =
  (match fst (notify sp ov nv w1) with
   | Ok _ => Ok true
   | Throws x => Throws x
   | Undefined => Undefined
   end, (key, SigNChild sp (Some sub')), snd (notify sp ov nv w1)).
Proof.
  intros Ho Hn Hsub. unfold visitEntry, recurse. rewrite Ho, Hn, Hsub.
  by destruct (notify sp ov nv w1) as [[[]|e|] w2].
Qed.

End DiffFacts.

(** C4. In the recursive diff run by [set]:
    - when the recursion into a child's subtree reports a change, the
      loop body fires the registry of that child at once with
      [(oldChild, newChild)]: its result is that dispatch and nothing
      else, whatever the adapter's [equal] would say of the two values;
    - a registry at a deeper path fires before the registry at any proper
      prefix of that path (the tree holding each registry once);
    - a registered path whose extracted value is the same in the old and
      in the new document (so also an unchanged sibling of a changed
      path) has no callback fired, as long as [equal] does not call a
      value different from itself. *)
Theorem C4_recursive_diff_bottom_up {Node : Type} (T : Trait Node) :
  (forall o n hc key sp sub w ov nv sub' w1,
      t_get T o key = Ok ov -> t_get T n key = Ok nv ->
      onChanged T sub ov nv w = (Ok true, sub', w1) ->
      visitEntry T (onChanged T) o n hc (key, SigNChild sp (Some sub)) w =
      (match fst (notify sp ov nv w1) with
       | Ok _ => Ok true
       | Throws x => Throws x
       | Undefined => Undefined
       end, (key, SigNChild sp (Some sub')), snd (notify sp ov nv w1))
      /\ exists evs,
           trace (snd (notify sp ov nv w1)) = trace w1 ++ evs
           /\ Forall (fun ev => ev_sig ev ∈ ownAddr sp
                                /\ ev_old ev = ov /\ ev_new ev = nv) evs)
  /\ (forall (t : ObservableTree Node) w newData,
         NoDup (sigAddrs (signalMgr_ t)) ->
         exists evs,
           trace (snd (set T newData t w)) = trace w ++ evs
           /\ forall p q a b,
                Path.keys p <> [] ->
                (exists ext, ext <> [] /\ Path.keys q = Path.keys p ++ ext) ->
                getSignal (signalMgr_ t) p = Some a ->
                getSignal (signalMgr_ t) q = Some b ->
                fires_before b a evs)
  /\ ((forall x, t_equal T x x <> Ok false) ->
      forall (t : ObservableTree Node) w newData p b v,
        NoDup (sigAddrs (signalMgr_ t)) ->
        getSignal (signalMgr_ t) p = Some b ->
        extract T (root_ t) (Path.keys p) = Ok v ->
        extract T newData (Path.keys p) = Ok v ->
        exists evs,
          trace (snd (set T newData t w)) = trace w ++ evs
          /\ Forall (fun ev => ev_sig ev <> b) evs).
Proof.
  split; [|split].
  - intros o n hc key sp sub w ov nv sub' w1 Ho Hn Hsub.
    split; [by apply visitEntry_changed_below|apply notify_events].
  - intros t w newData Hnd. rewrite set_world.
    destruct (onChanged_events T (signalMgr_ t) (root_ t) newData w Hnd)
      as (evs & Ht & _ & Hb).
    exists evs. split; [done|].
    intros p q a b Hp (ext & Hext & Hq) Ha Hbq.
    destruct (Path.keys p) as [|k rest] eqn:Hk; [done|].
    rewrite (getSignal_keys _ _ _ _ Hk) in Ha.
    rewrite (getSignal_keys _ _ k (rest ++ ext)) in Hbq by by rewrite Hq.
    by eapply Hb.
  - intros Heq t w newData p b v Hnd Hb Ho Hn. rewrite set_world.
    destruct (Path.keys p) as [|k rest] eqn:Hk.
    { unfold getSignal in Hb. by rewrite Hk in Hb. }
    rewrite (getSignal_keys _ _ _ _ Hk) in Hb.
    by eapply onChanged_unchanged_silent.
Qed.

(** C4, on the document [{"a":{"b":{"c":1},"d":7}}] with callbacks at
    [a/b], [a/b/c] and [a/d], when [c] becomes 2: the callback at [a/b/c]
    fires, then the one at [a/b], and the one at [a/d] does not.  With
    an [equal] that throws on objects the same two callbacks fire: the
    objects at [a/b] are never compared. *)
Lemma C4_recursive_diff_bottom_up_witness :
  let s := Scenario.three_paths in
  let d := Scenario.doc_abcd 2 in
  let b1 := Scenario.obj [("c"%string, Json11.JNumber 1)] in
  let b2 := Scenario.obj [("c"%string, Json11.JNumber 2)] in
  let fired :=
    [{| ev_sig := 2; ev_slot := 2; ev_cb := 2;
        ev_old := Json11.JNumber 1; ev_new := Json11.JNumber 2 |};
     {| ev_sig := 1; ev_slot := 1; ev_cb := 1; ev_old := b1; ev_new := b2 |}] in
  trace (snd (set Json11.Json11Trait d (fst s) (snd s))) = trace (snd s) ++ fired
  /\ trace (snd (set Scenario.LeafEqual d (fst s) (snd s))) = trace (snd s) ++ fired
  /\ fires_before 2 1 fired
  /\ Forall (fun ev => ev_sig ev <> 3) fired.
Proof.
  intros s d b1 b2 fired.
  destruct (C4_recursive_diff_bottom_up Json11.Json11Trait) as (_ & Hb & Hc).
  assert (Hnd : NoDup (sigAddrs (signalMgr_ (fst s)))).
  { apply (bool_decide_unpack _ (dec := NoDup_dec (A:=nat) _)). vm_compute. exact I. }
  assert (Ht : trace (snd (set Json11.Json11Trait d (fst s) (snd s)))
               = trace (snd s) ++ fired) by (vm_compute; reflexivity).
  split; [exact Ht|]. split; [vm_compute; reflexivity|].
  destruct (Hb (fst s) (snd s) d Hnd) as (evs & Hevs & Horder).
  rewrite Ht in Hevs. apply app_inv_head in Hevs as <-.
  split.
  - apply (Horder (Scenario.path "a/b") (Scenario.path "a/b/c")).
    + vm_compute. discriminate.
    + exists ["c"%string]. split; [discriminate|]. vm_compute. reflexivity.
    + vm_compute. reflexivity.
    + vm_compute. reflexivity.
  - destruct (Hc (fun x => ltac:(simpl; rewrite eqb_refl; discriminate))
                (fst s) (snd s) d (Scenario.path "a/d") 3 (Json11.JNumber 7) Hnd)
      as (evs & Hevs & Hsilent).
    + vm_compute. reflexivity.
    + vm_compute. reflexivity.
    + vm_compute. reflexivity.
    + rewrite Ht in Hevs. by apply app_inv_head in Hevs as <-.
Defined.

(* ------------------------------------------------------------------ *)
(** ** The path-targeted write *)

Section PathFacts2.
Context {Node : Type}.
Implicit Types (w : World Node) (a b : Addr) (m : SignalMgr) (es : SignalsMap).

Lemma app_self_nil {A} (l x : list A) : l = l ++ x -> x = [].
Proof. intros H. apply (app_inv_head l). by rewrite app_nil_r. Qed.

Lemma map_find_NoDup k es v :
  NoDup (mapAddrs es) -> map_find k es = Some v ->
  NoDup (childAddrs (child_ v) ++ ownAddr (signalPtr_ v)).
Proof.
  induction es as [|[k' v'] es IH]; [done|]. simpl. rewrite mapAddrs_cons.
  intros (Hnd1 & _ & Hnd2)%NoDup_app Hf.
  destruct (String.eqb k k'); [by injection Hf as <-|by apply IH].
Qed.

Lemma map_find_same_addr k k' es v v' a :
  NoDup (mapAddrs es) ->
  map_find k es = Some v -> map_find k' es = Some v' ->
  a ∈ childAddrs (child_ v) ++ ownAddr (signalPtr_ v) ->
  a ∈ childAddrs (child_ v') ++ ownAddr (signalPtr_ v') ->
  k = k'.
Proof.
  induction es as [|[k0 v0] es IH]; [done|]. simpl. rewrite mapAddrs_cons.
  intros (Hnd1 & Hdisj & Hnd2)%NoDup_app Hf Hf' Ha Ha'.
  destruct (String.eqb k k0) eqn:Hk, (String.eqb k' k0) eqn:Hk'.
  - apply String.eqb_eq in Hk, Hk'. congruence.
  - injection Hf as <-. exfalso. apply (Hdisj a Ha).
    by eapply map_find_addrs.
  - injection Hf' as <-. exfalso. apply (Hdisj a Ha').
    by eapply map_find_addrs.
  - by apply IH.
Qed.

(** With every registry held once, a registry is reached by one path. *)
Lemma signalAt_inj rest : forall k m k' rest' a,
  NoDup (sigAddrs m) ->
  signalAt k rest m = Some a -> signalAt k' rest' m = Some a ->
  k :: rest = k' :: rest'.
Proof.
  induction rest as [|k1 r1 IH]; intros k [es] k' rest' a Hnd;
    rewrite sigAddrs_Mgr in Hnd; rewrite !signalAt_Mgr;
    destruct (map_find k es) as [v|] eqn:Hf; try done;
    destruct (map_find k' es) as [v'|] eqn:Hf'; try done;
    intros Ha Ha';
    assert (k = k') as <- by
      (eapply (map_find_same_addr k k' es v v' a); eauto using entryAt_elem);
    rewrite Hf in Hf'; injection Hf' as <-;
    pose proof (map_find_NoDup _ _ _ Hnd Hf) as (Hnd1 & Hdisj & _)%NoDup_app.
  - destruct rest' as [|k2 r2]; [done|]. simpl in *. exfalso.
    destruct (child_ v) as [c|]; [|done]. simpl in *.
    apply (Hdisj a); [by eapply signalAt_elem|].
    rewrite Ha. by apply list_elem_of_singleton.
  - destruct rest' as [|k2 r2]; simpl in Ha, Ha';
      destruct (child_ v) as [c|]; try done; simpl in *.
    + exfalso. apply (Hdisj a); [by eapply signalAt_elem|].
      rewrite Ha'. by apply list_elem_of_singleton.
    + enough (k1 :: r1 = k2 :: r2) by congruence. by eapply (IH k1 c k2 r2 a).
Qed.

Lemma getSignal_inj m (p q : Path.t) a :
  NoDup (sigAddrs m) ->
  getSignal m p = Some a -> getSignal m q = Some a -> Path.keys p = Path.keys q.
Proof.
  intros Hnd Hp Hq. unfold getSignal in *.
  destruct (Path.keys p) as [|k rest]; [done|].
  destruct (Path.keys q) as [|k' rest']; [done|].
  by eapply signalAt_inj.
Qed.

Variable T : Trait Node.

Lemma onChanged_at_None m p o n w :
  getSignal m p = None -> onChanged_at T m p o n w = (Ok false, w).
Proof. unfold onChanged_at. by intros ->. Qed.

Lemma onChanged_at_equal m p a o n w :
  getSignal m p = Some a -> t_equal T o n = Ok true ->
  onChanged_at T m p o n w = (Ok false, w).
Proof. unfold onChanged_at. intros -> Heq. unfold bind, lift. by rewrite Heq. Qed.

Lemma set_at_world p newNode oldNode (t : ObservableTree Node) w :
  t_get_path T (root_ t) p = Ok oldNode ->
  snd (set_at T p newNode t w) =
  snd (onChanged_at T (signalMgr_ t) p oldNode newNode w)
  /\ signalMgr_ (snd (fst (set_at T p newNode t w))) = signalMgr_ t.
Proof.
  intros Hget. unfold set_at. rewrite Hget.
  destruct (onChanged_at T (signalMgr_ t) p oldNode newNode w) as [[r| |] w']; [|done..].
  by destruct (t_set T (root_ t) p newNode).
Qed.

Lemma onChanged_at_events m p o n w :
  exists evs,
    trace (snd (onChanged_at T m p o n w)) = trace w ++ evs
    /\ heap (snd (onChanged_at T m p o n w)) = heap w
    /\ forall a, getSignal m p = Some a ->
         Forall (fun ev => ev_sig ev = a /\ ev_old ev = o /\ ev_new ev = n) evs.
Proof.
  destruct (getSignal m p) as [a|] eqn:Hp.
  2:{ rewrite (onChanged_at_None _ _ _ _ _ Hp). exists []. by rewrite app_nil_r. }
  destruct (t_equal T o n) as [[|]| |] eqn:Heq.
  - rewrite (onChanged_at_equal _ _ _ _ _ _ Hp Heq). exists []. by rewrite app_nil_r.
  - rewrite (onChanged_at_eval T _ _ _ _ _ _ Hp Heq).
    destruct (call_events a o n w) as (evs & Ht & He).
    pose proof (call_heap a o n w) as Hh. exists evs.
    assert (Hs : snd ((call a o n ;;; ret true) w) = snd (call a o n w)).
    { unfold bind. by destruct (call a o n w) as [[[]|e|] w']. }
    rewrite Hs. split; [done|]. split; [done|]. by intros ? [= <-].
  - unfold onChanged_at, bind, lift. rewrite Hp, Heq. exists []. by rewrite app_nil_r.
  - unfold onChanged_at, bind, lift. rewrite Hp, Heq. exists []. by rewrite app_nil_r.
Qed.

End PathFacts2.

(** C7. [set(path, newNode)] reads the old sub-value with the adapter and
    then resolves the registry stored at exactly [path]:
    - no registry there (some key of the path has no node, or the node
      has no registry): no callback fires and no registry is touched, the
      adapter's [set] is still issued;
    - a registry there: it is dispatched with [(oldNode, newNode)] exactly
      when the adapter reports the two unequal, and left alone when it
      reports them equal;
    - in every case the calls added to the trace are calls of that one
      registry with these two values, so registries at proper descendants,
      at ancestors and at any other path do not fire; the registry tree
      and the heap of registries are unchanged. *)
Theorem C7_set_at_fires_exact_path {Node : Type} (T : Trait Node)
    (p : Path.t) (oldNode newNode : Node) (t : ObservableTree Node) (w : World Node) :
  t_get_path T (root_ t) p = Ok oldNode ->
  (getSignal (signalMgr_ t) p = None ->
     set_at T p newNode t w =
     (match t_set T (root_ t) p newNode with
      | Ok root' => (Ok tt, {| signalMgr_ := signalMgr_ t; root_ := root' |})
      | Throws x => (Throws x, t)
      | Undefined => (Undefined, t)
      end, w))
  /\ (forall a, getSignal (signalMgr_ t) p = Some a ->
        (t_equal T oldNode newNode = Ok true -> snd (set_at T p newNode t w) = w)
        /\ (t_equal T oldNode newNode = Ok false ->
            snd (set_at T p newNode t w) = snd (call a oldNode newNode w)))
  /\ signalMgr_ (snd (fst (set_at T p newNode t w))) = signalMgr_ t
  /\ heap (snd (set_at T p newNode t w)) = heap w
  /\ exists evs,
       trace (snd (set_at T p newNode t w)) = trace w ++ evs
       /\ (forall a, getSignal (signalMgr_ t) p = Some a ->
             Forall (fun ev => ev_sig ev = a /\ ev_old ev = oldNode
                               /\ ev_new ev = newNode) evs)
       /\ (getSignal (signalMgr_ t) p = None -> evs = [])
       /\ (NoDup (sigAddrs (signalMgr_ t)) ->
           forall q b, Path.keys q <> Path.keys p ->
                       getSignal (signalMgr_ t) q = Some b ->
                       Forall (fun ev => ev_sig ev <> b) evs).
Proof.
  intros Hget.
  destruct (set_at_world T p newNode oldNode t w Hget) as [Hw Hm].
  destruct (onChanged_at_events T (signalMgr_ t) p oldNode newNode w)
    as (evs & Ht & Hh & He).
  split; [|split; [|split; [|split]]].
  - intros Hnone. unfold set_at. rewrite Hget, (onChanged_at_None T _ _ _ _ _ Hnone).
    by destruct (t_set T (root_ t) p newNode).
  - intros a Ha. split; intros Heq; rewrite Hw.
    + by rewrite (onChanged_at_equal T _ _ _ _ _ _ Ha Heq).
    + rewrite (onChanged_at_eval T _ _ _ _ _ _ Ha Heq). unfold bind.
      by destruct (call a oldNode newNode w) as [[[]|e|] w'].
  - exact Hm.
  - by rewrite Hw.
  - exists evs. rewrite Hw. split; [exact Ht|]. split; [exact He|]. split.
    + intros Hnone. rewrite (onChanged_at_None T _ _ _ _ _ Hnone) in Ht.
      by apply app_self_nil in Ht.
    + intros Hnd q b Hq Hb.
      destruct (getSignal (signalMgr_ t) p) as [a|] eqn:Ha.
      * eapply Forall_impl; [exact (He a eq_refl)|]. intros ev (Hsig & _) Heq.
        apply Hq. apply (getSignal_inj (signalMgr_ t) q p a Hnd); congruence.
      * rewrite (onChanged_at_None T _ _ _ _ _ Ha) in Ht.
        apply app_self_nil in Ht as ->. constructor.
Qed.

(** C7, on the tree with callbacks at [a/b], [a/b/c] and [a/d]: a write
    at [a/b] fires the callback of [a/b] only; a write at [a/x], where
    nothing is registered, fires nothing. *)
Lemma C7_set_at_fires_exact_path_witness :
  let s := Scenario.three_paths in
  let b1 := Scenario.obj [("c"%string, Json11.JNumber 1)] in
  t_get_path Json11.Json11Trait (root_ (fst s)) (Scenario.path "a/b") = Ok b1
  /\ snd (set_at Json11.Json11Trait (Scenario.path "a/b") (Json11.JNumber 5) (fst s) (snd s))
     = snd (call 1 b1 (Json11.JNumber 5) (snd s))
  /\ trace (snd (set_at Json11.Json11Trait (Scenario.path "a/b") (Json11.JNumber 5)
                   (fst s) (snd s)))
     = trace (snd s) ++ [{| ev_sig := 1; ev_slot := 1; ev_cb := 1;
                            ev_old := b1; ev_new := Json11.JNumber 5 |}]
  /\ snd (set_at Json11.Json11Trait (Scenario.path "a/x") (Json11.JNumber 5) (fst s) (snd s))
     = snd s.
Proof.
  intros s b1.
  assert (Hget : t_get_path Json11.Json11Trait (root_ (fst s)) (Scenario.path "a/b") = Ok b1)
    by (vm_compute; reflexivity).
  split; [exact Hget|].
  destruct (C7_set_at_fires_exact_path Json11.Json11Trait (Scenario.path "a/b")
              b1 (Json11.JNumber 5) (fst s) (snd s) Hget) as (_ & Hsome & _).
  destruct (Hsome 1 ltac:(vm_compute; reflexivity)) as [_ Hfire].
  split; [apply Hfire; vm_compute; reflexivity|].
  split; vm_compute; reflexivity.
Defined.

(* ------------------------------------------------------------------ *)
(** ** The facade stays within the reachable states *)

Section FacadeFacts.
Context {Node : Type} (T : Trait Node).
Implicit Types (w : World Node) (t : ObservableTree Node).

Lemma reachable_set newData t w :
  reachable T w -> reachable T (snd (set T newData t w)).
Proof.
  intros Hr. rewrite set_world. eapply reachable_step; [exact Hr|constructor].
Qed.

Lemma reachable_set_at p newNode t w :
  reachable T w -> reachable T (snd (set_at T p newNode t w)).
Proof.
  intros Hr. unfold set_at.
  destruct (t_get_path T (root_ t) p) as [oldNode| |]; [|done..].
  assert (Hs : reachable T (snd (onChanged_at T (signalMgr_ t) p oldNode newNode w)))
    by (eapply reachable_step; [exact Hr|constructor]).
  destruct (onChanged_at T (signalMgr_ t) p oldNode newNode w) as [[r| |] w']; [|done..].
  by destruct (t_set T (root_ t) p newNode).
Qed.

Lemma reachable_registerAt p sl t w :
  reachable T w -> reachable T (snd (registerAt p sl t w)).
Proof.
  intros Hr. unfold registerAt, modificationSignal.
  assert (H1 : reachable T (snd (createSignal p (signalMgr_ t) w)))
    by (eapply reachable_step; [exact Hr|constructor]).
  destruct (createSignal p (signalMgr_ t) w) as [[[[a|] mgr']| |] w1]; [|done..].
  unfold bind.
  assert (H2 : reachable T (snd (connect a sl w1)))
    by (eapply reachable_step; [exact H1|constructor]).
  destruct (connect a sl w1) as [[h| |] w2]; [|done..].
  assert (H3 : reachable T (snd (shared_release a w2)))
    by (eapply reachable_step; [exact H2|constructor]).
  by destruct (shared_release a w2) as [[[]| |] w3].
Qed.

End FacadeFacts.

(* ------------------------------------------------------------------ *)
(** ** Trees built by the facade *)

Section SortedFacts.
Implicit Types (m : SignalMgr) (es : SignalsMap) (k : KeyType).

Lemma key_lt_trans k1 k2 k3 : key_lt k1 k2 -> key_lt k2 k3 -> key_lt k1 k3.
Proof.
  unfold key_lt. intros H1 H2.
  apply String_as_OT.cmp_lt in H1, H2. apply String_as_OT.cmp_lt.
  by eapply String_as_OT.lt_trans.
Qed.

Lemma compare_Gt_lt k k' : String.compare k k' = Gt -> key_lt k' k.
Proof.
  unfold key_lt. rewrite (String.compare_antisym k k').
  by destruct (String.compare k' k).
Qed.

Lemma key_lt_irrefl k : ~ key_lt k k.
Proof. unfold key_lt. by rewrite compare_refl. Qed.

Lemma key_lt_asym k k' : key_lt k k' -> ~ key_lt k' k.
Proof. intros H1 H2. apply (key_lt_irrefl k). by eapply key_lt_trans. Qed.

Lemma map_find_key k es v : map_find k es = Some v -> k ∈ map fst es.
Proof.
  induction es as [|[k' v'] es IH]; [done|]. simpl.
  destruct (String.eqb k k') eqn:Hk.
  - apply String.eqb_eq in Hk as ->. intros _. apply list_elem_of_here.
  - intros H. apply list_elem_of_further. by apply IH.
Qed.

Lemma map_find_not_key k es : map_find k es = None -> k ∉ map fst es.
Proof.
  induction es as [|[k' v'] es IH]; simpl.
  - intros _. apply not_elem_of_nil.
  - destruct (String.eqb k k') eqn:Hk; [done|]. intros H.
    apply not_elem_of_cons. split; [by apply String.eqb_neq|by apply IH].
Qed.

(** On a map in key order [operator[]] and the write-back act on one
    place: the entry [find] sees, or the gap where the key belongs. *)
Lemma map_assign_split k v es :
  StronglySorted key_lt (map fst es) ->
  exists l1 l2,
    map_assign k v es = l1 ++ (k, v) :: l2
    /\ es = l1 ++ match map_find k es with
                  | Some v0 => [(k, v0)]
                  | None => []
                  end ++ l2
    /\ Forall (fun e => key_lt (fst e) k) l1
    /\ Forall (fun e => key_lt k (fst e)) l2.
Proof.
  induction es as [|[k' v'] es IH]; simpl; intros Hs.
  { exists [], []. by repeat split. }
  apply StronglySorted_inv in Hs as [Hs Hk'].
  destruct (String.compare k k') eqn:Hc.
  - apply String.compare_eq_iff in Hc as <-. rewrite String.eqb_refl.
    exists [], es. repeat split; [constructor|].
    apply Forall_forall. intros e He. rewrite Forall_forall in Hk'. apply Hk'.
    by apply list_elem_of_fmap_2.
  - rewrite compare_neq by congruence.
    assert (Hall : Forall (fun e : KeyType * MySignalAndChild => key_lt k (fst e)) es).
    { apply Forall_forall. intros e He. eapply key_lt_trans; [exact Hc|].
      rewrite Forall_forall in Hk'. apply Hk'. by apply list_elem_of_fmap_2. }
    assert (Hnone : map_find k es = None).
    { destruct (map_find k es) as [v0|] eqn:Hf; [|done]. exfalso.
      apply map_find_key in Hf. apply list_elem_of_fmap in Hf as (e & -> & He).
      rewrite Forall_forall in Hall. by apply (key_lt_irrefl (fst e)), Hall. }
    rewrite Hnone. exists [], ((k', v') :: es). repeat split; [constructor|].
    constructor; [done|exact Hall].
  - rewrite compare_neq by congruence.
    destruct (IH Hs) as (l1 & l2 & Ha & He & Hl1 & Hl2).
    exists ((k', v') :: l1), l2. rewrite Ha. split; [done|]. split.
    { simpl. by rewrite <- He. }
    split; [|done]. constructor; [by apply compare_Gt_lt|done].
Qed.

Lemma map_assign_same k v es :
  StronglySorted key_lt (map fst es) -> map_find k es = Some v ->
  map_assign k v es = es.
Proof.
  intros Hs Hf. destruct (map_assign_split k v es Hs) as (l1 & l2 & -> & He & _).
  rewrite Hf in He. simpl in He. by symmetry.
Qed.

Lemma map_assign_sorted k v es :
  StronglySorted key_lt (map fst es) ->
  StronglySorted key_lt (map fst (map_assign k v es)).
Proof.
  induction es as [|[k' v'] es IH]; simpl; intros Hs.
  { repeat constructor. }
  pose proof Hs as [Hs' Hk']%StronglySorted_inv.
  destruct (String.compare k k') eqn:Hc; simpl.
  - apply String.compare_eq_iff in Hc as <-. done.
  - constructor; [done|]. constructor; [done|].
    eapply Forall_impl; [exact Hk'|]. intros x Hx. by eapply key_lt_trans.
  - constructor; [by apply IH|].
    destruct (map_assign_split k v es Hs') as (l1 & l2 & -> & He & _ & _).
    rewrite He in Hk'. rewrite !map_app, !Forall_app in Hk'.
    destruct Hk' as (H1 & _ & H2).
    rewrite map_app. apply Forall_app. split; [done|].
    simpl. constructor; [by apply compare_Gt_lt|done].
Qed.

Lemma map_find_children (P : SignalMgr -> Prop) k es v c :
  Forall (fun e => forall c, child_ (snd e) = Some c -> P c) es ->
  map_find k es = Some v -> child_ v = Some c -> P c.
Proof.
  induction 1 as [|[k' v'] es He _ IH]; [done|]. simpl.
  destruct (String.eqb k k'); [|done]. intros [= <-]. apply He.
Qed.

Lemma map_assign_children (P : SignalMgr -> Prop) k v es :
  Forall (fun e => forall c, child_ (snd e) = Some c -> P c) es ->
  (forall c, child_ v = Some c -> P c) ->
  Forall (fun e => forall c, child_ (snd e) = Some c -> P c) (map_assign k v es).
Proof.
  induction 1 as [|[k' v'] es He Hes IH]; simpl; intros Hv.
  { by repeat constructor. }
  destruct (String.compare k k'); repeat constructor; try done. by apply IH.
Qed.

Lemma sorted_Mgr es :
  sorted (Mgr es) <->
  StronglySorted key_lt (map fst es)
  /\ Forall (fun e => forall c, child_ (snd e) = Some c -> sorted c) es.
Proof.
  simpl. apply and_iff_compat_l.
  induction es as [|[k [sp sub]] es IH]; simpl.
  { split; [intros _; constructor|done]. }
  rewrite IH. split.
  - intros [Hsub Hes]. constructor; [|done]. simpl. intros c ->. done.
  - intros [Hsub Hes]%Forall_cons. split; [|done].
    destruct sub as [c|]; [by apply Hsub|done].
Qed.

Lemma graft_sorted rest : forall k m a, sorted m -> sorted (graft k rest m a).
Proof.
  induction rest as [|k' rest IH]; intros k [es] a [Hs Hc]%sorted_Mgr; simpl;
    apply sorted_Mgr; (split; [by apply map_assign_sorted|]);
    apply map_assign_children; try done; simpl.
  - unfold map_subscript. destruct (map_find k es) as [v|] eqn:Hf; simpl; [|done].
    intros c Hv. by eapply (map_find_children sorted).
  - intros c [= <-]. apply IH. unfold map_subscript.
    destruct (map_find k es) as [v|] eqn:Hf; simpl; [|by split; constructor].
    destruct (child_ v) as [c|] eqn:Hv; simpl; [|by split; constructor].
    by eapply (map_find_children sorted).
Qed.

(** Asking again for a registry that is there leaves the tree as it is. *)
Lemma graft_same rest : forall k m a,
  sorted m -> signalAt k rest m = Some a -> graft k rest m a = m.
Proof.
  induction rest as [|k' rest IH]; intros k [es] a [Hs Hc]%sorted_Mgr;
    rewrite signalAt_Mgr;
    destruct (map_find k es) as [[sp sub]|] eqn:Hf; try done; simpl; intros Ha;
    unfold map_subscript; rewrite Hf; simpl.
  - subst sp. by rewrite map_assign_same.
  - destruct sub as [c|]; [|done]. simpl.
    rewrite IH; [by rewrite map_assign_same|by eapply (map_find_children sorted)|done].
Qed.

End SortedFacts.

Section GraftFacts.
Implicit Types (m : SignalMgr) (es : SignalsMap) (k : KeyType) (a : Addr).

Lemma mapAddrs_app es1 es2 : mapAddrs (es1 ++ es2) = mapAddrs es1 ++ mapAddrs es2.
Proof. unfold mapAddrs. by rewrite map_app, concat_app. Qed.

Lemma mapAddrs_one e : mapAddrs [e] = entryAddrs e.
Proof. unfold mapAddrs. simpl. by rewrite app_nil_r. Qed.

(** What the entry found by [operator[]] contributes to the addresses. *)
Lemma map_subscript_addrs k es :
  mapAddrs (match map_find k es with Some v0 => [(k, v0)] | None => [] end) =
  sigAddrs (default (Mgr []) (child_ (map_subscript k es)))
  ++ ownAddr (signalPtr_ (map_subscript k es)).
Proof.
  unfold map_subscript. destruct (map_find k es) as [[sp [c|]]|]; simpl; try done.
  all: by rewrite mapAddrs_one.
Qed.

Lemma mapAddrs_split k es (l1 l2 : SignalsMap) :
  es = l1 ++ match map_find k es with Some v0 => [(k, v0)] | None => [] end ++ l2 ->
  mapAddrs es =
  mapAddrs l1
  ++ (sigAddrs (default (Mgr []) (child_ (map_subscript k es)))
      ++ ownAddr (signalPtr_ (map_subscript k es)))
  ++ mapAddrs l2.
Proof.
  intros He. rewrite He at 1. by rewrite !mapAddrs_app, map_subscript_addrs.
Qed.

(** A registry created for a path enters the tree once and displaces
    nothing. *)
Lemma graft_fresh rest : forall k m a,
  sorted m -> signalAt k rest m = None ->
  sigAddrs (graft k rest m a) ≡ₚ a :: sigAddrs m.
Proof.
  induction rest as [|k' rest IH]; intros k [es] a Hsorted Hat.
  - pose proof Hsorted as [Hs Hc]%sorted_Mgr.
    rewrite signalAt_nil in Hat. simpl in Hat. simpl graft. rewrite !sigAddrs_Mgr.
    destruct (map_assign_split k (SigNChild (Some a) (child_ (map_subscript k es))) es Hs)
      as (l1 & l2 & -> & He & _).
    rewrite (mapAddrs_split k es l1 l2 He), Hat.
    rewrite mapAddrs_app, mapAddrs_cons. unfold entryAddrs. simpl. rewrite app_nil_r.
    assert (Hch : childAddrs (child_ (map_subscript k es))
                  = sigAddrs (default (Mgr []) (child_ (map_subscript k es))))
      by by destruct (child_ (map_subscript k es)).
    rewrite Hch.
    rewrite <- !app_assoc. simpl. by rewrite <- !Permutation_middle.
  - pose proof Hsorted as [Hs Hc]%sorted_Mgr.
    rewrite signalAt_cons in Hat. simpl in Hat. simpl graft. rewrite !sigAddrs_Mgr.
    assert (Hchild : sorted (default (Mgr []) (child_ (map_subscript k es)))).
    { unfold map_subscript. destruct (map_find k es) as [[sp [c|]]|] eqn:Hf; simpl;
        try (by split; constructor).
      by eapply (map_find_children sorted). }
    specialize (IH k' _ a Hchild Hat).
    destruct (map_assign_split k
                (SigNChild (signalPtr_ (map_subscript k es))
                   (Some (graft k' rest (default (Mgr []) (child_ (map_subscript k es))) a)))
                es Hs) as (l1 & l2 & -> & He & _).
    rewrite (mapAddrs_split k es l1 l2 He).
    rewrite mapAddrs_app, mapAddrs_cons. unfold entryAddrs. simpl. rewrite IH.
    rewrite <- !app_assoc. simpl. by rewrite <- !Permutation_middle.
Qed.

End GraftFacts.

Section FacadeInvariant.
Context {Node : Type} (T : Trait Node).
Implicit Types (w : World Node) (t : ObservableTree Node) (a b : Addr)
         (m : SignalMgr) (es : SignalsMap).

(** *** What the pieces do to the allocation counter and the counts *)

Lemma invoke_sigs a (sc : SlotCell Node) o n w :
  sigs_allocated (snd (invoke a sc o n w)) = sigs_allocated w.
Proof.
  unfold invoke. destruct (slot_fn sc) as [cb|]; [|done].
  by destruct (cb_body cb o n).
Qed.

Lemma MultiImpl_onChanged_sigs a (l : SlotListType Node) o n : forall w,
  sigs_allocated (snd (MultiImpl_onChanged a l o n w)) = sigs_allocated w.
Proof.
  induction l as [|[sc|] l IH]; intros w; simpl; [done| |done].
  unfold bind. pose proof (invoke_sigs a sc o n w) as H.
  destruct (invoke a sc o n w) as [[[]|e|] w1]; simpl in *; [|done..].
  by rewrite IH.
Qed.

Lemma call_sigs a o n w : sigs_allocated (snd (call a o n w)) = sigs_allocated w.
Proof.
  unfold call, bind, deref. destruct (heap w !! a) as [c|]; [|done].
  destruct (impl_ (object c)) as [[s|l]|]; simpl; [| |done].
  - destruct s as [sc|]; [|done]. simpl.
    destruct (slot_fn sc) eqn:Hf; [|done]. apply invoke_sigs.
  - apply MultiImpl_onChanged_sigs.
Qed.

Lemma notify_sigs sp o n w : sigs_allocated (snd (notify sp o n w)) = sigs_allocated w.
Proof. destruct sp; [apply call_sigs|done]. Qed.

Lemma shared_release_sigs a w :
  sigs_allocated (snd (shared_release a w)) = sigs_allocated w.
Proof. unfold shared_release. by destruct (heap w !! a). Qed.

Lemma compareAndNotify_sigs sp o n hc w :
  sigs_allocated (snd (compareAndNotify T sp o n hc w)) = sigs_allocated w.
Proof.
  unfold compareAndNotify, bind, lift.
  destruct (t_equal T o n) as [eq| |]; simpl; [|done..].
  destruct sp as [a|]; [|done].
  pose proof (connected_world a w) as Hw.
  destruct (connected a w) as [[[|]| |] w0]; simpl in Hw; subst w0; [| |done..].
  - assert (Hh : sigs_allocated (snd ((if negb eq then call a o n else ret tt) w))
                 = sigs_allocated w).
    { destruct (negb eq); [apply call_sigs|done]. }
    by destruct ((if negb eq then call a o n else ret tt) w) as [[[]|e|] w1].
  - pose proof (shared_release_sigs a w) as Hr.
    by destruct (shared_release a w) as [[[]|e|] w1].
Qed.

(** *** The diff keeps the keys in order *)

Lemma visitEntry_tidy rec o n hc (e : KeyType * MySignalAndChild) w :
  (forall s, child_ (snd e) = Some s -> rec_tidy rec s) ->
  fst (snd (fst (visitEntry T rec o n hc e w))) = fst e
  /\ ((forall c, child_ (snd e) = Some c -> sorted c) ->
      forall c, child_ (snd (snd (fst (visitEntry T rec o n hc e w)))) = Some c -> sorted c)
  /\ sigs_allocated (snd (visitEntry T rec o n hc e w)) = sigs_allocated w.
Proof.
  intros Hrec. destruct e as [key [sp sub]]. unfold visitEntry. simpl fst. simpl snd.
  destruct (t_get T o key) as [ov| |]; [|done..].
  destruct (t_get T n key) as [nv| |]; [|done..].
  assert (Hsub : ((forall c, sub = Some c -> sorted c) ->
                  forall c, snd (fst (recurse rec sub ov nv w)) = Some c -> sorted c)
                 /\ sigs_allocated (snd (recurse rec sub ov nv w)) = sigs_allocated w).
  { unfold recurse. destruct sub as [s|]; [|done].
    destruct (Hrec s eq_refl ov nv w) as [Hs Ha].
    destruct (rec s ov nv w) as [[r s'] w']. simpl in *. split; [|done].
    intros Hc c [= <-]. by apply Hs, Hc. }
  destruct Hsub as [Hs1 Ha1].
  destruct (recurse rec sub ov nv w) as [[[[|]| |] sub'] w1]; simpl in *.
  - pose proof (notify_sigs sp ov nv w1) as Ha2.
    destruct (notify sp ov nv w1) as [[[]| |] w2]; simpl in *;
      (split; [done|]; split; [done|congruence]).
  - pose proof (compareAndNotify_sigs sp ov nv hc w1) as Ha2.
    destruct (compareAndNotify T sp ov nv hc w1) as [[[hc' sp']| |] w2]; simpl in *;
      (split; [done|]; split; [done|congruence]).
  - done.
  - done.
Qed.

Lemma loopEntries_tidy rec o n es :
  Forall (fun e => forall s, child_ (snd e) = Some s -> rec_tidy rec s) es ->
  forall hc w,
    map fst (snd (fst (loopEntries T rec o n es hc w))) = map fst es
    /\ (Forall (fun e => forall c, child_ (snd e) = Some c -> sorted c) es ->
        Forall (fun e => forall c, child_ (snd e) = Some c -> sorted c)
               (snd (fst (loopEntries T rec o n es hc w))))
    /\ sigs_allocated (snd (loopEntries T rec o n es hc w)) = sigs_allocated w.
Proof.
  induction 1 as [|e es He _ IH]; intros hc w; [done|].
  rewrite loopEntries_cons.
  destruct (visitEntry_tidy rec o n hc e w He) as (Hk & Hc & Ha).
  destruct (visitEntry T rec o n hc e w) as [[[hc'| |] e'] w1]; cbn [fst snd] in *.
  - destruct (IH hc' w1) as (Hk2 & Hc2 & Ha2).
    destruct (loopEntries T rec o n es hc' w1) as [[r rest'] w2]; cbn [fst snd] in *.
    split; [simpl; congruence|]. split; [|congruence].
    intros [H1 H2]%Forall_cons. constructor; [by apply Hc|by apply Hc2].
  - split; [simpl; congruence|]. split; [|done].
    intros [H1 H2]%Forall_cons. constructor; [by apply Hc|done].
  - split; [simpl; congruence|]. split; [|done].
    intros [H1 H2]%Forall_cons. constructor; [by apply Hc|done].
Qed.

Lemma onChanged_tidy m : rec_tidy (onChanged T) m.
Proof.
  induction m as [es IH] using SignalMgr_nested_ind. intros o n w.
  rewrite onChanged_Mgr.
  destruct (notBothEmpty T o n) as [[|]| |]; [|done..].
  destruct (loopEntries_tidy (onChanged T) o n es IH false w) as (Hk & Hc & Ha).
  destruct (loopEntries T (onChanged T) o n es false w) as [[r es'] w'].
  cbn [fst snd] in *. split; [|done].
  intros [Hs Hch]%sorted_Mgr. apply sorted_Mgr. split; [by rewrite Hk|by apply Hc].
Qed.

(** *** Registration *)

Lemma acquire_world (existing : option Addr) w :
  (forall a, existing = Some a ->
     exists c, heap w !! a = Some c /\ 1 <= use_count c /\ a <= sigs_allocated w) ->
  exists a c1 w1,
    acquire existing w = (Ok a, w1)
    /\ heap w1 !! a = Some c1 /\ 2 <= use_count c1
    /\ (forall b, b <> a -> heap w1 !! b = heap w !! b)
    /\ sigs_allocated w <= sigs_allocated w1 /\ a <= sigs_allocated w1
    /\ (existing = Some a \/ existing = None /\ a = S (sigs_allocated w)).
Proof.
  unfold acquire. destruct existing as [a|]; simpl.
  - intros H. destruct (H a eq_refl) as (c & Ha & Hc & Hle).
    exists a. unfold bind, ret, shared_copy. rewrite Ha.
    eexists _, _. split; [reflexivity|]. simpl. rewrite lookup_insert_eq.
    split; [reflexivity|]. simpl. split; [lia|].
    split; [by intros b Hb; rewrite lookup_insert_ne|].
    split; [lia|]. split; [done|by left].
  - intros _. unfold bind, ret, shared_new, shared_copy. simpl.
    rewrite lookup_insert_eq. eexists _, _, _. split; [reflexivity|]. simpl.
    rewrite lookup_insert_eq. split; [reflexivity|]. simpl. split; [lia|].
    split; [by intros b Hb; rewrite !lookup_insert_ne|].
    split; [lia|]. split; [lia|by right].
Qed.

Lemma connect_release_world a (c1 : SigCell Node) (sl : SlotType Node) w1 :
  heap w1 !! a = Some c1 -> 2 <= use_count c1 ->
  exists h w2 c2,
    (let* h := connect a sl in shared_release a ;;; ret h) w1 = (Ok h, w2)
    /\ heap w2 !! a = Some c2 /\ 1 <= use_count c2
    /\ (forall b, b <> a -> heap w2 !! b = heap w1 !! b)
    /\ sigs_allocated w2 = sigs_allocated w1.
Proof.
  intros Ha Hc. destruct sl as [cb|].
  - rewrite (bind_Ok _ _ _ _ _ (connect_eval _ _ _ _ Ha)).
    unfold bind, ret, shared_release. rewrite heap_with_object. simpl.
    rewrite (proj2 (Nat.leb_gt _ _)) by lia.
    eexists _, _, _. split; [reflexivity|]. simpl. rewrite lookup_insert_eq.
    split; [reflexivity|]. simpl. split; [lia|]. split; [|done].
    by intros b Hb; rewrite !lookup_insert_ne.
  - rewrite (bind_Ok _ _ _ _ _ (connect_empty a w1)).
    unfold bind, ret, shared_release. rewrite Ha.
    rewrite (proj2 (Nat.leb_gt _ _)) by lia.
    eexists _, _, _. split; [reflexivity|]. simpl. rewrite lookup_insert_eq.
    split; [reflexivity|]. simpl. split; [lia|]. split; [|done].
    by intros b Hb; rewrite lookup_insert_ne.
Qed.

Lemma registerAt_empty p (sl : SlotType Node) t w :
  Path.keys p = [] -> registerAt p sl t w = (Undefined, t, w).
Proof.
  intros Hk. unfold registerAt, modificationSignal, createSignal. rewrite Hk.
  by destruct t.
Qed.

Lemma registerAt_Inv p (sl : SlotType Node) t w :
  Inv t w -> Inv (snd (fst (registerAt p sl t w))) (snd (registerAt p sl t w)).
Proof.
  intros (Hs & Hnd & Hall). destruct (Path.keys p) as [|k rest] eqn:Hk.
  { by rewrite (registerAt_empty _ _ _ _ Hk). }
  destruct (acquire_world (signalAt k rest (signalMgr_ t)) w)
    as (a & c1 & w1 & Hacq & Ha1 & Hc1 & Hne1 & Hle1 & Hale & Hcase).
  { intros a Hat%signalAt_elem. by apply (proj1 (Forall_forall _ _) Hall). }
  destruct (connect_release_world a c1 sl w1 Ha1 Hc1)
    as (h & w2 & c2 & Hcr & Ha2 & Hc2 & Hne2 & Hsig2).
  unfold registerAt, modificationSignal.
  rewrite (createSignal_eval _ _ _ _ _ _ _ Hk Hacq), Hcr. cbn [fst snd signalMgr_].
  assert (Hold : forall x, x ∈ sigAddrs (signalMgr_ t) ->
            exists c, heap w2 !! x = Some c /\ 1 <= use_count c
                      /\ x <= sigs_allocated w2).
  { intros x Hx. destruct (decide (x = a)) as [->|Hxa].
    - exists c2. repeat split; [done..|lia].
    - destruct (proj1 (Forall_forall _ _) Hall x Hx) as (c & Hx1 & Hx2 & Hx3).
      exists c. split; [by rewrite Hne2, Hne1 by done|]. split; [done|lia]. }
  split; [by apply graft_sorted|].
  destruct Hcase as [Hex|[Hex ->]].
  - rewrite (graft_same _ _ _ _ Hs Hex). split; [done|]. by apply Forall_forall.
  - pose proof (graft_fresh rest k (signalMgr_ t) (S (sigs_allocated w)) Hs Hex) as Hp.
    split.
    + rewrite Hp. apply NoDup_cons. split; [|done].
      intros Hin. destruct (proj1 (Forall_forall _ _) Hall _ Hin) as (c & _ & _ & Hle).
      lia.
    + rewrite Hp. constructor.
      * exists c2. repeat split; [done..|lia].
      * by apply Forall_forall.
Qed.

(** *** Replacing the document, writing at a path, cancelling *)

Lemma set_Inv d t w :
  Inv t w -> Inv (snd (fst (set T d t w))) (snd (set T d t w)).
Proof.
  intros (Hs & Hnd & Hall).
  destruct (onChanged_tidy (signalMgr_ t) (root_ t) d w) as [Hsorted Hsig].
  destruct (onChanged_frame T (signalMgr_ t) (root_ t) d w Hnd) as [Hsub Hheap].
  unfold set.
  destruct (onChanged T (signalMgr_ t) (root_ t) d w) as [[[r| |] m'] w'];
    cbn [fst snd signalMgr_] in *.
  all: split; [by apply Hsorted|]; split; [by eapply sublist_NoDup|].
  all: apply Forall_forall; intros x Hx.
  all: destruct (proj1 (Forall_forall _ _) Hall x (elem_of_sublist _ _ _ Hx Hsub))
         as (c & Hx1 & Hx2 & Hx3).
  all: exists c; split; [by rewrite Hheap by (by left)|by rewrite Hsig].
Qed.

Lemma onChanged_at_sigs m p o n w :
  sigs_allocated (snd (onChanged_at T m p o n w)) = sigs_allocated w.
Proof.
  destruct (getSignal m p) as [a|] eqn:Hp.
  2:{ by rewrite (onChanged_at_None _ _ _ _ _ _ Hp). }
  unfold onChanged_at, bind, lift. rewrite Hp.
  destruct (t_equal T o n) as [[|]| |]; [done| |done..].
  pose proof (call_sigs a o n w) as H. cbn [negb].
  by destruct (call a o n w) as [[[]|e|] w'].
Qed.

Lemma set_at_Inv p d t w :
  Inv t w -> Inv (snd (fst (set_at T p d t w))) (snd (set_at T p d t w)).
Proof.
  intros (Hs & Hnd & Hall).
  destruct (t_get_path T (root_ t) p) as [old| |] eqn:Hget.
  2,3: by unfold set_at; rewrite Hget.
  unfold Inv. destruct (set_at_world T p d old t w Hget) as [-> ->].
  destruct (onChanged_at_events T (signalMgr_ t) p old d w) as (evs & _ & Hheap & _).
  split; [done|]. split; [done|].
  by rewrite Hheap, onChanged_at_sigs.
Qed.

Lemma Connection_disconnect_counts (h : Connection) w :
  sigs_allocated (snd (Connection_disconnect h w)) = sigs_allocated w
  /\ forall b c, heap w !! b = Some c ->
       exists c', heap (snd (Connection_disconnect h w)) !! b = Some c'
                  /\ use_count c' = use_count c.
Proof.
  assert (Hsame : forall b c, heap w !! b = Some c ->
            exists c', heap w !! b = Some c' /\ use_count c' = use_count c)
    by (intros b c Hb; by exists c).
  unfold Connection_disconnect. destruct (negb (slotID_ h =? 0)); [|done].
  unfold bind, weak_lock. destruct (signalRef_ h) as [a|]; [|done].
  destruct (heap w !! a) as [ca|] eqn:Ha; [|done].
  unfold disconnect, bind, deref. rewrite Ha.
  destruct (impl_ (object ca)) as [i|]; [|done].
  unfold lift. destruct (ImplIF_disconnect i (slotID_ h)) as [i'| |]; [|done..].
  unfold store. rewrite Ha. simpl. split; [done|].
  intros b c Hb. destruct (decide (b = a)) as [->|Hba].
  - rewrite lookup_insert_eq. eexists. split; [reflexivity|]. simpl. congruence.
  - rewrite lookup_insert_ne by done. by exists c.
Qed.

Lemma Connection_disconnect_Inv (h : Connection) t w :
  Inv t w -> Inv t (snd (Connection_disconnect h w)).
Proof.
  intros (Hs & Hnd & Hall). destruct (Connection_disconnect_counts h w) as [Hsig Hcnt].
  split; [done|]. split; [done|].
  apply Forall_forall. intros x Hx.
  destruct (proj1 (Forall_forall _ _) Hall x Hx) as (c & Hx1 & Hx2 & Hx3).
  destruct (Hcnt x c Hx1) as (c' & Hc' & Hu). exists c'. rewrite Hsig, Hu. done.
Qed.

(** *** The invariant of the facade *)

Lemma facade_step_Inv s s' :
  facade_step T s s' -> Inv (fst s) (snd s) -> Inv (fst s') (snd s').
Proof.
  intros [p sl t w|d t w|p d t w|h t w]; cbn [fst snd].
  - apply registerAt_Inv.
  - apply set_Inv.
  - apply set_at_Inv.
  - apply Connection_disconnect_Inv.
Qed.

Lemma facade_reachable_Inv root s :
  facade_reachable T root s -> Inv (fst s) (snd s).
Proof.
  induction 1 as [|s s' _ IH Hstep].
  - split; [by split; constructor|]. split; constructor.
  - by eapply facade_step_Inv.
Qed.

(** Every state a client can bring a new tree to meets the
    well-formedness the statements about the diff ask for. *)
Lemma facade_reachable_wf root s :
  facade_reachable T root s -> wf (signalMgr_ (fst s)) (snd s).
Proof.
  intros (Hs & Hnd & Hall)%facade_reachable_Inv. split; [done|].
  eapply Forall_impl; [exact Hall|]. intros a (c & Ha & _). by exists c.
Qed.

End FacadeInvariant.

(* ------------------------------------------------------------------ *)
(** ** Paths and strings *)

Section PathStrings.
Import Path.

Lemma append_cons (x : ascii) (a b : string) :
  String.append (String x a) b = String x (String.append a b).
Proof. reflexivity. Qed.

Lemma append_nil_l (b : string) : String.append EmptyString b = b.
Proof. reflexivity. Qed.

Lemma append_assoc (a b c : string) :
  String.append (String.append a b) c = String.append a (String.append b c).
Proof.
  induction a as [|x a IH]; [done|]. by rewrite !append_cons, IH.
Qed.

Lemma append_nil_r (a : string) : String.append a EmptyString = a.
Proof. induction a as [|x a IH]; [done|]. by rewrite append_cons, IH. Qed.

Lemma fold_joined sep ks : forall acc,
  fold_left (fun str key =>
               String.append str (String.append key (String sep EmptyString)))
            ks acc
  = String.append acc (joined sep ks).
Proof.
  induction ks as [|k ks IH]; intros acc; simpl; [by rewrite append_nil_r|].
  by rewrite IH, !append_assoc.
Qed.

Lemma joined_app sep ks1 ks2 :
  joined sep (ks1 ++ ks2) = String.append (joined sep ks1) (joined sep ks2).
Proof.
  induction ks1 as [|k ks1 IH]; simpl; [done|].
  by rewrite IH, append_assoc.
Qed.

Lemma drop_back_snoc (a : string) (c : ascii) :
  drop_back (String.append a (String c EmptyString)) = a.
Proof.
  induction a as [|x a IH]; simpl; [done|]. rewrite IH.
  by destruct a.
Qed.

Lemma toString_snoc sep ks k :
  toString {| keys_ := ks ++ [k]; sep_ := sep |}
  = String.append (joined sep ks) k.
Proof.
  unfold toString, keys. cbn [keys_ sep_].
  rewrite fold_joined, append_nil_l, joined_app. cbn [joined].
  rewrite <- append_assoc.
  destruct (String.append (String.append (joined sep ks) k) (String sep EmptyString))
    as [|c0 s0] eqn:He.
  - destruct (String.append (joined sep ks) k); by rewrite ?append_cons in He.
  - by rewrite <- He, drop_back_snoc.
Qed.

(** Scanning a key that holds no separator only moves [it]. *)
Lemma toKeys_loop_key sep k : forall pending r acc,
  has_char sep k = false ->
  toKeys_loop sep pending (String.append k r) acc
  = toKeys_loop sep (String.append pending k) r acc.
Proof.
  induction k as [|c k IH]; intros pending r acc Hk; simpl.
  - by rewrite append_nil_r.
  - simpl in Hk. apply orb_false_iff in Hk as [Hc Hk]. rewrite Hc.
    rewrite IH by done. by rewrite append_assoc.
Qed.

Lemma toKeys_loop_joined sep ks : forall r acc,
  Forall (plain_key sep) ks ->
  toKeys_loop sep EmptyString (String.append (joined sep ks) r) acc
  = toKeys_loop sep EmptyString r (acc ++ ks).
Proof.
  induction ks as [|k ks IH]; intros r acc Hks; simpl.
  - by rewrite app_nil_r.
  - apply Forall_cons in Hks as [[Hne Hk] Hks].
    rewrite append_assoc, toKeys_loop_key by done. simpl.
    rewrite Ascii.eqb_refl.
    destruct k as [|c k]; [done|]. simpl in Hk |- *.
    apply orb_false_iff in Hk as [Hc Hk]. rewrite Hc. simpl.
    rewrite IH by done. by rewrite <- app_assoc.
Qed.

Lemma toKeys_joined_key sep ks k :
  Forall (plain_key sep) ks -> plain_key sep k -> back k <> zero ->
  toKeys (String.append (joined sep ks) k) sep = ks ++ [k].
Proof.
  intros Hks [Hne Hk] Hback. unfold toKeys.
  rewrite toKeys_loop_joined by done. simpl.
  pose proof (toKeys_loop_key sep k EmptyString EmptyString ks Hk) as Hl.
  rewrite append_nil_r, append_nil_l in Hl. cbn [toKeys_loop] in Hl. rewrite Hl.
  destruct k as [|c k]; [done|].
  apply Ascii.eqb_neq in Hback. by rewrite Hback.
Qed.

(** What [toKeys] leaves in its two results when the scanned text holds
    no character [z]: keys and pending text without separator and
    without [z]. *)
Lemma has_char_app c a b :
  has_char c (String.append a b) = has_char c a || has_char c b.
Proof. induction a as [|x a IH]; simpl; [done|]. by rewrite IH, orb_assoc. Qed.

Lemma toKeys_loop_plain sep z rest : forall pending keys keys' pending',
  has_char z rest = false ->
  has_char sep pending = false -> has_char z pending = false ->
  Forall (fun k => plain_key sep k /\ has_char z k = false) keys ->
  toKeys_loop sep pending rest keys = (keys', pending') ->
  Forall (fun k => plain_key sep k /\ has_char z k = false) keys'
  /\ has_char sep pending' = false /\ has_char z pending' = false.
Proof.
  induction rest as [|c rest IH]; simpl; intros pending keys keys' pending' Hz Hp Hpz Hk Hl.
  - by inversion Hl; subst.
  - apply orb_false_iff in Hz as [Hcz Hz].
    destruct (Ascii.eqb c sep) eqn:Hc.
    + apply (IH _ _ _ _ Hz) in Hl; [done..|].
      destruct pending as [|p0 pending]; simpl.
      * by rewrite Hc.
      * destruct (Ascii.eqb p0 sep) eqn:Hp0; simpl; [done|].
        apply Forall_app; split; [done|]. by repeat constructor.
    + apply (IH _ _ _ _ Hz) in Hl; [done| | |done].
      * rewrite has_char_app. simpl. by rewrite Hp, Hc.
      * rewrite has_char_app. simpl. by rewrite Hpz, Hcz.
Qed.

Lemma back_no_zero (s : string) :
  s <> EmptyString -> has_char zero s = false -> back s <> zero.
Proof.
  induction s as [|c s IH]; [done|]. intros _ Hz. simpl in Hz.
  apply orb_false_iff in Hz as [Hc Hz]. apply Ascii.eqb_neq in Hc.
  destruct s as [|c' s]; [done|]. by apply IH.
Qed.


Lemma toKeys_toString_keys sep ks :
  Forall (plain_key sep) ks ->
  (forall k, last ks = Some k -> back k <> zero) ->
  toKeys (toString {| keys_ := ks; sep_ := sep |}) sep = ks.
Proof.
  intros Hks Hlast. destruct ks as [|k0 ks0] using rev_ind; [done|].
  apply Forall_app in Hks as [Hks [Hk _]%Forall_cons].
  rewrite toString_snoc. apply toKeys_joined_key; [done..|].
  apply Hlast, last_snoc.
Qed.

End PathStrings.

(** X1. A path prints and parses back to itself: for every path whose
    keys are non-empty, hold no separator character, and whose last key
    does not end in the NUL character (which [toKeys] cuts off as the
    terminator of a character array), constructing a path from
    [toString()] with the same separator gives the same keys and
    separator. *)
Theorem X1_toString_parses_back (p : Path.t) :
  Forall (Path.plain_key (Path.sep_ p)) (Path.keys p) ->
  (forall k, last (Path.keys p) = Some k -> Path.back k <> zero) ->
  Path.of_string (Path.toString p) (Path.sep_ p) = p.
Proof.
  destruct p as [ks sep]. unfold Path.keys, Path.of_string. cbn [Path.keys_ Path.sep_].
  intros Hks Hlast. f_equal. by apply toKeys_toString_keys.
Qed.

Lemma X1_toString_parses_back_witness :
  let p := Path.of_string "/config//usb/enabled/" Path.default_sep in
  Path.of_string (Path.toString p) (Path.sep_ p) = p.
Proof.
  intros p. apply (X1_toString_parses_back p).
  - repeat constructor; discriminate.
  - intros k [= <-]. discriminate.
Defined.



Section PathOrder.
Import Path.

Lemma eq_loop_spec (a : Keys) : forall b,
  List.length a = List.length b -> (eq_loop a b = true <-> a = b).
Proof.
  induction a as [|x a IH]; intros [|y b] Hlen; simpl in *; try done.
  destruct (String.eqb_spec x y) as [->|Hxy]; simpl.
  - rewrite IH by lia. split; [by intros ->|by intros [= ->]].
  - split; [done|by intros [= ? ?]].
Qed.

Lemma keys_eqb_eq (a : Keys) : forall b, keys_eqb a b = true <-> a = b.
Proof.
  induction a as [|x a IH]; intros [|y b]; simpl; try done.
  rewrite andb_true_iff, IH, String.eqb_eq.
  split; [by intros [-> ->]|by intros [= -> ->]].
Qed.

Lemma ltb_lt (x y : string) : String.ltb x y = true <-> key_lt x y.
Proof. unfold String.ltb, key_lt. by destruct (String.compare x y). Qed.

Lemma ltb_total (x y : string) :
  String.ltb x y = false -> String.ltb y x = false -> x = y.
Proof.
  unfold String.ltb. rewrite (String.compare_antisym x y).
  destruct (String.compare y x) eqn:Hc; simpl; try done.
  intros _ _. symmetry. by apply String.compare_eq_iff.
Qed.

Lemma ltb_irrefl (x : string) : String.ltb x x = false.
Proof.
  destruct (String.ltb x x) eqn:H; [|done].
  apply ltb_lt in H. by apply key_lt_irrefl in H.
Qed.

Lemma ltb_asym (x y : string) : String.ltb x y = true -> String.ltb y x = false.
Proof.
  intros H%ltb_lt. destruct (String.ltb y x) eqn:H'; [|done].
  apply ltb_lt in H'. by apply key_lt_asym in H.
Qed.

Lemma keys_ltb_irrefl (a : Keys) : keys_ltb a a = false.
Proof. induction a as [|x a IH]; simpl; [done|]. by rewrite ltb_irrefl. Qed.

Lemma keys_ltb_asym (a : Keys) : forall b,
  keys_ltb a b = true -> keys_ltb b a = false.
Proof.
  induction a as [|x a IH]; intros [|y b]; simpl; try done.
  destruct (String.ltb x y) eqn:Hxy.
  - intros _. by rewrite (ltb_asym _ _ Hxy).
  - destruct (String.ltb y x) eqn:Hyx; [done|]. apply IH.
Qed.

Lemma keys_ltb_total (a : Keys) : forall b,
  keys_ltb a b = false -> keys_ltb b a = false -> a = b.
Proof.
  induction a as [|x a IH]; intros [|y b]; simpl; try done.
  destruct (String.ltb x y) eqn:Hxy; [done|].
  destruct (String.ltb y x) eqn:Hyx; [done|].
  intros H1 H2. rewrite (ltb_total _ _ Hxy Hyx). f_equal. by apply IH.
Qed.

Lemma keys_ltb_trans (a : Keys) : forall b c,
  keys_ltb a b = true -> keys_ltb b c = true -> keys_ltb a c = true.
Proof.
  induction a as [|x a IH]; intros [|y b] [|z c]; simpl; try done.
  destruct (String.ltb x y) eqn:Hxy.
  - intros _. destruct (String.ltb y z) eqn:Hyz.
    + intros _.
      by rewrite (proj2 (ltb_lt x z)
                    (key_lt_trans _ _ _ (proj1 (ltb_lt _ _) Hxy) (proj1 (ltb_lt _ _) Hyz))).
    + destruct (String.ltb z y) eqn:Hzy; [done|]. intros _.
      rewrite <- (ltb_total _ _ Hyz Hzy). by rewrite Hxy.
  - destruct (String.ltb y x) eqn:Hyx; [done|].
    pose proof (ltb_total _ _ Hxy Hyx) as ->. intros Hab.
    destruct (String.ltb y z) eqn:Hyz; [done|].
    destruct (String.ltb z y) eqn:Hzy; [done|]. by apply IH.
Qed.

End PathOrder.

(** X3. Comparing a path with a string ([path == "a/b"]) splits the
    string on ['/'], whatever separator the path was built with, and
    holds exactly when that split gives the path's keys. *)
Theorem X3_eq_string_splits_on_slash (p : Path.t) (s : string) :
  Path.eq_string p s = true <-> Path.toKeys s Path.default_sep = Path.keys p.
Proof.
  unfold Path.eq_string, Path.keys.
  destruct (Nat.eqb_spec (List.length (Path.toKeys s Path.default_sep))
              (List.length (Path.keys_ p))) as [Hlen|Hlen]; simpl.
  - rewrite eq_loop_spec by by rewrite !length_rev.
    split.
    + intros H. apply (f_equal (@rev _)) in H. by rewrite !rev_involutive in H.
    + by intros ->.
  - split; [done|]. intros H. by rewrite H in Hlen.
Qed.

(** X4. The two free comparison operators order paths by their keys:
    [operator==] holds exactly for equal key sequences, and [operator<]
    is a strict total order on them (irreflexive, transitive, and of two
    paths with different keys exactly one is below the other), so paths
    can serve as map keys. The separator takes no part. *)
Theorem X4_path_order_strict_total (p q r : Path.t) :
  (Path.eqb p q = true <-> Path.keys p = Path.keys q)
  /\ Path.ltb p p = false
  /\ (Path.ltb p q = true -> Path.ltb q r = true -> Path.ltb p r = true)
  /\ (Path.ltb p q = true -> Path.ltb q p = false /\ Path.eqb p q = false)
  /\ (Path.ltb p q = false -> Path.ltb q p = false -> Path.eqb p q = true).
Proof.
  unfold Path.eqb, Path.ltb.
  split; [apply keys_eqb_eq|]. split; [apply keys_ltb_irrefl|].
  split; [apply keys_ltb_trans|]. split.
  - intros H. split; [by apply keys_ltb_asym|].
    destruct (Path.keys_eqb (Path.keys p) (Path.keys q)) eqn:He; [|done].
    apply keys_eqb_eq in He. rewrite He in H. by rewrite keys_ltb_irrefl in H.
  - intros H1 H2. apply keys_eqb_eq. by apply keys_ltb_total.
Qed.

(* ------------------------------------------------------------------ *)
(** ** Invariants of the registries, in general *)

Section KeepsFacts.
Context {Node : Type} (T : Trait Node) (P : World Node -> Prop).
Implicit Types (w : World Node) (a : Addr).

Lemma keeps_ret {A} (x : A) : keeps P (ret x).
Proof. by intros w. Qed.

Lemma keeps_lift {A} (o : Outcome A) : keeps P (lift o).
Proof. by intros w. Qed.

Lemma keeps_bind {A B} (c : M Node A) (k : A -> M Node B) :
  keeps P c -> (forall x, keeps P (k x)) -> keeps P (bind c k).
Proof.
  intros Hc Hk w Hw. unfold bind. specialize (Hc w Hw).
  destruct (c w) as [[x|e|] w']; simpl in *; [by apply Hk|done..].
Qed.

Lemma keeps_connected a : keeps P (connected a).
Proof. intros w Hw. by rewrite connected_world. Qed.

Hypothesis HP : kept_by_primitives P.

Lemma keeps_createSignal_range rest : forall k m,
  keeps P (createSignal_range k rest m).
Proof using Type*.
  induction rest as [|k' rest IH]; intros k m; simpl.
  - apply keeps_bind.
    + destruct (signalPtr_ _); [apply keeps_ret|apply (kp_new P HP)].
    + intros a. apply keeps_bind; [apply (kp_copy P HP)|].
      intros; apply keeps_ret.
  - apply keeps_bind; [apply IH|]. intros [p child']. apply keeps_ret.
Qed.

Lemma keeps_createSignal p m : keeps P (createSignal p m).
Proof using Type*.
  unfold createSignal. destruct (Path.keys p) as [|k rest]; [apply keeps_ret|].
  apply keeps_bind; [apply keeps_createSignal_range|].
  intros [a m']. apply keeps_ret.
Qed.

Lemma keeps_notify sp o n : keeps P (notify sp o n).
Proof using Type*. destruct sp; [apply (kp_call P HP)|apply keeps_ret]. Qed.

Lemma keeps_compareAndNotify sp o n hc : keeps P (compareAndNotify T sp o n hc).
Proof using Type*.
  apply keeps_bind; [apply keeps_lift|]. intros eq.
  destruct sp as [a|]; [|apply keeps_ret].
  apply keeps_bind; [apply keeps_connected|]. intros [|].
  - apply keeps_bind; [|intros; apply keeps_ret].
    destruct (negb eq); [apply (kp_call P HP)|apply keeps_ret].
  - apply keeps_bind; [apply (kp_release P HP)|intros; apply keeps_ret].
Qed.

Lemma keeps_onChanged_at m p o n : keeps P (onChanged_at T m p o n).
Proof using Type*.
  unfold onChanged_at. destruct (getSignal m p) as [a|]; [|apply keeps_ret].
  apply keeps_bind; [apply keeps_lift|]. intros eq.
  destruct (negb eq); [|apply keeps_ret].
  apply keeps_bind; [apply (kp_call P HP)|intros; apply keeps_ret].
Qed.

Lemma visitEntry_keeps rec o n hc (e : KeyType * MySignalAndChild) w :
  (forall s, child_ (snd e) = Some s ->
     forall o n w, P w -> P (snd (rec s o n w))) ->
  P w -> P (snd (visitEntry T rec o n hc e w)).
Proof using Type*.
  intros Hrec Hw. destruct e as [key [sp sub]]. unfold visitEntry.
  destruct (t_get T o key) as [ov| |]; [|done..].
  destruct (t_get T n key) as [nv| |]; [|done..].
  assert (Hsub : P (snd (recurse rec sub ov nv w))).
  { unfold recurse. destruct sub as [s|]; [|done].
    specialize (Hrec s eq_refl ov nv w Hw).
    by destruct (rec s ov nv w) as [[r s'] w']. }
  destruct (recurse rec sub ov nv w) as [[[[|]| |] sub'] w1]; simpl in Hsub; [| |done..].
  - pose proof (keeps_notify sp ov nv w1 Hsub) as H.
    by destruct (notify sp ov nv w1) as [[?| |] w2].
  - pose proof (keeps_compareAndNotify sp ov nv hc w1 Hsub) as H.
    by destruct (compareAndNotify T sp ov nv hc w1) as [[[? ?]| |] w2].
Qed.

Lemma loopEntries_keeps rec o n (es : SignalsMap) :
  Forall (fun e => forall s, child_ (snd e) = Some s ->
                   forall o n w, P w -> P (snd (rec s o n w))) es ->
  forall hc w, P w -> P (snd (loopEntries T rec o n es hc w)).
Proof using Type*.
  induction 1 as [|e es He _ IH]; intros hc w Hw; simpl; [done|].
  pose proof (visitEntry_keeps rec o n hc e w He Hw) as H.
  destruct (visitEntry T rec o n hc e w) as [[[hc'| |] e'] w1]; simpl in H; [|done..].
  specialize (IH hc' w1 H).
  by destruct (loopEntries T rec o n es hc' w1) as [[r rest'] w2].
Qed.

Lemma onChanged_keeps m : forall o n w, P w -> P (snd (onChanged T m o n w)).
Proof using Type*.
  induction m as [es IH] using SignalMgr_nested_ind. intros o n w Hw. simpl.
  destruct (notBothEmpty T o n) as [[|]| |]; [|done..].
  pose proof (loopEntries_keeps (onChanged T) o n es IH false w Hw) as H.
  by destruct (loopEntries T (onChanged T) o n es false w) as [[r es'] w'].
Qed.



Hypothesis HC : forall h, keeps P (Connection_disconnect h).

Lemma step_keeps w w' : step T w w' -> P w -> P w'.
Proof using Type*.
  destruct 1; intros Hw.
  - by apply keeps_createSignal.
  - by apply (kp_connect P HP).
  - by apply HC.
  - by apply (kp_release P HP).
  - by apply onChanged_keeps.
  - by apply keeps_onChanged_at.
Qed.

Lemma steps_keep w w' : rtc (step T) w w' -> P w -> P w'.
Proof using Type*. induction 1 as [|w w1 w2 Hs _ IH]; [done|]. intros Hw. by eapply IH, step_keeps. Qed.

End KeepsFacts.

(* ------------------------------------------------------------------ *)
(** ** What each operation does to the registries *)

Section EffectFacts.
Context {Node : Type}.
Implicit Types (w : World Node) (a b : Addr) (c : SigCell Node).

Lemma objects_kept_copy a w : objects_kept w (snd (shared_copy a w)).
Proof.
  unfold objects_kept, shared_copy. destruct (heap w !! a) as [c|] eqn:Ha; simpl.
  - split; [done|]. split; [done|]. intros b c'. rewrite lookup_insert.
    case_decide as Hb; [|by exists c'].
    subst b. intros [= <-]. by exists c.
  - split; [done|]. split; [done|]. intros b c' Hb. by exists c'.
Qed.

Lemma objects_kept_release a w : objects_kept w (snd (shared_release a w)).
Proof.
  unfold objects_kept, shared_release. destruct (heap w !! a) as [c|] eqn:Ha; simpl.
  - split; [done|]. split; [done|]. intros b c'.
    destruct (use_count c <=? 1); simpl.
    + rewrite lookup_delete. case_decide; [done|]. by exists c'.
    + rewrite lookup_insert. case_decide as Hb; [|by exists c'].
      subst b. intros [= <-]. by exists c.
  - split; [done|]. split; [done|]. intros b c' Hb. by exists c'.
Qed.

Lemma shared_copy_trace a w : trace (snd (shared_copy a w)) = trace w.
Proof. unfold shared_copy. by destruct (heap w !! a). Qed.

(** A dispatch only writes the trace, and what it writes are calls of
    slots the registry stores. *)
Lemma invoke_slots a (sc : SlotCell Node) o n w :
  slots_allocated (snd (invoke a sc o n w)) = slots_allocated w.
Proof.
  unfold invoke. destruct (slot_fn sc) as [cb|]; [|done].
  by destruct (cb_body cb o n).
Qed.

Lemma MultiImpl_onChanged_slots a (l : SlotListType Node) o n : forall w,
  slots_allocated (snd (MultiImpl_onChanged a l o n w)) = slots_allocated w.
Proof.
  induction l as [|[sc|] l IH]; intros w; simpl; [done| |done].
  unfold bind. pose proof (invoke_slots a sc o n w) as H.
  destruct (invoke a sc o n w) as [[[]|e|] w1]; simpl in *; [|done..].
  by rewrite IH.
Qed.

Lemma call_slots a o n w : slots_allocated (snd (call a o n w)) = slots_allocated w.
Proof.
  unfold call, bind, deref. destruct (heap w !! a) as [c|]; [|done].
  destruct (impl_ (object c)) as [[s|l]|]; simpl; [| |done].
  - destruct s as [sc|]; [|done]. simpl.
    destruct (slot_fn sc) eqn:Hf; [|done]. apply invoke_slots.
  - apply MultiImpl_onChanged_slots.
Qed.

Lemma objects_kept_call a o n w : objects_kept w (snd (call a o n w)).
Proof.
  split; [apply call_sigs|]. split; [apply call_slots|].
  intros b c'. rewrite call_heap. intros Hb. by exists c'.
Qed.




(** [connect] either leaves the world alone or stores one new slot, with
    the id handed out last, at the end of the registry's slots. *)
Lemma connect_cases a (sl : SlotType Node) w :
  snd (connect a sl w) = w
  \/ exists c cb, sl = Some cb /\ heap w !! a = Some c
       /\ connect a sl w =
          (Ok {| signalRef_ := Some a; slotID_ := S (slots_allocated w) |},
           with_object a c
             {| impl_ := Some (grown (impl_ (object c))
                                     {| slot_addr := S (slots_allocated w);
                                        slot_fn := Some cb |}) |}
             (snd (new_slot (Some cb) w))).
Proof.
  destruct sl as [cb|]; [|by left].
  destruct (heap w !! a) as [c|] eqn:Ha.
  - right. exists c, cb. split; [done|]. split; [done|]. by apply connect_eval.
  - left. unfold connect, bind, deref. by rewrite Ha.
Qed.

Lemma impl_ids_grown (i0 : option (ImplIF Node)) (cell : SlotCell Node) :
  impl_ids (Some (grown i0 cell)) = impl_ids i0 ++ [slot_addr cell].
Proof.
  destruct i0 as [[[s|]|l]|]; simpl; try done.
  by rewrite map_app, concat_app.
Qed.

(** [disconnect] either leaves the world alone or writes back the
    storage without one slot. *)
Lemma cancel_cases (h : Connection) w :
  snd (Connection_disconnect h w) = w
  \/ exists a c i i', signalRef_ h = Some a /\ slotID_ h <> 0
       /\ heap w !! a = Some c /\ impl_ (object c) = Some i
       /\ ImplIF_disconnect i (slotID_ h) = Ok i'
       /\ Connection_disconnect h w = (Ok tt, with_object a c {| impl_ := Some i' |} w).
Proof.
  unfold Connection_disconnect.
  destruct (slotID_ h =? 0) eqn:Hid; [by left|]. apply Nat.eqb_neq in Hid. simpl.
  unfold bind, weak_lock. destruct (signalRef_ h) as [a|]; [|by left].
  destruct (heap w !! a) as [c|] eqn:Ha; [|by left].
  destruct (impl_ (object c)) as [i|] eqn:Hi.
  2:{ left. unfold disconnect, bind, deref. by rewrite Ha, Hi. }
  rewrite (disconnect_eval _ _ _ _ _ Ha Hi).
  destruct (ImplIF_disconnect i (slotID_ h)) as [i'| |] eqn:Hd; [|by left..].
  right. by exists a, c, i, i'.
Qed.

Lemma concat_cell_ids_delete (l : SlotListType Node) : forall pos,
  List.concat (map cell_ids (delete pos l)) `sublist_of` List.concat (map cell_ids l).
Proof.
  induction l as [|sl l IH]; intros [|pos]; simpl; try done.
  - by apply sublist_inserts_l.
  - by apply sublist_app.
Qed.

Lemma erase_found_absent (l : SlotListType Node) (id : SlotIDType) :
  id <> 0 -> NoDup (List.concat (map cell_ids l)) ->
  id ∉ List.concat
         (map cell_ids (delete (find_if (fun sl => get_ptr sl =? id) l) l)).
Proof.
  intros Hid. induction l as [|sl l IH]; simpl; [by intros _ ?%elem_of_nil|].
  intros Hnd. destruct (get_ptr sl =? id) eqn:He; simpl.
  - apply Nat.eqb_eq in He. destruct sl as [sc|]; simpl in *; [|done].
    subst id. by apply NoDup_cons in Hnd as [? _].
  - apply Nat.eqb_neq in He. apply NoDup_app in Hnd as (_ & _ & Hl).
    intros [Hin|Hin]%elem_of_app; [|by apply IH].
    destruct sl as [sc|]; simpl in *; [|by apply elem_of_nil in Hin].
    apply list_elem_of_singleton in Hin. by subst id.
Qed.

Lemma ImplIF_disconnect_ids (i i' : ImplIF Node) (id : SlotIDType) :
  ImplIF_disconnect i id = Ok i' ->
  impl_ids (Some i') `sublist_of` impl_ids (Some i)
  /\ (id <> 0 -> NoDup (impl_ids (Some i)) -> id ∉ impl_ids (Some i')).
Proof.
  destruct i as [s|l]; simpl.
  - unfold SingleImpl_disconnect. destruct (get_ptr s =? id) eqn:He; intros [= <-]; simpl.
    + split; [apply sublist_nil_l|]. by intros _ _ ?%elem_of_nil.
    + split; [done|]. intros _ _. apply Nat.eqb_neq in He.
      destruct s as [sc|]; simpl in *; [|by intros ?%elem_of_nil].
      intros Hin%list_elem_of_singleton. by subst id.
  - unfold MultiImpl_disconnect, list_erase.
    destruct (_ <? _); [|done]. intros [= <-]. simpl.
    split; [apply concat_cell_ids_delete|]. apply erase_found_absent.
Qed.

End EffectFacts.

(* ------------------------------------------------------------------ *)
(** ** Ids are handed out once *)

Section IssuedFacts.
Context {Node : Type}.
Implicit Types (w : World Node) (a b : Addr) (id : SlotIDType).

Lemma Tidy_objects_kept a id w w' : objects_kept w w' -> Tidy a id w -> Tidy a id w'.
Proof.
  intros (Hs & Hl & Hobj) [HI [Hb1 Hb2]]. split.
  - intros b c' Hb. destruct (Hobj b c' Hb) as (c & Hc & Heq).
    destruct (HI b c Hc) as (H1 & H2 & H3). by rewrite Heq, Hs, Hl.
  - split; [by rewrite Hl|by rewrite Hs].
Qed.

Lemma Tidy_new a id : keeps (Tidy (Node:=Node) a id) shared_new.
Proof.
  intros w [HI [Hb1 Hb2]]. split.
  - intros b c. simpl. rewrite lookup_insert. case_decide as Hb.
    + subst b. intros [= <-]. simpl. split; [lia|]. split; constructor.
    + intros Hc. destruct (HI b c Hc) as (H1 & H2 & H3). split; [lia|done].
  - split; simpl; lia.
Qed.

Lemma Tidy_connect a id a0 (sl : SlotType Node) : keeps (Tidy a id) (connect a0 sl).
Proof.
  intros w HT. destruct (connect_cases a0 sl w) as [->|(c & cb & -> & Ha & ->)]; [done|].
  destruct HT as [HI [Hb1 Hb2]]. destruct (HI a0 c Ha) as (H1 & H2 & H3). split.
  - intros b c'. cbn [snd]. destruct (decide (a0 = b)) as [<-|Hb].
    + rewrite heap_with_object. intros [= <-]. unfold slot_ids. cbn [object impl_].
      rewrite impl_ids_grown. cbn [slot_addr]. split; [done|]. split.
      * apply NoDup_app. split; [done|]. split; [|apply NoDup_singleton].
        intros x Hx Hin%list_elem_of_singleton.
        pose proof (proj1 (Forall_forall _ _) H3 x Hx) as Hle. simpl in Hle. lia.
      * apply Forall_app. split.
        -- eapply Forall_impl; [exact H3|]. intros x Hx. simpl in *. lia.
        -- repeat constructor.
    + rewrite heap_with_object_ne by done. cbn [snd new_slot heap]. intros Hc.
      destruct (HI b c' Hc) as (H1' & H2' & H3'). split; [done|]. split; [done|].
      eapply Forall_impl; [exact H3'|]. intros x Hx. simpl in *. lia.
  - split; simpl; lia.
Qed.

Lemma Tidy_cancel a id (h : Connection) : keeps (Tidy (Node:=Node) a id) (Connection_disconnect h).
Proof.
  intros w HT.
  destruct (cancel_cases h w) as [->|(a0 & c & i & i' & Hr & Hid & Ha & Hi & Hd & ->)];
    [done|].
  destruct HT as [HI Hb]. destruct (HI a0 c Ha) as (H1 & H2 & H3).
  destruct (ImplIF_disconnect_ids i i' _ Hd) as [Hsub _].
  unfold slot_ids in H2, H3. rewrite Hi in H2, H3. split; [|done].
  intros b c'. cbn [snd]. destruct (decide (a0 = b)) as [<-|Hne].
  - rewrite heap_with_object. intros [= <-]. unfold slot_ids. cbn [object impl_].
    split; [done|]. split; [by eapply sublist_NoDup|].
    apply Forall_forall. intros x Hx.
    by apply (proj1 (Forall_forall _ _) H3 x), (elem_of_sublist _ _ _ Hx Hsub).
  - rewrite heap_with_object_ne by done. apply HI.
Qed.

Lemma Tidy_kept a id : kept_by_primitives (Tidy (Node:=Node) a id).
Proof.
  split.
  - apply Tidy_new.
  - intros a0 w. apply Tidy_objects_kept, objects_kept_copy.
  - intros a0 w. apply Tidy_objects_kept, objects_kept_release.
  - intros a0 o n w. apply Tidy_objects_kept, objects_kept_call.
  - intros a0 sl. apply Tidy_connect.
Qed.

Lemma reachable_Issued (T : Trait Node) w : reachable T w -> Issued w.
Proof.
  intros Hr. assert (H : Tidy 0 0 w); [|by destruct H].
  induction Hr as [|w w' _ IH Hs].
  - split; [|split; simpl; lia]. intros a c. simpl. by rewrite lookup_empty.
  - by eapply (step_keeps T _ (Tidy_kept 0 0) (Tidy_cancel 0 0)).
Qed.

(** *** A cancelled slot stays away *)








End IssuedFacts.



(* ------------------------------------------------------------------ *)
(** ** Storage modes and destroyed registries *)

Section LifetimeFacts.
Context {Node : Type}.
Implicit Types (w : World Node) (a b : Addr).

Lemma MultiAt_kept a : kept_by_primitives (MultiAt (Node:=Node) a).
Proof.
  assert (Hobj : forall w w', objects_kept w w' -> MultiAt a w -> MultiAt a w').
  { intros w w' (Hs & _ & Hobj) [Hle HM]. split; [by rewrite Hs|].
    intros c' Hc'. destruct (Hobj a c' Hc') as (c & Hc & ->). by apply HM. }
  split.
  - intros w [Hle HM]. split; [simpl; lia|]. intros c. simpl.
    rewrite lookup_insert_ne by lia. apply HM.
  - intros a0 w. apply Hobj, objects_kept_copy.
  - intros a0 w. apply Hobj, objects_kept_release.
  - intros a0 o n w. apply Hobj, objects_kept_call.
  - intros a0 sl w HM.
    destruct (connect_cases a0 sl w) as [->|(c & cb & -> & Ha & ->)]; [done|].
    destruct HM as [Hle HM]. split; [done|]. intros c'. cbn [snd].
    destruct (decide (a0 = a)) as [->|Hne].
    + rewrite heap_with_object. intros [= <-]. cbn [object impl_].
      destruct (HM c Ha) as (l & ->). by eexists.
    + rewrite heap_with_object_ne by done. apply HM.
Qed.

Lemma MultiAt_cancel a (h : Connection) :
  keeps (MultiAt (Node:=Node) a) (Connection_disconnect h).
Proof.
  intros w HM.
  destruct (cancel_cases h w) as [->|(a0 & c & i & i' & Hr & Hid & Ha & Hi & Hd & ->)];
    [done|].
  destruct HM as [Hle HM]. split; [done|]. intros c'. cbn [snd].
  destruct (decide (a0 = a)) as [->|Hne].
  - rewrite heap_with_object. intros [= <-]. cbn [object impl_].
    destruct (HM c Ha) as (l & Hl). rewrite Hl in Hi. injection Hi as <-.
    simpl in Hd. unfold MultiImpl_disconnect in Hd.
    destruct (list_erase _ _) as [l'| |]; [|done..]. injection Hd as <-. by eexists.
  - rewrite heap_with_object_ne by done. apply HM.
Qed.

Lemma Gone_kept a : kept_by_primitives (Gone (Node:=Node) a).
Proof.
  assert (Hobj : forall w w', objects_kept w w' -> Gone a w -> Gone a w').
  { intros w w' (Hs & _ & Hobj) [Hle HG]. split; [by rewrite Hs|].
    destruct (heap w' !! a) as [c'|] eqn:Hc'; [|done].
    destruct (Hobj a c' Hc') as (c & Hc & _). by rewrite HG in Hc. }
  split.
  - intros w [Hle HG]. split; [simpl; lia|]. simpl.
    by rewrite lookup_insert_ne by lia.
  - intros a0 w. apply Hobj, objects_kept_copy.
  - intros a0 w. apply Hobj, objects_kept_release.
  - intros a0 o n w. apply Hobj, objects_kept_call.
  - intros a0 sl w HG.
    destruct (connect_cases a0 sl w) as [->|(c & cb & -> & Ha & ->)]; [done|].
    destruct HG as [Hle HG]. split; [done|]. cbn [snd].
    rewrite heap_with_object_ne; [done|]. intros ->. by rewrite HG in Ha.
Qed.

Lemma Gone_cancel a (h : Connection) :
  keeps (Gone (Node:=Node) a) (Connection_disconnect h).
Proof.
  intros w HG.
  destruct (cancel_cases h w) as [->|(a0 & c & i & i' & Hr & Hid & Ha & Hi & Hd & ->)];
    [done|].
  destruct HG as [Hle HG]. split; [done|]. cbn [snd].
  rewrite heap_with_object_ne; [done|]. intros ->. by rewrite HG in Ha.
Qed.

End LifetimeFacts.

(** X6. Storage never goes back from Multi to Single: once a registry of
    a reachable world keeps its slots in a list, it does so in every
    later world in which it still exists, whatever is registered,
    cancelled, released or diffed in between; cancelling all callbacks
    leaves an empty list, not a Single storage. *)
Theorem X6_multi_storage_is_permanent {Node : Type} (T : Trait Node)
        (w w' : World Node) (a : Addr) (c : SigCell Node) (l : SlotListType Node) :
  reachable T w ->
  heap w !! a = Some c -> impl_ (object c) = Some (MultiImpl l) ->
  rtc (step T) w w' ->
  heap w' !! a = None
  \/ exists c' l', heap w' !! a = Some c' /\ impl_ (object c') = Some (MultiImpl l').
Proof.
  intros Hr Ha Hi Hs.
  assert (HM : MultiAt a w).
  { destruct (reachable_Issued T w Hr a c Ha) as (Hle & _). split; [done|].
    intros c0. rewrite Ha. intros [= <-]. by exists l. }
  destruct (steps_keep T _ (MultiAt_kept a) (MultiAt_cancel a) _ _ Hs HM) as [_ HM'].
  destruct (heap w' !! a) as [c'|]; [|by left].
  right. destruct (HM' c' eq_refl) as (l' & Hl'). by exists c', l'.
Qed.

Lemma X6_multi_storage_is_permanent_witness :
  let T := Json11.Json11Trait in
  let w := Scenario.world_two in
  let w' := snd (Connection_disconnect {| signalRef_ := Some 1; slotID_ := 2 |}
                   (snd (Connection_disconnect {| signalRef_ := Some 1; slotID_ := 1 |}
                           w))) in
  heap w' !! 1 = None
  \/ exists c' l', heap w' !! 1 = Some c' /\ impl_ (object c') = Some (MultiImpl l').
Proof.
  intros T w w'.
  apply (X6_multi_storage_is_permanent T w w' 1
           {| use_count := 2; object := {| impl_ := Some (MultiImpl Scenario.slots_two) |} |}
           Scenario.slots_two).
  - eapply reachable_step; [|apply (step_connect T 1 (Scenario.quiet 2))].
    eapply reachable_step; [|apply (step_connect T 1 (Scenario.quiet 1))].
    eapply reachable_step; [apply reachable_init|].
    apply (step_createSignal T (Scenario.path "a") (Mgr [])).
  - vm_compute. reflexivity.
  - reflexivity.
  - eapply rtc_l; [apply (step_cancel T {| signalRef_ := Some 1; slotID_ := 1 |})|].
    apply rtc_once. apply step_cancel.
Defined.

(** X7. A handle may outlive its registry: once the registry at an
    address that was handed out is destroyed, nothing the interface does
    brings an object back to that address, so in every later world
    [disconnect()] on a handle to it returns without touching anything. *)
Theorem X7_stale_handle_stays_inert {Node : Type} (T : Trait Node)
        (w w' : World Node) (a : Addr) (h : Connection) :
  a <= sigs_allocated w -> heap w !! a = None ->
  signalRef_ h = Some a ->
  rtc (step T) w w' ->
  heap w' !! a = None /\ Connection_disconnect h w' = (Ok tt, w').
Proof.
  intros Hle Ha Href Hs.
  destruct (steps_keep T _ (Gone_kept a) (Gone_cancel a) _ _ Hs (conj Hle Ha))
    as [_ Hgone].
  split; [done|]. apply Connection_disconnect_dead. right. right. by exists a.
Qed.

Lemma X7_stale_handle_stays_inert_witness :
  let T := Json11.Json11Trait in
  let h := {| signalRef_ := Some 1; slotID_ := 1 |} in
  let w := snd (shared_release 1 (snd (shared_new (Node:=Json11.Json) Scenario.world0))) in
  let w' := snd (createSignal (Scenario.path "a") (Mgr []) w) in
  heap w' !! 1 = None /\ Connection_disconnect h w' = (Ok tt, w').
Proof.
  intros T h w w'. apply (X7_stale_handle_stays_inert T w w' 1 h).
  - vm_compute. lia.
  - vm_compute. reflexivity.
  - reflexivity.
  - apply rtc_once. apply step_createSignal.
Defined.

(* ------------------------------------------------------------------ *)
(** ** Dispatch over several callbacks *)

Section DispatchFacts.
Context {Node : Type}.
Implicit Types (w : World Node) (a : Addr).

Lemma callable_slots (l : SlotListType Node) :
  forallb callable l = true -> exists cbs, l = map slot_of cbs.
Proof.
  induction l as [|sl l IH]; simpl; [by exists []|].
  intros [Hsl Hl]%andb_prop. destruct (IH Hl) as (cbs & ->).
  destruct sl as [[id [cb|]]|]; [|done..]. by exists ((id, cb) :: cbs).
Qed.

Lemma dispatch_eval a (o n : Node) cbs : forall w,
  fst (MultiImpl_onChanged a (map slot_of cbs) o n w) = first_failure o n cbs
  /\ trace (snd (MultiImpl_onChanged a (map slot_of cbs) o n w))
     = trace w ++ map (event_of a o n) (delivered o n cbs)
  /\ heap (snd (MultiImpl_onChanged a (map slot_of cbs) o n w)) = heap w.
Proof.
  induction cbs as [|[id cb] cbs IH]; intros w; simpl.
  - by rewrite app_nil_r.
  - unfold bind, invoke. simpl. destruct (cb_body cb o n) as [e|]; [done|].
    destruct (IH (log {| ev_sig := a; ev_slot := id; ev_cb := cb_id cb;
                         ev_old := o; ev_new := n |} w)) as (H1 & H2 & H3).
    split; [done|]. split; [|done]. rewrite H2. simpl. by rewrite <- app_assoc.
Qed.

End DispatchFacts.

(** X8. Dispatch in Multi storage. In a reachable world a registry in
    Multi storage holds genuine callbacks only; [operator()] calls them
    in storage order, stops at the first one that throws and ends with
    its exception (callbacks stored after it are not called, the ones
    before it were), and touches no registry. [connect] puts a new
    callback behind the stored ones, so storage order is registration
    order. *)
Theorem X8_multi_dispatch_in_order_until_throw {Node : Type} (T : Trait Node)
        (w : World Node) (a : Addr) (c : SigCell Node) (l : SlotListType Node) :
  reachable T w ->
  heap w !! a = Some c -> impl_ (object c) = Some (MultiImpl l) ->
  exists cbs,
    l = map slot_of cbs
    /\ (forall o n,
          fst (call a o n w) = first_failure o n cbs
          /\ trace (snd (call a o n w))
             = trace w ++ map (event_of a o n) (delivered o n cbs)
          /\ heap (snd (call a o n w)) = heap w)
    /\ (forall cb, exists c1,
          heap (snd (connect a (Some cb) w)) !! a = Some c1
          /\ impl_ (object c1)
             = Some (MultiImpl (map slot_of (cbs ++ [(S (slots_allocated w), cb)])))).
Proof.
  intros Hr Ha Hi.
  destruct (callable_slots l (reachable_ok T w Hr a c _ Ha Hi)) as (cbs & ->).
  exists cbs. split; [done|]. split.
  - intros o n. rewrite (call_eval _ _ _ _ _ Ha), Hi. apply dispatch_eval.
  - intros cb. rewrite (connect_eval _ _ _ _ Ha). cbn [snd].
    rewrite heap_with_object. eexists. split; [reflexivity|]. cbn [object impl_].
    rewrite Hi. simpl. by rewrite map_app.
Qed.

Lemma X8_multi_dispatch_in_order_until_throw_witness :
  let T := Json11.Json11Trait in
  let w := snd (connect 1 (Scenario.quiet 3)
                  (snd (connect 1 (Scenario.failing 2)
                          (snd (connect 1 (Scenario.quiet 1)
                                  (snd (createSignal (Scenario.path "a") (Mgr [])
                                          Scenario.world0))))))) in
  let l := [Some {| slot_addr := 1; slot_fn := Scenario.quiet 1 |};
            Some {| slot_addr := 2; slot_fn := Scenario.failing 2 |};
            Some {| slot_addr := 3; slot_fn := Scenario.quiet 3 |}] in
  exists cbs,
    l = map slot_of cbs
    /\ (forall o n,
          fst (call 1 o n w) = first_failure o n cbs
          /\ trace (snd (call 1 o n w))
             = trace w ++ map (event_of 1 o n) (delivered o n cbs)
          /\ heap (snd (call 1 o n w)) = heap w)
    /\ (forall cb, exists c1,
          heap (snd (connect 1 (Some cb) w)) !! 1 = Some c1
          /\ impl_ (object c1)
             = Some (MultiImpl (map slot_of (cbs ++ [(S (slots_allocated w), cb)])))).
Proof.
  intros T w l.
  apply (X8_multi_dispatch_in_order_until_throw T w 1
           {| use_count := 2; object := {| impl_ := Some (MultiImpl l) |} |} l).
  - eapply reachable_step; [|apply (step_connect T 1 (Scenario.quiet 3))].
    eapply reachable_step; [|apply (step_connect T 1 (Scenario.failing 2))].
    eapply reachable_step; [|apply (step_connect T 1 (Scenario.quiet 1))].
    eapply reachable_step; [apply reachable_init|].
    apply (step_createSignal T (Scenario.path "a") (Mgr [])).
  - vm_compute. reflexivity.
  - reflexivity.
Defined.

(* ------------------------------------------------------------------ *)
(** ** Looking up what [createSignal] stored *)

Section LookupFacts.
Context {Node : Type}.
Implicit Types (w : World Node) (a : Addr) (m : SignalMgr).

Lemma map_subscript_assign_ne k k' v es :
  k <> k' -> map_subscript k' (map_assign k v es) = map_subscript k' es.
Proof. intros Hne. unfold map_subscript. by rewrite map_find_assign_ne. Qed.

(** Grafting a registry at one key sequence leaves every other key
    sequence with the registry it had. *)
Lemma signalAt_graft_other rest : forall k m a k' rest',
  (k', rest') <> (k, rest) ->
  signalAt k' rest' (graft k rest m a) = signalAt k' rest' m.
Proof.
  induction rest as [|k1 r IH]; intros k [es] a k' rest' Hne; simpl graft;
    destruct rest' as [|k1' r'].
  - rewrite !signalAt_nil. simpl. rewrite map_subscript_assign_ne; [done|].
    intros ->. by apply Hne.
  - rewrite !signalAt_cons. simpl.
    destruct (decide (k = k')) as [<-|Hk].
    + by rewrite map_subscript_assign.
    + by rewrite map_subscript_assign_ne.
  - rewrite !signalAt_nil. simpl.
    destruct (decide (k = k')) as [<-|Hk].
    + by rewrite map_subscript_assign.
    + by rewrite map_subscript_assign_ne.
  - rewrite !signalAt_cons. simpl.
    destruct (decide (k = k')) as [<-|Hk].
    + rewrite map_subscript_assign. simpl. apply IH. intros [= -> ->]. by apply Hne.
    + by rewrite map_subscript_assign_ne.
Qed.

Lemma acquire_alive (existing : option Addr) w :
  (forall a, existing = Some a -> is_Some (heap w !! a)) ->
  exists a w1,
    acquire existing w = (Ok a, w1)
    /\ match existing with
       | Some a0 => a = a0
       | None => a = S (sigs_allocated w)
       end
    /\ is_Some (heap w1 !! a).
Proof.
  unfold acquire. destruct existing as [a|]; simpl.
  - intros H. destruct (H a eq_refl) as [c Ha].
    exists a. unfold bind, ret, shared_copy. rewrite Ha.
    eexists. split; [reflexivity|]. split; [done|]. simpl.
    by rewrite lookup_insert_eq.
  - intros _. unfold bind, ret, shared_new, shared_copy. simpl.
    rewrite lookup_insert_eq. eexists _, _. split; [reflexivity|]. split; [done|].
    simpl. by rewrite lookup_insert_eq.
Qed.

End LookupFacts.

(** X9. Creating and looking up a registry. For a non-empty path whose
    registry, if the tree has one, is alive, [createSignal] returns a
    registry; [getSignal] finds that registry at the path afterwards; a
    registry that was already stored there is the one returned, otherwise
    a new one is allocated; and [getSignal] at every path with other keys
    answers as before. *)
Theorem X9_getSignal_after_createSignal {Node : Type}
        (p : Path.t) (m : SignalMgr) (w : World Node) :
  Path.keys p <> [] ->
  (forall a, getSignal m p = Some a -> is_Some (heap w !! a)) ->
  exists a m' w1,
    createSignal p m w = (Ok (Some a, m'), w1)
    /\ getSignal m' p = Some a
    /\ is_Some (heap w1 !! a)
    /\ match getSignal m p with
       | Some a0 => a = a0
       | None => a = S (sigs_allocated w)
       end
    /\ forall q, Path.keys q <> Path.keys p -> getSignal m' q = getSignal m q.
Proof.
  intros Hne Hlive. destruct (Path.keys p) as [|k rest] eqn:Hk; [done|].
  rewrite (getSignal_keys m p k rest Hk) in *.
  destruct (acquire_alive (signalAt k rest m) w Hlive) as (a & w1 & Hacq & Hcase & Ha).
  exists a, (graft k rest m a), w1.
  split; [by apply createSignal_eval|].
  split; [by rewrite (getSignal_keys _ p k rest Hk), signalAt_graft|].
  split; [done|]. split; [done|].
  intros q Hq. destruct (Path.keys q) as [|k' rest'] eqn:Hkq.
  - unfold getSignal. by rewrite Hkq.
  - rewrite !(getSignal_keys _ q k' rest' Hkq). apply signalAt_graft_other.
    intros [= -> ->]. by apply Hq.
Qed.

Lemma X9_getSignal_after_createSignal_witness :
  let p := Scenario.path "a/b" in
  let m := graft "a" [] (Mgr []) 1 in
  let w := snd (createSignal (Scenario.path "a") (Mgr []) Scenario.world0) in
  exists a m' w1,
    createSignal p m w = (Ok (Some a, m'), w1)
    /\ getSignal m' p = Some a
    /\ is_Some (heap w1 !! a)
    /\ match getSignal m p with
       | Some a0 => a = a0
       | None => a = S (sigs_allocated w)
       end
    /\ forall q, Path.keys q <> Path.keys p -> getSignal m' q = getSignal m q.
Proof.
  intros p m w. apply (X9_getSignal_after_createSignal p m w).
  - discriminate.
  - intros a Ha. vm_compute in Ha. discriminate Ha.
Defined.

(* ------------------------------------------------------------------ *)
(** ** The diff drops no registry that holds a callback *)

Section KeepConnected.
Context {Node : Type} (T : Trait Node).
Implicit Types (w : World Node) (a : Addr).

Lemma connected_at_same_heap w w' a :
  heap w' !! a = heap w !! a -> connected_at w a -> connected_at w' a.
Proof. intros Hh (c & i & Hc & Hi & Hcon). exists c, i. by rewrite Hh. Qed.

Lemma compareAndNotify_keeps_connected a o n hc w :
  connected_at w a ->
  kept (Some a) (fst (compareAndNotify T (Some a) o n hc w)) = Some a.
Proof.
  intros (c & i & Hc & Hi & Hcon). unfold compareAndNotify, bind, lift.
  destruct (t_equal T o n) as [eq| |]; [|done..].
  rewrite (connected_eval _ _ _ Hc), Hi, Hcon.
  by destruct ((if negb eq then call a o n else ret tt) w) as [[[]|e|] w1].
Qed.

Lemma visitEntry_key rec o n hc (e : KeyType * MySignalAndChild) w :
  fst (snd (fst (visitEntry T rec o n hc e w))) = fst e.
Proof.
  destruct e as [key [sp sub]]. unfold visitEntry.
  destruct (t_get T o key) as [ov| |]; [|done..].
  destruct (t_get T n key) as [nv| |]; [|done..].
  destruct (recurse rec sub ov nv w) as [[[[|]| |] sub'] w1]; [| |done..].
  - by destruct (notify sp ov nv w1) as [[[]| |] w2].
  - by destruct (compareAndNotify T sp ov nv hc w1) as [[[hc' sp']| |] w2].
Qed.

Lemma visitEntry_keeps_connected rec o n hc (e : KeyType * MySignalAndChild) w :
  (forall s, child_ (snd e) = Some s -> rec_frame rec s) ->
  (forall s, child_ (snd e) = Some s -> rec_keeps_connected rec s) ->
  NoDup (entryAddrs e) ->
  forall rest a,
    entryAt (snd e) rest = Some a -> connected_at w a ->
    entryAt (snd (snd (fst (visitEntry T rec o n hc e w)))) rest = Some a.
Proof.
  intros Hframe Hrec Hnd rest a Hat Hcon.
  destruct e as [key [sp sub]]. unfold visitEntry. cbn [fst snd] in *.
  destruct (t_get T o key) as [ov| |]; [|done..].
  destruct (t_get T n key) as [nv| |]; [|done..].
  unfold entryAddrs in Hnd. cbn [fst snd child_ signalPtr_] in Hnd.
  apply NoDup_app in Hnd as (Hnds & Hdisj & _).
  assert (Hsub : (forall k' rest',
                    match sub with Some s => signalAt k' rest' s | None => None end
                    = Some a ->
                    match snd (fst (recurse rec sub ov nv w)) with
                    | Some s => signalAt k' rest' s
                    | None => None
                    end = Some a)
                 /\ (a ∉ childAddrs sub ->
                     heap (snd (recurse rec sub ov nv w)) !! a = heap w !! a)).
  { unfold recurse. destruct sub as [s|]; [|done].
    pose proof (Hrec s eq_refl ov nv w) as Hk.
    pose proof (Hframe s eq_refl ov nv w Hnds) as [_ Hf].
    destruct (rec s ov nv w) as [[r s'] w']. cbn [fst snd] in *. split.
    - intros k' rest' Hs. by apply Hk.
    - intros Hout. apply Hf. by right. }
  destruct Hsub as [Hkeep Hheap].
  destruct (recurse rec sub ov nv w) as [[r sub'] w1]. cbn [fst snd] in *.
  destruct rest as [|k' rest'].
  - simpl in Hat. subst sp.
    assert (Hw1 : connected_at w1 a).
    { apply (connected_at_same_heap w); [|done]. apply Hheap.
      intros Hin. apply (Hdisj a Hin). by apply list_elem_of_singleton. }
    destruct r as [[|]| |]; [| |done..].
    + by destruct (notify (Some a) ov nv w1) as [[[]| |] w2].
    + pose proof (compareAndNotify_keeps_connected a ov nv hc w1 Hw1) as Hk.
      by destruct (compareAndNotify T (Some a) ov nv hc w1) as [[[hc' sp']| |] w2].
  - simpl in Hat. specialize (Hkeep k' rest' Hat).
    destruct r as [[|]| |]; [| |done..].
    + by destruct (notify sp ov nv w1) as [[[]| |] w2].
    + by destruct (compareAndNotify T sp ov nv hc w1) as [[[hc' sp']| |] w2].
Qed.

Lemma loopEntries_keeps_connected rec o n es :
  Forall (fun e => forall s, child_ (snd e) = Some s -> rec_frame rec s) es ->
  Forall (fun e => forall s, child_ (snd e) = Some s -> rec_keeps_connected rec s) es ->
  forall hc w k rest a,
    NoDup (mapAddrs es) ->
    match map_find k es with Some v => entryAt v rest | None => None end = Some a ->
    connected_at w a ->
    match map_find k (snd (fst (loopEntries T rec o n es hc w))) with
    | Some v => entryAt v rest
    | None => None
    end = Some a.
Proof.
  induction es as [|e es IH]; intros Hframe Hrec hc w k rest a Hnd Hat Hcon; [done|].
  apply Forall_cons in Hframe as [Hf Hframe]. apply Forall_cons in Hrec as [Hr Hrec].
  rewrite mapAddrs_cons in Hnd. apply NoDup_app in Hnd as (Hnde & Hdisj & Hndes).
  rewrite loopEntries_cons.
  pose proof (visitEntry_key rec o n hc e w) as Hkey.
  pose proof (visitEntry_keeps_connected rec o n hc e w Hf Hr Hnde rest a) as Hvis.
  pose proof (visitEntry_frame T rec o n hc e w Hf Hnde) as [_ Hheap].
  destruct (visitEntry T rec o n hc e w) as [[r [k' v']] w1]. cbn [fst snd] in *.
  destruct e as [ke ve]. cbn [fst snd] in *. subst k'.
  simpl in Hat.
  destruct (String.eqb k ke) eqn:Hk.
  - specialize (Hvis Hat Hcon).
    destruct r as [hc'| |]; [|by simpl; rewrite Hk..].
    destruct (loopEntries T rec o n es hc' w1) as [[r2 rest2] w2].
    simpl. by rewrite Hk.
  - assert (Hin : a ∈ mapAddrs es).
    { destruct (map_find k es) as [v|] eqn:Hfind; [|done].
      apply (map_find_addrs _ _ _ Hfind). by apply (entryAt_elem _ rest). }
    assert (Hw1 : connected_at w1 a).
    { apply (connected_at_same_heap w); [|done]. apply Hheap. right.
      intros Hine. by apply (Hdisj a Hine). }
    destruct r as [hc'| |]; [|by simpl; rewrite Hk..].
    specialize (IH Hframe Hrec hc' w1 k rest a Hndes Hat Hw1).
    destruct (loopEntries T rec o n es hc' w1) as [[r2 rest2] w2].
    simpl in *. by rewrite Hk.
Qed.

Lemma onChanged_keeps_connected m : rec_keeps_connected (onChanged T) m.
Proof.
  induction m as [es IH] using SignalMgr_nested_ind.
  intros o n w k rest a Hnd Hat Hcon. rewrite onChanged_Mgr.
  destruct (notBothEmpty T o n) as [[|]| |]; [|done..].
  rewrite sigAddrs_Mgr in Hnd. rewrite signalAt_Mgr in Hat.
  assert (Hframe : Forall (fun e => forall s, child_ (snd e) = Some s ->
                                    rec_frame (onChanged T) s) es).
  { apply Forall_forall. intros e _ s _. apply onChanged_frame. }
  pose proof (loopEntries_keeps_connected (onChanged T) o n es Hframe IH
                false w k rest a Hnd Hat Hcon) as H.
  destruct (loopEntries T (onChanged T) o n es false w) as [[r es'] w'].
  cbn [fst snd] in *. by rewrite signalAt_Mgr.
Qed.

End KeepConnected.

(** X10. Replacing the document never loses a registration. If the
    registry stored at a path holds a callback (and the tree holds no
    registry twice), then after [set(newData)], however the diff ends
    (normally, by an exception of the adapter or of a callback),
    [getSignal] still finds that registry at that path and the registry,
    with its callbacks and reference count, is as before. Only
    registries without a callback are ever dropped. *)
Theorem X10_set_keeps_connected_registries {Node : Type} (T : Trait Node)
        (t : ObservableTree Node) (w : World Node) (d : Node)
        (p : Path.t) (a : Addr) :
  NoDup (sigAddrs (signalMgr_ t)) ->
  getSignal (signalMgr_ t) p = Some a ->
  connected_at w a ->
  getSignal (signalMgr_ (snd (fst (set T d t w)))) p = Some a
  /\ heap (snd (set T d t w)) !! a = heap w !! a.
Proof.
  intros Hnd Hat Hcon.
  destruct (Path.keys p) as [|k rest] eqn:Hk.
  { unfold getSignal in Hat. by rewrite Hk in Hat. }
  rewrite (getSignal_keys _ p k rest Hk) in Hat.
  rewrite (getSignal_keys _ p k rest Hk).
  pose proof (onChanged_keeps_connected T (signalMgr_ t) (root_ t) d w k rest a
                Hnd Hat Hcon) as Hkeep.
  pose proof (onChanged_frame T (signalMgr_ t) (root_ t) d w Hnd) as [_ Hheap].
  assert (Hmgr : signalMgr_ (snd (fst (set T d t w)))
                 = snd (fst (onChanged T (signalMgr_ t) (root_ t) d w))).
  { unfold set.
    by destruct (onChanged T (signalMgr_ t) (root_ t) d w) as [[[b|e|] m'] w']. }
  rewrite Hmgr, set_world. split; [done|].
  apply Hheap. left. by apply (signalAt_elem rest k).
Qed.

Lemma X10_set_keeps_connected_registries_witness :
  let s := Scenario.watched (Scenario.failing 1) Json11.JNull in
  getSignal (signalMgr_ (snd (fst (set Json11.Json11Trait (Json11.JNumber 5)
                                       (fst s) (snd s)))))
            (Scenario.path "a") = Some 1
  /\ heap (snd (set Json11.Json11Trait (Json11.JNumber 5) (fst s) (snd s))) !! 1
     = heap (snd s) !! 1.
Proof.
  intros s.
  apply (X10_set_keeps_connected_registries Json11.Json11Trait (fst s) (snd s)
           (Json11.JNumber 5) (Scenario.path "a") 1).
  - apply (bool_decide_unpack _ (dec := NoDup_dec (A:=nat) _)). vm_compute. exact I.
  - vm_compute. reflexivity.
  - eexists _, _. split; [vm_compute; reflexivity|]. split; reflexivity.
Defined.

(** X11. The invariant of the facade. In every state a client can bring
    a freshly constructed tree to by registering, replacing the
    document, writing at a path and cancelling, in any order and
    whatever the outcomes: every map of the registry tree lists its keys
    in increasing order, no registry is stored at two places of the
    tree, and every registry the tree stores is alive, owned (its
    reference count is at least one) and was allocated in the past. *)
Theorem X11_facade_keeps_registries_owned {Node : Type} (T : Trait Node)
        (root : Node) (s : ObservableTree Node * World Node) :
  facade_reachable T root s ->
  Inv (fst s) (snd s) /\ wf (signalMgr_ (fst s)) (snd s).
Proof.
  intros Hr. split; [by eapply facade_reachable_Inv|by eapply facade_reachable_wf].
Qed.

Lemma X11_facade_keeps_registries_owned_witness :
  let T := Json11.Json11Trait in
  let r1 := registerAt (Scenario.path "a/b") (Scenario.quiet 1)
              Scenario.tree0 Scenario.world0 in
  let r2 := registerAt (Scenario.path "a") (Scenario.quiet 2) (snd (fst r1)) (snd r1) in
  let r3 := set T (Scenario.doc_abcd 1) (snd (fst r2)) (snd r2) in
  let s := (snd (fst r3), snd r3) in
  Inv (fst s) (snd s) /\ wf (signalMgr_ (fst s)) (snd s).
Proof.
  intros T r1 r2 r3 s.
  apply (X11_facade_keeps_registries_owned T Json11.JNull s).
  eapply facade_next;
    [|apply (facade_set T (Scenario.doc_abcd 1) (snd (fst r2)) (snd r2))].
  eapply facade_next;
    [|apply (facade_register T (Scenario.path "a") (Scenario.quiet 2)
               (snd (fst r1)) (snd r1))].
  eapply facade_next;
    [apply facade_init
    |apply (facade_register T (Scenario.path "a/b") (Scenario.quiet 1)
              Scenario.tree0 Scenario.world0)].
Defined.

(* ------------------------------------------------------------------ *)
(** ** The adapter of the test: access by path *)

Section Json11Paths.
Import Json11.

Lemma get_keys_null ks : get_keys JNull ks = JNull.
Proof. by destruct ks. Qed.

Lemma get_keys_cons j k ks :
  get_keys j (k :: ks) = get_keys (subscript j k) ks.
Proof.
  simpl. destruct (is_null (subscript j k)) eqn:Hn; [|done].
  apply is_null_inv in Hn. by rewrite Hn, get_keys_null.
Qed.

Lemma get_keys_app j ks1 : forall ks2,
  get_keys j (ks1 ++ ks2) = get_keys (get_keys j ks1) ks2.
Proof.
  revert j. induction ks1 as [|k ks1 IH]; intros j ks2; [done|].
  rewrite <- app_comm_cons, !get_keys_cons. apply IH.
Qed.

Lemma extract_get_keys j ks : extract Json11Trait j ks = Ok (get_keys j ks).
Proof.
  revert j. induction ks as [|k ks IH]; intros j; [done|].
  rewrite get_keys_cons. simpl. apply IH.
Qed.

End Json11Paths.

(** X12. Access by path in the adapter of the test. [get(j, path)]
    never fails; it is the value reached by one [get(j, key)] per key,
    which is the value the recursive diff compares at that path; over
    [operator/] it composes ([get(j, p / q)] is [get(get(j, p), q)], and
    [get(j, p / key)] is [get(get(j, p), key)]); and once a prefix of the
    path leads to null the result is null. *)
Theorem X12_json_get_composes (j : Json11.Json) (p q : Path.t) (k : KeyType) :
  t_get_path Json11.Json11Trait j p = extract Json11.Json11Trait j (Path.keys p)
  /\ exists v,
       t_get_path Json11.Json11Trait j p = Ok v
       /\ t_get_path Json11.Json11Trait j (Path.div p q)
          = t_get_path Json11.Json11Trait v q
       /\ t_get_path Json11.Json11Trait j (Path.div_key p k)
          = t_get Json11.Json11Trait v k
       /\ (Json11.is_null v = true ->
           t_get_path Json11.Json11Trait j (Path.div p q) = Ok Json11.JNull).
Proof.
  split; [by rewrite extract_get_keys|].
  exists (Json11.get_keys j (Path.keys p)). split; [done|].
  assert (Hdiv : t_get_path Json11.Json11Trait j (Path.div p q)
                 = t_get_path Json11.Json11Trait (Json11.get_keys j (Path.keys p)) q).
  { simpl. unfold Path.keys at 1. simpl. by rewrite get_keys_app. }
  split; [done|]. split.
  - simpl. unfold Path.keys at 1. simpl. rewrite get_keys_app.
    by rewrite get_keys_cons.
  - intros Hn%is_null_inv. rewrite Hdiv, Hn. simpl. by rewrite get_keys_null.
Qed.

(* ------------------------------------------------------------------ *)
(** ** Dispatch reads the registries only *)

Section DispatchDetermined.
Context {Node : Type}.
Implicit Types (w : World Node) (a : Addr).






End DispatchDetermined.


(** X14. Where cancelling twice is safe. If the registry a handle
    refers to is gone, or is not in Multi storage (it never held two
    callbacks at once), then [disconnect()] returns, a second
    [disconnect()] right after it returns as well and changes nothing
    any more, no callback is called, and no other registry is touched. *)
Theorem X14_cancel_twice_outside_multi {Node : Type}
        (h : Connection) (w : World Node) :
  (forall a c l, signalRef_ h = Some a -> heap w !! a = Some c ->
                 impl_ (object c) <> Some (MultiImpl l)) ->
  exists w1,
    Connection_disconnect h w = (Ok tt, w1)
    /\ Connection_disconnect h w1 = (Ok tt, w1)
    /\ trace w1 = trace w
    /\ forall b, signalRef_ h <> Some b -> heap w1 !! b = heap w !! b.
Proof.
  intros Hmode.
  destruct (decide (slotID_ h = SlotIDInvalid)) as [Hid|Hid].
  { exists w. rewrite (Connection_disconnect_dead h w) by by left. done. }
  destruct (signalRef_ h) as [a|] eqn:Href.
  2:{ exists w. rewrite (Connection_disconnect_dead h w) by (right; by left). done. }
  destruct (heap w !! a) as [c|] eqn:Ha.
  2:{ exists w. rewrite (Connection_disconnect_dead h w); [done|].
      right. right. by exists a. }
  destruct (impl_ (object c)) as [[s|l]|] eqn:Hi.
  - destruct (Connection_disconnect_single_twice h a w c s Href Hid Ha Hi)
      as (w1 & H1 & H2 & H3).
    exists w1. split; [done|]. split; [done|]. split; [done|].
    intros b Hb. rewrite (Connection_disconnect_eval _ _ _ _ Href Hid Ha) in H1.
    rewrite (disconnect_eval _ _ _ _ _ Ha Hi) in H1. simpl in H1.
    unfold SingleImpl_disconnect in H1.
    destruct (get_ptr s =? slotID_ h); injection H1 as <-;
      (rewrite heap_with_object_ne; [done|congruence]).
  - by destruct (Hmode a c l eq_refl Ha).
  - assert (H : Connection_disconnect h w = (Ok tt, w)).
    { rewrite (Connection_disconnect_eval _ _ _ _ Href Hid Ha).
      unfold disconnect, bind, deref. by rewrite Ha, Hi. }
    exists w. by rewrite H.
Qed.

Lemma X14_cancel_twice_outside_multi_witness :
  let h := {| signalRef_ := Some 1; slotID_ := 1 |} in
  let w := snd (connect 1 (Scenario.quiet 1)
                  (snd (createSignal (Scenario.path "a") (Mgr []) Scenario.world0))) in
  exists w1,
    Connection_disconnect h w = (Ok tt, w1)
    /\ Connection_disconnect h w1 = (Ok tt, w1)
    /\ trace w1 = trace w
    /\ forall b, signalRef_ h <> Some b -> heap w1 !! b = heap w !! b.
Proof.
  intros h w. apply (X14_cancel_twice_outside_multi h w).
  intros a c l [= <-] Hc Hi. vm_compute in Hc. injection Hc as <-. discriminate Hi.
Defined.

(* ------------------------------------------------------------------ *)
(** ** Registration through the facade *)

Section RegistrationFacts.
Context {Node : Type}.
Implicit Types (w : World Node) (a : Addr).

Lemma acquire_slots_trace (existing : option Addr) w :
  slots_allocated (snd (acquire existing w)) = slots_allocated w
  /\ trace (snd (acquire existing w)) = trace w.
Proof.
  unfold acquire, bind, ret, shared_new, shared_copy.
  destruct existing as [a|]; simpl.
  - by destruct (heap w !! a).
  - by rewrite lookup_insert_eq.
Qed.

Lemma grown_connected (i0 : option (ImplIF Node)) (cell : SlotCell Node) :
  ImplIF_connected (grown i0 cell) = true.
Proof. destruct i0 as [[[s|]|l]|]; simpl; try done. by destruct l. Qed.

End RegistrationFacts.

(** X15. Registration through the facade cannot fail. In every state
    reached from a new tree through the facade, registering a callback
    at a non-empty path ([modificationSignal(path)->connect(cb)])
    returns a connected handle: it refers to the registry that
    [getSignal] then finds at the path, carries the slot id handed out
    by this call, the registry holds a callback afterwards, and neither
    the document nor the trace of calls changes. *)
Theorem X15_registration_succeeds {Node : Type} (T : Trait Node) (root : Node)
        (t : ObservableTree Node) (w : World Node)
        (p : Path.t) (cb : Callback Node) :
  facade_reachable T root (t, w) ->
  Path.keys p <> [] ->
  exists a t' w',
    registerAt p (Some cb) t w =
    (Ok {| signalRef_ := Some a; slotID_ := S (slots_allocated w) |}, t', w')
    /\ getSignal (signalMgr_ t') p = Some a
    /\ connected_at w' a
    /\ root_ t' = root_ t
    /\ trace w' = trace w.
Proof.
  intros Hr Hne. destruct (facade_reachable_Inv T root _ Hr) as (Hs & Hnd & Hall).
  cbn [fst snd] in *.
  destruct (Path.keys p) as [|k rest] eqn:Hk; [done|].
  destruct (acquire_world (signalAt k rest (signalMgr_ t)) w)
    as (a & c1 & w1 & Hacq & Ha1 & Hc1 & _).
  { intros a Hat%signalAt_elem. by apply (proj1 (Forall_forall _ _) Hall). }
  destruct (acquire_slots_trace (signalAt k rest (signalMgr_ t)) w) as [Hsl Htr].
  rewrite Hacq in Hsl, Htr. cbn [snd] in Hsl, Htr.
  destruct (registerAt_eval p k rest t w a w1 c1 cb Hk Hacq Ha1 Hc1)
    as (w2 & Hreg & Ha2 & _ & Htr2).
  rewrite Hsl in Hreg. eexists a, _, w2. split; [exact Hreg|]. cbn [signalMgr_ root_].
  split; [by rewrite (getSignal_keys _ p k rest Hk), signalAt_graft|].
  split; [|split; [done|by rewrite Htr2]].
  eexists _, _. split; [exact Ha2|]. split; [reflexivity|]. apply grown_connected.
Qed.

Lemma X15_registration_succeeds_witness :
  let T := Json11.Json11Trait in
  let r1 := registerAt (Scenario.path "a") (Scenario.quiet 1)
              Scenario.tree0 Scenario.world0 in
  let t := snd (fst r1) in
  let w := snd r1 in
  let p := Scenario.path "a/b" in
  exists a t' w',
    registerAt p (Some (Scenario.quiet_cb 2)) t w =
    (Ok {| signalRef_ := Some a; slotID_ := S (slots_allocated w) |}, t', w')
    /\ getSignal (signalMgr_ t') p = Some a
    /\ connected_at w' a
    /\ root_ t' = root_ t
    /\ trace w' = trace w.
Proof.
  intros T r1 t w p.
  apply (X15_registration_succeeds T Json11.JNull t w p (Scenario.quiet_cb 2)).
  - eapply facade_next;
      [apply facade_init
      |apply (facade_register T (Scenario.path "a") (Scenario.quiet 1)
                Scenario.tree0 Scenario.world0)].
  - discriminate.
Defined.

(* ------------------------------------------------------------------ *)
(** ** Splitting a joined string *)

Section PathJoin.
Import Path.

Lemma toKeys_loop_acc sep rest : forall pending acc,
  toKeys_loop sep pending rest acc
  = (acc ++ fst (toKeys_loop sep pending rest []),
     snd (toKeys_loop sep pending rest [])).
Proof.
  induction rest as [|c rest IH]; intros pending acc; simpl.
  - by rewrite app_nil_r.
  - destruct (Ascii.eqb c sep).
    + rewrite IH.
      rewrite (IH EmptyString (if negb (Ascii.eqb (deref_istart pending c) sep)
                               then [pending] else [])).
      cbn [fst snd].
      by destruct (negb (Ascii.eqb (deref_istart pending c) sep));
        rewrite ?app_assoc, ?app_nil_r.
    + apply IH.
Qed.

Lemma toKeys_join a b sep :
  has_char zero a = false ->
  toKeys (String.append a (String sep b)) sep = toKeys a sep ++ toKeys b sep.
Proof.
  intros Hz. unfold toKeys. rewrite toKeys_loop_app.
  destruct (toKeys_loop sep EmptyString a []) as [ka pa] eqn:Ha. cbn [fst snd].
  destruct (toKeys_loop_plain sep zero a EmptyString [] ka pa
              Hz eq_refl eq_refl (Forall_nil_2 _) Ha) as (_ & Hp & Hpz).
  cbn [toKeys_loop]. rewrite Ascii.eqb_refl. rewrite toKeys_loop_acc.
  destruct (toKeys_loop sep EmptyString b []) as [kb pb]. cbn [fst snd].
  assert (Hacc : (if negb (Ascii.eqb (deref_istart pa sep) sep)
                  then ka ++ [pa] else ka)
                 = match pa with
                   | EmptyString => ka
                   | _ =>
                       match (if Ascii.eqb (back pa) zero
                              then drop_back pa else pa) with
                       | EmptyString => ka
                       | _ => ka ++ [if Ascii.eqb (back pa) zero
                                     then drop_back pa else pa]
                       end
                   end).
  { destruct pa as [|c pa]; simpl; [by rewrite Ascii.eqb_refl|].
    simpl in Hp. apply orb_false_iff in Hp as [Hc _]. rewrite Hc. simpl.
    assert (Hb : back (String c pa) <> zero) by by apply back_no_zero.
    apply Ascii.eqb_neq in Hb. simpl in Hb. by rewrite Hb. }
  destruct pb as [|c pb]; [by f_equal|].
  destruct (if Ascii.eqb (back (String c pb)) zero
            then drop_back (String c pb) else String c pb); [by f_equal|].
  rewrite app_assoc. by do 2 f_equal.
Qed.

End PathJoin.

(** X16. Splitting distributes over joining: for every separator and
    every two strings, the first without NUL character, the path built
    from the strings joined by the separator has the keys of the path of
    the first string followed by the keys of the path of the second, so
    [Path(a + sep + b, sep) == Path(a, sep) / Path(b, sep)]. *)
Theorem X16_split_of_joined_strings (a b : string) (sep : Path.Sep) :
  Path.has_char zero a = false ->
  Path.keys (Path.of_string (String.append a (String sep b)) sep)
  = Path.keys (Path.of_string a sep) ++ Path.keys (Path.of_string b sep)
  /\ Path.eqb (Path.of_string (String.append a (String sep b)) sep)
              (Path.div (Path.of_string a sep) (Path.of_string b sep)) = true.
Proof.
  intros Hz. unfold Path.eqb, Path.div, Path.keys, Path.of_keys, Path.of_string.
  cbn [Path.keys_]. rewrite (toKeys_join a b sep Hz). split; [done|].
  by apply keys_eqb_eq.
Qed.

Lemma X16_split_of_joined_strings_witness :
  let a := "/config//usb"%string in
  let b := "enabled/"%string in
  let sep := Path.default_sep in
  Path.keys (Path.of_string (String.append a (String sep b)) sep)
  = Path.keys (Path.of_string a sep) ++ Path.keys (Path.of_string b sep)
  /\ Path.eqb (Path.of_string (String.append a (String sep b)) sep)
              (Path.div (Path.of_string a sep) (Path.of_string b sep)) = true.
Proof.
  intros a b sep. apply (X16_split_of_joined_strings a b sep). reflexivity.
Defined.

(* ------------------------------------------------------------------ *)
(** ** The first cancel of a handle *)

Section FirstCancel.
Context {Node : Type}.
Implicit Types (w : World Node) (a b : Addr) (id : SlotIDType).






End FirstCancel.



(* ------------------------------------------------------------------ *)
(** ** A changed value is notified *)

Section NotifyFacts.
Context {Node : Type} (T : Trait Node).
Implicit Types (w : World Node) (a : Addr).

Lemma connect_trace a (sl : SlotType Node) w : trace (snd (connect a sl w)) = trace w.
Proof. by destruct (connect_cases a sl w) as [->|(c & cb & -> & Ha & ->)]. Qed.

Lemma Extends_kept pre : kept_by_primitives (Extends (Node:=Node) pre).
Proof.
  split.
  - by intros w.
  - intros a w (evs & Ht). exists evs. by rewrite shared_copy_trace.
  - intros a w (evs & Ht). exists evs. by rewrite shared_release_trace.
  - intros a o n w (evs & Ht). destruct (call_events a o n w) as (evs' & Ht' & _).
    exists (evs ++ evs'). by rewrite Ht', Ht, app_assoc.
  - intros a sl w (evs & Ht). exists evs. by rewrite connect_trace.
Qed.

Lemma Fired_kept pre a ov nv : kept_by_primitives (Fired (Node:=Node) pre a ov nv).
Proof.
  split.
  - by intros w.
  - intros a0 w (evs & Ht & He). exists evs. by rewrite shared_copy_trace.
  - intros a0 w (evs & Ht & He). exists evs. by rewrite shared_release_trace.
  - intros a0 o n w (evs & Ht & He).
    destruct (call_events a0 o n w) as (evs' & Ht' & _).
    exists (evs ++ evs'). split; [by rewrite Ht', Ht, app_assoc|].
    apply Exists_app. by left.
  - intros a0 sl w (evs & Ht & He). exists evs. by rewrite connect_trace.
Qed.

Lemma Extends_refl w : Extends (trace w) w.
Proof. exists []. by rewrite app_nil_r. Qed.

Lemma Fired_after pre a ov nv w1 w2 :
  Extends pre w1 -> Fired (trace w1) a ov nv w2 -> Fired pre a ov nv w2.
Proof.
  intros (evs1 & Ht1) (evs2 & Ht2 & He). exists (evs1 ++ evs2).
  split; [by rewrite Ht2, Ht1, app_assoc|]. apply Exists_app. by right.
Qed.

Lemma holds_callback_same_heap w w' a :
  heap w' !! a = heap w !! a -> holds_callback w a -> holds_callback w' a.
Proof. intros Hh (c & i & Hc & Hi & H). exists c, i. by rewrite Hh. Qed.

(** A registry that holds a callback calls it, however the dispatch
    ends. *)
Lemma call_fires a o n w :
  holds_callback w a -> Fired (trace w) a o n (snd (call a o n w)).
Proof.
  intros (c & i & Hc & Hi & Hcon & Hok). rewrite (call_eval _ _ _ _ _ Hc), Hi.
  destruct i as [[sc|]|l]; simpl in *; [|done|].
  - destruct (slot_fn sc) as [cb|] eqn:Hf; [|done]. unfold invoke. rewrite Hf.
    eexists [_]. split; [by destruct (cb_body cb o n)|].
    apply Exists_cons. by left.
  - destruct l as [|[sc|] l]; [done| |done]. simpl in *.
    destruct (slot_fn sc) as [cb|] eqn:Hf; [|done]. unfold bind, invoke. rewrite Hf.
    set (ev := {| ev_sig := a; ev_slot := slot_addr sc; ev_cb := cb_id cb;
                  ev_old := o; ev_new := n |}).
    assert (Hfirst : Fired (trace w) a o n (log ev w)).
    { exists [ev]. split; [done|]. apply Exists_cons. by left. }
    destruct (cb_body cb o n) as [e|]; [done|].
    destruct (MultiImpl_onChanged_events a l o n (log ev w)) as (evs & Ht & _).
    destruct Hfirst as (evs1 & Ht1 & He1). exists (evs1 ++ evs).
    split; [by rewrite Ht, Ht1, app_assoc|]. apply Exists_app. by left.
Qed.

Lemma compareAndNotify_fires a ov nv hc w :
  holds_callback w a -> t_equal T ov nv = Ok false ->
  Fired (trace w) a ov nv (snd (compareAndNotify T (Some a) ov nv hc w)).
Proof.
  intros Hh Heq. pose proof (call_fires a ov nv w Hh) as Hf.
  destruct Hh as (c & i & Hc & Hi & Hcon & Hok).
  unfold compareAndNotify, bind, lift. rewrite Heq.
  rewrite (connected_eval _ _ _ Hc), Hi, Hcon. cbn [negb].
  by destruct (call a ov nv w) as [[[]|e|] w1].
Qed.

Hypothesis Hempty : empty_alike T.

Lemma visitEntry_notifies o n hc (e : KeyType * MySignalAndChild) w rest a ov nv :
  (forall s, child_ (snd e) = Some s -> rec_notifies T (onChanged T) s) ->
  NoDup (entryAddrs e) ->
  entryAt (snd e) rest = Some a -> holds_callback w a ->
  extract T o (fst e :: rest) = Ok ov -> extract T n (fst e :: rest) = Ok nv ->
  t_equal T ov nv = Ok false ->
  is_Ok (fst (fst (visitEntry T (onChanged T) o n hc e w))) = true ->
  Fired (trace w) a ov nv (snd (visitEntry T (onChanged T) o n hc e w)).
Proof using Type*.
  intros Hrec Hnd Hat Hh Ho Hn Heq.
  destruct e as [key [sp sub]]. cbn [fst snd] in *. simpl in Ho, Hn.
  unfold visitEntry.
  destruct (t_get T o key) as [ov1| |]; [|done..].
  destruct (t_get T n key) as [nv1| |]; [|done..].
  unfold entryAddrs in Hnd. cbn [fst snd child_ signalPtr_] in Hnd.
  apply NoDup_app in Hnd as (Hnds & Hdisj & _).
  assert (Hsub : Extends (trace w) (snd (recurse (onChanged T) sub ov1 nv1 w))
                 /\ (a ∉ childAddrs sub ->
                     heap (snd (recurse (onChanged T) sub ov1 nv1 w)) !! a
                     = heap w !! a)
                 /\ (forall k' rest' s, rest = k' :: rest' -> sub = Some s ->
                       is_Ok (fst (fst (recurse (onChanged T) sub ov1 nv1 w))) = true ->
                       Fired (trace w) a ov nv
                             (snd (recurse (onChanged T) sub ov1 nv1 w)))).
  { unfold recurse. destruct sub as [s|].
    2:{ split; [apply Extends_refl|]. split; [done|]. by intros ? ? ? _ ?. }
    pose proof (onChanged_keeps T _ (Extends_kept (trace w)) s ov1 nv1 w
                  (Extends_refl w)) as Hext.
    pose proof (onChanged_frame T s ov1 nv1 w Hnds) as [_ Hf].
    pose proof (Hrec s eq_refl ov1 nv1 w) as Hnot.
    destruct (onChanged T s ov1 nv1 w) as [[r s'] w']. cbn [fst snd] in *.
    split; [done|]. split; [by intros Hout; apply Hf; right|].
    intros k' rest' s0 -> [= <-] Hok. simpl in Hat.
    by apply (Hnot k' rest' a ov nv). }
  destruct Hsub as (Hext & Hheap & Hdeep).
  destruct (recurse (onChanged T) sub ov1 nv1 w) as [[r sub'] w1]. cbn [fst snd] in *.
  destruct rest as [|k' rest'].
  - simpl in Hat, Ho, Hn. subst sp. injection Ho as ->. injection Hn as ->.
    assert (Hw1 : holds_callback w1 a).
    { apply (holds_callback_same_heap w); [|done]. apply Hheap.
      intros Hin. apply (Hdisj a Hin). by apply list_elem_of_singleton. }
    destruct r as [[|]| |]; [| |done..]; intros _.
    + pose proof (call_fires a ov nv w1 Hw1) as Hf. simpl.
      apply (Fired_after _ _ _ _ w1); [done|].
      by destruct (call a ov nv w1) as [[[]| |] w2].
    + pose proof (compareAndNotify_fires a ov nv hc w1 Hw1 Heq) as Hf.
      apply (Fired_after _ _ _ _ w1); [done|].
      by destruct (compareAndNotify T (Some a) ov nv hc w1) as [[[hc' sp']| |] w2].
  - simpl in Hat. destruct sub as [s|]; [|done].
    destruct r as [[|]| |]; [| |done..]; intros _.
    + specialize (Hdeep k' rest' s eq_refl eq_refl eq_refl).
      pose proof (keeps_notify T _ (Fired_kept _ _ _ _) sp ov1 nv1 w1 Hdeep) as Hk.
      by destruct (notify sp ov1 nv1 w1) as [[[]| |] w2].
    + specialize (Hdeep k' rest' s eq_refl eq_refl eq_refl).
      pose proof (keeps_compareAndNotify T _ (Fired_kept _ _ _ _) sp ov1 nv1 hc w1 Hdeep)
        as Hk.
      by destruct (compareAndNotify T sp ov1 nv1 hc w1) as [[[hc' sp']| |] w2].
Qed.

Lemma loopEntries_notifies o n es k rest a ov nv :
  Forall (fun e => forall s, child_ (snd e) = Some s ->
                   rec_notifies T (onChanged T) s) es ->
  forall hc w,
    NoDup (mapAddrs es) ->
    match map_find k es with Some v => entryAt v rest | None => None end = Some a ->
    holds_callback w a ->
    extract T o (k :: rest) = Ok ov -> extract T n (k :: rest) = Ok nv ->
    t_equal T ov nv = Ok false ->
    is_Ok (fst (fst (loopEntries T (onChanged T) o n es hc w))) = true ->
    Fired (trace w) a ov nv (snd (loopEntries T (onChanged T) o n es hc w)).
Proof using Type*.
  induction 1 as [|e es He Hes IH]; intros hc w Hnd Hat Hh Ho Hn Heq; [done|].
  rewrite mapAddrs_cons in Hnd. apply NoDup_app in Hnd as (Hnde & Hdisj & Hndes).
  rewrite loopEntries_cons.
  assert (Hkeep : forall P, kept_by_primitives P -> forall hc' w1,
            P w1 -> P (snd (loopEntries T (onChanged T) o n es hc' w1))).
  { intros P HP hc' w1. apply (loopEntries_keeps T P HP).
    apply Forall_forall. intros e0 _ s _. by apply onChanged_keeps. }
  assert (Hvkeep : forall P, kept_by_primitives P ->
            P w -> P (snd (visitEntry T (onChanged T) o n hc e w))).
  { intros P HP. apply (visitEntry_keeps T P HP).
    intros s _. by apply onChanged_keeps. }
  pose proof (visitEntry_frame T (onChanged T) o n hc e w
                (fun s _ => onChanged_frame T s) Hnde) as [_ Hheap].
  destruct e as [ke ve]. simpl in Hat.
  destruct (String.eqb k ke) eqn:Hk.
  - apply String.eqb_eq in Hk. subst ke.
    pose proof (visitEntry_notifies o n hc (k, ve) w rest a ov nv He Hnde Hat Hh
                  Ho Hn Heq) as Hvis.
    destruct (visitEntry T (onChanged T) o n hc (k, ve) w) as [[[hc'| |] e'] w1];
      cbn [fst snd] in *; [|done..].
    specialize (Hvis eq_refl). specialize (Hkeep _ (Fired_kept _ _ _ _) hc' w1 Hvis).
    intros _. by destruct (loopEntries T (onChanged T) o n es hc' w1) as [[r2 rest2] w2].
  - assert (Hin : a ∈ mapAddrs es).
    { destruct (map_find k es) as [v|] eqn:Hfind; [|done].
      apply (map_find_addrs _ _ _ Hfind). by apply (entryAt_elem _ rest). }
    specialize (Hvkeep _ (Extends_kept (trace w)) (Extends_refl w)).
    destruct (visitEntry T (onChanged T) o n hc (ke, ve) w) as [[[hc'| |] e'] w1];
      cbn [fst snd] in *; [|done..].
    assert (Hw1 : holds_callback w1 a).
    { apply (holds_callback_same_heap w); [|done]. apply Hheap. right.
      intros Hine. by apply (Hdisj a Hine). }
    specialize (IH hc' w1 Hndes Hat Hw1 Ho Hn Heq).
    destruct (loopEntries T (onChanged T) o n es hc' w1) as [[r2 rest2] w2].
    cbn [fst snd] in *. intros Hok. apply (Fired_after _ _ _ _ w1); [done|].
    by apply IH.
Qed.

Lemma onChanged_notifies m : rec_notifies T (onChanged T) m.
Proof using Type*.
  induction m as [es IH] using SignalMgr_nested_ind.
  intros o n w k rest a ov nv Hnd Hat Hh Ho Hn Heq. rewrite onChanged_Mgr.
  rewrite sigAddrs_Mgr in Hnd. rewrite signalAt_Mgr in Hat.
  destruct (notBothEmpty T o n) as [[|]| |] eqn:Hnb; [| |done..].
  - pose proof (loopEntries_notifies o n es k rest a ov nv IH false w Hnd Hat Hh
                  Ho Hn Heq) as H.
    by destruct (loopEntries T (onChanged T) o n es false w) as [[r es'] w'].
  - exfalso. unfold notBothEmpty in Hnb.
    destruct (t_empty T o) as [[|]| |] eqn:Heo; [|done..].
    destruct (t_empty T n) as [[|]| |] eqn:Hen; [|done..].
    by apply (Hempty o n (k :: rest) ov nv).
Qed.

End NotifyFacts.

Lemma Json11_empty_alike : empty_alike Json11.Json11Trait.
Proof.
  intros x y ks xv yv Hx Hy Hxv Hyv. simpl in Hx, Hy.
  injection Hx as Hx. injection Hy as Hy.
  apply is_null_inv in Hx. apply is_null_inv in Hy. subst x y.
  rewrite extract_get_keys, get_keys_null in Hxv, Hyv.
  injection Hxv as <-. by injection Hyv as <-.
Qed.

(** X18. A changed value is notified. Let a registry holding a callback
    be stored at a path, let the tree hold no registry twice, and let
    the adapter guarantee that nothing differs below two empty values.
    If the values reached key by key along the path in the old and in
    the new document are unequal and [set(newData)] returns, then during
    that call the registry was called with exactly the old and the new
    value at the path, and [get()] returns the new document. *)
Theorem X18_changed_value_is_notified {Node : Type} (T : Trait Node)
        (t : ObservableTree Node) (w : World Node) (d : Node)
        (p : Path.t) (a : Addr) (ov nv : Node) :
  empty_alike T ->
  NoDup (sigAddrs (signalMgr_ t)) ->
  getSignal (signalMgr_ t) p = Some a ->
  holds_callback w a ->
  extract T (root_ t) (Path.keys p) = Ok ov ->
  extract T d (Path.keys p) = Ok nv ->
  t_equal T ov nv = Ok false ->
  fst (fst (set T d t w)) = Ok tt ->
  (exists evs, trace (snd (set T d t w)) = trace w ++ evs
               /\ Exists (fired a ov nv) evs)
  /\ get (snd (fst (set T d t w))) = d.
Proof.
  intros Hempty Hnd Hat Hh Ho Hn Heq Hok.
  destruct (Path.keys p) as [|k rest] eqn:Hk.
  { unfold getSignal in Hat. by rewrite Hk in Hat. }
  rewrite (getSignal_keys _ p k rest Hk) in Hat.
  pose proof (onChanged_notifies T Hempty (signalMgr_ t) (root_ t) d w k rest a ov nv
                Hnd Hat Hh Ho Hn Heq) as Hfire.
  rewrite set_world. unfold set in *.
  destruct (onChanged T (signalMgr_ t) (root_ t) d w) as [[[b|e|] m'] w'];
    cbn [fst snd] in *; [|done..].
  split; [by apply Hfire|done].
Qed.

Lemma X18_changed_value_is_notified_witness :
  let T := Json11.Json11Trait in
  let s := Scenario.watched (Scenario.quiet 1) Json11.JNull in
  let d := Scenario.obj [("a"%string, Json11.JNumber 1)] in
  (exists evs, trace (snd (set T d (fst s) (snd s))) = trace (snd s) ++ evs
               /\ Exists (fired 1 Json11.JNull (Json11.JNumber 1)) evs)
  /\ get (snd (fst (set T d (fst s) (snd s)))) = d.
Proof.
  intros T s d.
  apply (X18_changed_value_is_notified T (fst s) (snd s) d (Scenario.path "a") 1
           Json11.JNull (Json11.JNumber 1)).
  - apply Json11_empty_alike.
  - apply (bool_decide_unpack _ (dec := NoDup_dec (A:=nat) _)). vm_compute. exact I.
  - vm_compute. reflexivity.
  - eexists _, _. split; [vm_compute; reflexivity|]. repeat split; reflexivity.
  - reflexivity.
  - reflexivity.
  - reflexivity.
  - vm_compute. reflexivity.
Defined.

(* ------------------------------------------------------------------ *)
(** ** The diff only drops registries *)

Section PruneFacts.
Context {Node : Type} (T : Trait Node).
Implicit Types (w : World Node) (a : Addr).

Lemma compareAndNotify_kept sp o n hc w :
  kept sp (fst (compareAndNotify T sp o n hc w)) = sp
  \/ kept sp (fst (compareAndNotify T sp o n hc w)) = None.
Proof.
  unfold compareAndNotify, bind, lift.
  destruct (t_equal T o n) as [eq| |]; [|by left..].
  destruct sp as [a|]; [|by left].
  destruct (connected a w) as [[[|]| |] w0]; [| |by left..].
  - left. by destruct ((if negb eq then call a o n else ret tt) w0) as [[[]|e|] w1].
  - destruct (shared_release a w0) as [[[]|e|] w1]; [by right|by left..].
Qed.

Lemma visitEntry_prunes rec o n hc (e : KeyType * MySignalAndChild) w :
  (forall s, child_ (snd e) = Some s -> rec_prunes rec s) ->
  forall rest,
    entryAt (snd (snd (fst (visitEntry T rec o n hc e w)))) rest = entryAt (snd e) rest
    \/ entryAt (snd (snd (fst (visitEntry T rec o n hc e w)))) rest = None.
Proof.
  intros Hrec rest. destruct e as [key [sp sub]]. unfold visitEntry. cbn [fst snd] in *.
  destruct (t_get T o key) as [ov| |]; [|by left..].
  destruct (t_get T n key) as [nv| |]; [|by left..].
  assert (Hsub : forall k' rest',
            match snd (fst (recurse rec sub ov nv w)) with
            | Some s => signalAt k' rest' s
            | None => None
            end = match sub with Some s => signalAt k' rest' s | None => None end
            \/ match snd (fst (recurse rec sub ov nv w)) with
               | Some s => signalAt k' rest' s
               | None => None
               end = None).
  { intros k' rest'. unfold recurse. destruct sub as [s|]; [|by left].
    pose proof (Hrec s eq_refl ov nv w k' rest') as H.
    by destruct (rec s ov nv w) as [[r s'] w']. }
  destruct (recurse rec sub ov nv w) as [[r sub'] w1]. cbn [fst snd] in *.
  pose proof (compareAndNotify_kept sp ov nv hc w1) as Hk.
  destruct rest as [|k' rest'].
  - destruct r as [[|]| |]; [| |by left..].
    + left. by destruct (notify sp ov nv w1) as [[[]| |] w2].
    + by destruct (compareAndNotify T sp ov nv hc w1) as [[[hc' sp']| |] w2].
  - specialize (Hsub k' rest').
    destruct r as [[|]| |]; [| |done..].
    + by destruct (notify sp ov nv w1) as [[[]| |] w2].
    + by destruct (compareAndNotify T sp ov nv hc w1) as [[[hc' sp']| |] w2].
Qed.

Lemma loopEntries_prunes rec o n es :
  Forall (fun e => forall s, child_ (snd e) = Some s -> rec_prunes rec s) es ->
  forall hc w k rest,
    match map_find k (snd (fst (loopEntries T rec o n es hc w))) with
    | Some v => entryAt v rest
    | None => None
    end = match map_find k es with Some v => entryAt v rest | None => None end
    \/ match map_find k (snd (fst (loopEntries T rec o n es hc w))) with
       | Some v => entryAt v rest
       | None => None
       end = None.
Proof.
  induction 1 as [|e es He _ IH]; intros hc w k rest; [by left|].
  rewrite loopEntries_cons.
  pose proof (visitEntry_key T rec o n hc e w) as Hkey.
  pose proof (visitEntry_prunes rec o n hc e w He rest) as Hvis.
  destruct (visitEntry T rec o n hc e w) as [[r [k' v']] w1]. cbn [fst snd] in *.
  destruct e as [ke ve]. cbn [fst snd] in *. subst k'.
  destruct r as [hc'| |].
  - specialize (IH hc' w1 k rest).
    destruct (loopEntries T rec o n es hc' w1) as [[r2 rest2] w2]. simpl in *.
    by destruct (String.eqb k ke).
  - simpl. destruct (String.eqb k ke); [done|by left].
  - simpl. destruct (String.eqb k ke); [done|by left].
Qed.

Lemma onChanged_prunes m : rec_prunes (onChanged T) m.
Proof.
  induction m as [es IH] using SignalMgr_nested_ind.
  intros o n w k rest. rewrite onChanged_Mgr.
  destruct (notBothEmpty T o n) as [[|]| |]; [|by left..].
  pose proof (loopEntries_prunes (onChanged T) o n es IH false w k rest) as H.
  destruct (loopEntries T (onChanged T) o n es false w) as [[r es'] w'].
  cbn [fst snd] in *. by rewrite !signalAt_Mgr.
Qed.

End PruneFacts.

(** X19. Replacing the document only ever drops registries from the
    tree: after [set(newData)], whatever its outcome, [getSignal] at any
    path answers with the registry it answered with before, or with
    none. No registry is installed, and none moves to another path. *)
Theorem X19_set_only_drops_registries {Node : Type} (T : Trait Node)
        (t : ObservableTree Node) (w : World Node) (d : Node) (q : Path.t) :
  getSignal (signalMgr_ (snd (fst (set T d t w)))) q = getSignal (signalMgr_ t) q
  \/ getSignal (signalMgr_ (snd (fst (set T d t w)))) q = None.
Proof.
  assert (Hmgr : signalMgr_ (snd (fst (set T d t w)))
                 = snd (fst (onChanged T (signalMgr_ t) (root_ t) d w))).
  { unfold set.
    by destruct (onChanged T (signalMgr_ t) (root_ t) d w) as [[[b|e|] m'] w']. }
  rewrite Hmgr. destruct (Path.keys q) as [|k rest] eqn:Hk.
  - left. unfold getSignal. by rewrite Hk.
  - rewrite !(getSignal_keys _ q k rest Hk). apply onChanged_prunes.
Qed.

(* ------------------------------------------------------------------ *)
(** ** No callback is called twice by one diff *)

Section OnceFacts.
Context {Node : Type} (T : Trait Node).
Implicit Types (w : World Node) (a : Addr).

Lemma Issued_Tidy w : Issued w <-> Tidy 0 0 w.
Proof. split; [intros H; split; [done|split; lia]|by intros [H _]]. Qed.

Lemma MultiImpl_onChanged_once a (l : SlotListType Node) o n : forall w,
  exists evs, trace (snd (MultiImpl_onChanged a l o n w)) = trace w ++ evs
              /\ Forall (fun ev => ev_sig ev = a) evs
              /\ map ev_slot evs `sublist_of` List.concat (map cell_ids l).
Proof.
  induction l as [|[sc|] l IH]; intros w; simpl.
  - exists []. by rewrite app_nil_r.
  - unfold bind, invoke. destruct (slot_fn sc) as [cb|].
    2:{ exists []. rewrite app_nil_r. split; [done|]. split; [done|].
        apply sublist_nil_l. }
    set (ev := {| ev_sig := a; ev_slot := slot_addr sc; ev_cb := cb_id cb;
                  ev_old := o; ev_new := n |}).
    destruct (cb_body cb o n) as [e|].
    + exists [ev]. split; [done|]. split; [by repeat constructor|].
      simpl. apply sublist_skip, sublist_nil_l.
    + destruct (IH (log ev w)) as (evs & Ht & Hs & Hsub). exists (ev :: evs).
      split; [by rewrite Ht; simpl; rewrite <- app_assoc|].
      split; [by constructor|]. simpl. by apply sublist_skip.
  - exists []. rewrite app_nil_r. split; [done|]. split; [done|]. apply sublist_nil_l.
Qed.

Lemma call_once a o n w :
  Issued w ->
  exists evs, trace (snd (call a o n w)) = trace w ++ evs
              /\ Forall (fun ev => ev_sig ev = a) evs
              /\ NoDup (map ev_slot evs).
Proof.
  intros HI. unfold call, bind, deref.
  assert (Hnil : exists evs : list (Event Node),
             trace w = trace w ++ evs /\ Forall (fun ev => ev_sig ev = a) evs
             /\ NoDup (map ev_slot evs)).
  { exists []. rewrite app_nil_r. split; [done|]. split; constructor. }
  destruct (heap w !! a) as [c|] eqn:Ha; [|done].
  destruct (HI a c Ha) as (_ & Hnd & _). unfold slot_ids in Hnd.
  destruct (impl_ (object c)) as [[s|l]|]; simpl in *; [| |done].
  - destruct s as [sc|]; [|done]. simpl.
    destruct (slot_fn sc) as [cb|] eqn:Hf; [|done]. unfold invoke. rewrite Hf.
    eexists [_]. split; [by destruct (cb_body cb o n)|].
    split; [by repeat constructor|]. simpl. apply NoDup_singleton.
  - destruct (MultiImpl_onChanged_once a l o n w) as (evs & Ht & Hs & Hsub).
    exists evs. split; [done|]. split; [done|]. by eapply sublist_NoDup.
Qed.

Lemma call_keys_one a (evs : list (Event Node)) :
  Forall (fun ev => ev_sig ev = a) evs -> NoDup (map ev_slot evs) ->
  NoDup (map call_key evs).
Proof.
  induction 1 as [|ev evs Hev Hevs IH]; simpl; [constructor|].
  intros [Hout Hnd]%NoDup_cons. apply NoDup_cons. split; [|by apply IH].
  intros Hin. apply Hout. apply list_elem_of_fmap in Hin as (ev' & Heq & Hin').
  apply list_elem_of_fmap. exists ev'. split; [|done].
  unfold call_key in Heq. by injection Heq.
Qed.

Lemma call_keys_app (l1 l2 : list Addr) (evs1 evs2 : list (Event Node)) :
  fired_by l1 evs1 -> fired_by l2 evs2 -> (forall x, x ∈ l1 -> x ∉ l2) ->
  NoDup (map call_key evs1) -> NoDup (map call_key evs2) ->
  NoDup (map call_key (evs1 ++ evs2)).
Proof.
  intros H1 H2 Hdisj Hn1 Hn2. rewrite map_app. apply NoDup_app.
  split; [done|]. split; [|done].
  intros key Hk1 Hk2.
  apply list_elem_of_fmap in Hk1 as (e1 & -> & Hin1).
  apply list_elem_of_fmap in Hk2 as (e2 & Heq & Hin2).
  unfold call_key in Heq. injection Heq as Hsig _.
  pose proof (proj1 (Forall_forall _ _) H1 e1 Hin1) as Ha1.
  pose proof (proj1 (Forall_forall _ _) H2 e2 Hin2) as Ha2.
  simpl in Ha1, Ha2. rewrite <- Hsig in Ha2. by apply (Hdisj _ Ha1).
Qed.

Lemma notify_once sp o n w :
  Issued w ->
  exists evs, trace (snd (notify sp o n w)) = trace w ++ evs
              /\ fired_by (ownAddr sp) evs /\ NoDup (map call_key evs).
Proof.
  intros HI. destruct sp as [a|]; simpl.
  - destruct (call_once a o n w HI) as (evs & Ht & Hs & Hnd). exists evs.
    split; [done|]. split; [|by eapply call_keys_one].
    eapply Forall_impl; [exact Hs|]. intros ev ->. by apply list_elem_of_singleton.
  - exists []. rewrite app_nil_r. split; [done|]. split; constructor.
Qed.

Lemma compareAndNotify_once sp o n hc w :
  Issued w ->
  exists evs, trace (snd (compareAndNotify T sp o n hc w)) = trace w ++ evs
              /\ fired_by (ownAddr sp) evs /\ NoDup (map call_key evs).
Proof.
  intros HI.
  assert (Hnil : exists evs : list (Event Node),
             trace w = trace w ++ evs /\ fired_by (ownAddr sp) evs
             /\ NoDup (map call_key evs)).
  { exists []. rewrite app_nil_r. split; [done|]. split; constructor. }
  unfold compareAndNotify, bind, lift.
  destruct (t_equal T o n) as [eq| |]; simpl; [|done..].
  destruct sp as [a|]; [|done].
  pose proof (connected_world a w) as Hw.
  destruct (connected a w) as [[[|]| |] w0]; simpl in Hw; subst w0; [| |done..].
  - destruct (negb eq).
    + pose proof (notify_once (Some a) o n w HI) as H. simpl in H.
      by destruct (call a o n w) as [[[]|e|] w1].
    + done.
  - pose proof (shared_release_trace a w) as Hr.
    destruct (shared_release a w) as [[[]|e|] w1]; simpl in *; by rewrite Hr.
Qed.

Lemma visitEntry_once o n hc (e : KeyType * MySignalAndChild) w :
  (forall s, child_ (snd e) = Some s -> rec_once (onChanged T) s) ->
  NoDup (entryAddrs e) -> Issued w ->
  exists evs, trace (snd (visitEntry T (onChanged T) o n hc e w)) = trace w ++ evs
              /\ fired_by (entryAddrs e) evs /\ NoDup (map call_key evs).
Proof.
  intros Hrec Hnd HI. destruct e as [key [sp sub]]. unfold visitEntry, entryAddrs in *.
  cbn [fst snd child_ signalPtr_] in *.
  assert (Hnil : exists evs : list (Event Node),
             trace w = trace w ++ evs
             /\ fired_by (childAddrs sub ++ ownAddr sp) evs
             /\ NoDup (map call_key evs)).
  { exists []. rewrite app_nil_r. split; [done|]. split; constructor. }
  destruct (t_get T o key) as [ov| |]; [|done..].
  destruct (t_get T n key) as [nv| |]; [|done..].
  apply NoDup_app in Hnd as (Hnds & Hdisj & _).
  assert (Hsub : (exists evs, trace (snd (recurse (onChanged T) sub ov nv w))
                              = trace w ++ evs
                              /\ fired_by (childAddrs sub) evs
                              /\ NoDup (map call_key evs))
                 /\ Issued (snd (recurse (onChanged T) sub ov nv w))).
  { unfold recurse. destruct sub as [s|].
    2:{ split; [|done]. exists []. rewrite app_nil_r. split; [done|].
        split; constructor. }
    pose proof (Hrec s eq_refl ov nv w Hnds HI) as H1.
    pose proof (onChanged_keeps T _ (Tidy_kept 0 0) s ov nv w
                  (proj1 (Issued_Tidy w) HI)) as H2.
    destruct (onChanged T s ov nv w) as [[r s'] w']. cbn [fst snd] in *.
    split; [done|]. by apply Issued_Tidy. }
  destruct Hsub as ((evs1 & Ht1 & Hf1 & Hn1) & HI1).
  destruct (recurse (onChanged T) sub ov nv w) as [[r sub'] w1]. cbn [fst snd] in *.
  assert (Hjoin : forall w2 evs2,
            trace w2 = trace w1 ++ evs2 -> fired_by (ownAddr sp) evs2 ->
            NoDup (map call_key evs2) ->
            exists evs, trace w2 = trace w ++ evs
                        /\ fired_by (childAddrs sub ++ ownAddr sp) evs
                        /\ NoDup (map call_key evs)).
  { intros w2 evs2 Ht2 Hf2 Hn2. exists (evs1 ++ evs2).
    split; [by rewrite Ht2, Ht1, app_assoc|]. split.
    - apply Forall_app. split.
      + apply (fired_by_mono _ _ _ Hf1). intros x Hx. apply elem_of_app. by left.
      + apply (fired_by_mono _ _ _ Hf2). intros x Hx. apply elem_of_app. by right.
    - by apply (call_keys_app (childAddrs sub) (ownAddr sp)). }
  assert (Hstop : exists evs, trace w1 = trace w ++ evs
                              /\ fired_by (childAddrs sub ++ ownAddr sp) evs
                              /\ NoDup (map call_key evs)).
  { apply (Hjoin w1 []); [by rewrite app_nil_r|constructor..]. }
  destruct r as [[|]| |]; [| |done..].
  - destruct (notify_once sp ov nv w1 HI1) as (evs2 & Ht2 & Hf2 & Hn2).
    pose proof (Hjoin _ evs2 Ht2 Hf2 Hn2) as H.
    by destruct (notify sp ov nv w1) as [[[]| |] w2].
  - destruct (compareAndNotify_once sp ov nv hc w1 HI1) as (evs2 & Ht2 & Hf2 & Hn2).
    pose proof (Hjoin _ evs2 Ht2 Hf2 Hn2) as H.
    by destruct (compareAndNotify T sp ov nv hc w1) as [[[hc' sp']| |] w2].
Qed.

Lemma loopEntries_once o n es :
  Forall (fun e => forall s, child_ (snd e) = Some s -> rec_once (onChanged T) s) es ->
  forall hc w, NoDup (mapAddrs es) -> Issued w ->
    exists evs, trace (snd (loopEntries T (onChanged T) o n es hc w)) = trace w ++ evs
                /\ fired_by (mapAddrs es) evs /\ NoDup (map call_key evs).
Proof.
  induction 1 as [|e es He _ IH]; intros hc w Hnd HI.
  { exists []. simpl. rewrite app_nil_r. split; [done|]. split; constructor. }
  rewrite mapAddrs_cons in *. apply NoDup_app in Hnd as (Hnd1 & Hdisj & Hnd2).
  destruct (visitEntry_once o n hc e w He Hnd1 HI) as (evs1 & Ht1 & Hf1 & Hn1).
  pose proof (visitEntry_keeps T _ (Tidy_kept 0 0) (onChanged T) o n hc e w
                (fun s _ => onChanged_keeps T _ (Tidy_kept 0 0) s)
                (proj1 (Issued_Tidy w) HI)) as HI1.
  apply Issued_Tidy in HI1.
  assert (Hjoin : forall w2 evs2,
            trace w2 = trace (snd (visitEntry T (onChanged T) o n hc e w)) ++ evs2 ->
            fired_by (mapAddrs es) evs2 -> NoDup (map call_key evs2) ->
            exists evs, trace w2 = trace w ++ evs
                        /\ fired_by (entryAddrs e ++ mapAddrs es) evs
                        /\ NoDup (map call_key evs)).
  { intros w2 evs2 Ht2 Hf2 Hn2. exists (evs1 ++ evs2).
    split; [by rewrite Ht2, Ht1, app_assoc|]. split.
    - apply Forall_app. split.
      + apply (fired_by_mono _ _ _ Hf1). intros x Hx. apply elem_of_app. by left.
      + apply (fired_by_mono _ _ _ Hf2). intros x Hx. apply elem_of_app. by right.
    - by apply (call_keys_app (entryAddrs e) (mapAddrs es)). }
  rewrite loopEntries_cons.
  destruct (visitEntry T (onChanged T) o n hc e w) as [[[hc'| |] e'] w1];
    cbn [fst snd] in *.
  - destruct (IH hc' w1 Hnd2 HI1) as (evs2 & Ht2 & Hf2 & Hn2).
    pose proof (Hjoin _ evs2 Ht2 Hf2 Hn2) as H.
    by destruct (loopEntries T (onChanged T) o n es hc' w1) as [[r rest'] w2].
  - apply (Hjoin w1 []); [by rewrite app_nil_r|constructor..].
  - apply (Hjoin w1 []); [by rewrite app_nil_r|constructor..].
Qed.

Lemma onChanged_once m : rec_once (onChanged T) m.
Proof.
  induction m as [es IH] using SignalMgr_nested_ind. intros o n w Hnd HI.
  rewrite onChanged_Mgr. rewrite sigAddrs_Mgr in *.
  assert (Hnil : exists evs : list (Event Node),
             trace w = trace w ++ evs /\ fired_by (mapAddrs es) evs
             /\ NoDup (map call_key evs)).
  { exists []. rewrite app_nil_r. split; [done|]. split; constructor. }
  destruct (notBothEmpty T o n) as [[|]| |]; [|done..].
  pose proof (loopEntries_once o n es IH false w Hnd HI) as H.
  by destruct (loopEntries T (onChanged T) o n es false w) as [[r es'] w'].
Qed.

End OnceFacts.

(** X20. No duplicate notification. In a reachable world, with a tree
    that holds no registry twice, one [set(newData)] calls only
    registries of the tree and calls no stored callback more than once,
    whatever its outcome. *)
Theorem X20_set_calls_no_slot_twice {Node : Type} (T : Trait Node)
        (t : ObservableTree Node) (w : World Node) (d : Node) :
  reachable T w ->
  NoDup (sigAddrs (signalMgr_ t)) ->
  exists evs, trace (snd (set T d t w)) = trace w ++ evs
              /\ fired_by (sigAddrs (signalMgr_ t)) evs
              /\ NoDup (map call_key evs).
Proof.
  intros Hr Hnd. rewrite set_world.
  apply onChanged_once; [done|]. by eapply reachable_Issued.
Qed.

Lemma X20_set_calls_no_slot_twice_witness :
  let T := Json11.Json11Trait in
  let w := snd (connect 1 (Scenario.quiet 2)
                  (snd (connect 1 (Scenario.quiet 1)
                          (snd (createSignal (Scenario.path "a") (Mgr [])
                                  Scenario.world0))))) in
  let t := {| signalMgr_ := graft "a" [] (Mgr []) 1; root_ := Json11.JNull |} in
  let d := Scenario.obj [("a"%string, Json11.JNumber 1)] in
  exists evs, trace (snd (set T d t w)) = trace w ++ evs
              /\ fired_by (sigAddrs (signalMgr_ t)) evs
              /\ NoDup (map call_key evs).
Proof.
  intros T w t d. apply (X20_set_calls_no_slot_twice T t w d).
  - eapply reachable_step; [|apply (step_connect T 1 (Scenario.quiet 2))].
    eapply reachable_step; [|apply (step_connect T 1 (Scenario.quiet 1))].
    eapply reachable_step; [apply reachable_init|].
    apply (step_createSignal T (Scenario.path "a") (Mgr [])).
  - apply (bool_decide_unpack _ (dec := NoDup_dec (A:=nat) _)). vm_compute. exact I.
Defined.

(* ------------------------------------------------------------------ *)
(** ** Character arrays *)

Section PathLiteral.
Import Path.

Lemma back_snoc (s : string) (c : ascii) :
  back (String.append s (String c EmptyString)) = c.
Proof.
  induction s as [|x s IH]; [done|]. rewrite append_cons. simpl.
  rewrite IH. by destruct (String.append s (String c EmptyString)) eqn:He;
    [destruct s; discriminate He|].
Qed.

Lemma toKeys_terminated s sep :
  sep <> zero -> has_char zero s = false ->
  toKeys (String.append s (String zero EmptyString)) sep = toKeys s sep.
Proof.
  intros Hsep Hz. unfold toKeys. rewrite toKeys_loop_app.
  destruct (toKeys_loop sep EmptyString s []) as [ks ps] eqn:Hl. cbn [fst snd].
  destruct (toKeys_loop_plain sep zero s EmptyString [] ks ps
              Hz eq_refl eq_refl (Forall_nil_2 _) Hl) as (_ & _ & Hpz).
  cbn [toKeys_loop].
  assert (Hne : Ascii.eqb zero sep = false) by (apply Ascii.eqb_neq; congruence).
  rewrite Hne.
  destruct (String.append ps (String zero EmptyString)) as [|c0 s0] eqn:He.
  { by destruct ps. }
  rewrite <- He, back_snoc, Ascii.eqb_refl, drop_back_snoc.
  destruct ps as [|c ps]; [done|].
  assert (Hb : back (String c ps) <> zero) by by apply back_no_zero.
  apply Ascii.eqb_neq in Hb. by rewrite Hb.
Qed.

End PathLiteral.

(** X21. A path built from a character array equals the path built from
    the string: [toKeys] iterates over the whole array, terminator
    included, and cuts the terminator off again, so for every separator
    other than NUL and every text without NUL character, the text
    followed by a NUL terminator yields the same keys as the text. *)
Theorem X21_terminator_is_cut_off (s : string) (sep : Path.Sep) :
  sep <> zero -> Path.has_char zero s = false ->
  Path.of_string (String.append s (String zero EmptyString)) sep
  = Path.of_string s sep.
Proof.
  intros Hsep Hz. unfold Path.of_string. f_equal. by apply toKeys_terminated.
Qed.

Lemma X21_terminator_is_cut_off_witness :
  Path.of_string (String.append "/config/media_security/"
                                (String zero EmptyString)) Path.default_sep
  = Path.of_string "/config/media_security/" Path.default_sep.
Proof.
  apply (X21_terminator_is_cut_off "/config/media_security/" Path.default_sep).
  - discriminate.
  - reflexivity.
Defined.

(* ------------------------------------------------------------------ *)
(** ** Siblings are visited in key order *)

Section KeyOrderFacts.
Context {Node : Type} (T : Trait Node).
Implicit Types (w : World Node) (a b : Addr) (evs : list (Event Node)).

Lemma key_order_nil (at_ : list KeyType -> option Addr) :
  key_order (Node:=Node) at_ [].
Proof. intros pfx k1 r1 k2 r2 a b _ _ _ l1 e1 l2 Heq. by destruct l1. Qed.

Lemma fires_before_apart a b (l1 l2 : list Addr) evs1 evs2 :
  fired_by l1 evs1 -> fired_by l2 evs2 ->
  a ∈ l1 -> a ∉ l2 -> b ∈ l2 -> b ∉ l1 ->
  fires_before a b (evs1 ++ evs2).
Proof.
  intros H1 H2 Ha1 Ha2 Hb2 Hb1. apply fires_before_app.
  - apply fires_before_no_a. by apply (fired_by_not l1).
  - apply fires_before_no_b. by apply (fired_by_not l2).
  - left. by apply (fired_by_not l1).
Qed.

Lemma fires_before_left a b (l2 : list Addr) evs1 evs2 :
  fires_before a b evs1 -> fired_by l2 evs2 -> a ∉ l2 -> b ∉ l2 ->
  fires_before a b (evs1 ++ evs2).
Proof.
  intros H1 H2 Ha Hb. apply fires_before_app; [done| |].
  - apply fires_before_no_a. by apply (fired_by_not l2).
  - right. by apply (fired_by_not l2).
Qed.

Lemma fires_before_right a b (l1 : list Addr) evs1 evs2 :
  fired_by l1 evs1 -> fires_before a b evs2 -> a ∉ l1 -> b ∉ l1 ->
  fires_before a b (evs1 ++ evs2).
Proof.
  intros H1 H2 Ha Hb. apply fires_before_app; [|done|].
  - apply fires_before_no_a. by apply (fired_by_not l1).
  - left. by apply (fired_by_not l1).
Qed.

Lemma childAt_elem (sub : option SignalMgr) ks a :
  childAt sub ks = Some a -> a ∈ childAddrs sub.
Proof.
  destruct sub as [s|]; [|done]. destruct ks as [|k rest]; [done|].
  simpl. apply signalAt_elem.
Qed.

Lemma entryAt_childAt (v : MySignalAndChild) ks :
  ks <> [] -> entryAt v ks = childAt (child_ v) ks.
Proof. by destruct ks. Qed.

Lemma own_events (sp : option Addr) (o n : Node) evs :
  Forall (fun ev => ev_sig ev ∈ ownAddr sp /\ ev_old ev = o /\ ev_new ev = n) evs ->
  fired_by (ownAddr sp) evs.
Proof. intros H. eapply Forall_impl; [exact H|]. by intros ev [? _]. Qed.

Lemma visitEntry_in_key_order rec o n hc (e : KeyType * MySignalAndChild) w :
  (forall s, child_ (snd e) = Some s -> rec_in_key_order rec s) ->
  NoDup (entryAddrs e) ->
  (forall c, child_ (snd e) = Some c -> sorted c) ->
  exists evs, trace (snd (visitEntry T rec o n hc e w)) = trace w ++ evs
              /\ fired_by (entryAddrs e) evs
              /\ key_order (childAt (child_ (snd e))) evs.
Proof.
  intros Hrec Hnd Hsorted. destruct e as [key [sp sub]].
  unfold visitEntry, entryAddrs in *. cbn [fst snd child_ signalPtr_] in *.
  assert (Hnil : exists evs : list (Event Node),
             trace w = trace w ++ evs
             /\ fired_by (childAddrs sub ++ ownAddr sp) evs
             /\ key_order (childAt sub) evs).
  { exists []. rewrite app_nil_r. split; [done|]. split; [constructor|].
    apply key_order_nil. }
  destruct (t_get T o key) as [ov| |]; [|done..].
  destruct (t_get T n key) as [nv| |]; [|done..].
  apply NoDup_app in Hnd as (Hnds & Hdisj & _).
  assert (Hsub : exists evs, trace (snd (recurse rec sub ov nv w)) = trace w ++ evs
                             /\ fired_by (childAddrs sub) evs
                             /\ key_order (childAt sub) evs).
  { unfold recurse. destruct sub as [s|].
    2:{ exists []. rewrite app_nil_r. split; [done|]. split; [constructor|].
        apply key_order_nil. }
    pose proof (Hrec s eq_refl ov nv w Hnds (Hsorted s eq_refl)) as H.
    by destruct (rec s ov nv w) as [[r s'] w']. }
  destruct Hsub as (evs1 & Ht1 & Hf1 & Hk1).
  destruct (recurse rec sub ov nv w) as [[r sub'] w1]. cbn [fst snd] in *.
  assert (Hjoin : forall w2 evs2,
            trace w2 = trace w1 ++ evs2 -> fired_by (ownAddr sp) evs2 ->
            exists evs, trace w2 = trace w ++ evs
                        /\ fired_by (childAddrs sub ++ ownAddr sp) evs
                        /\ key_order (childAt sub) evs).
  { intros w2 evs2 Ht2 Hf2. exists (evs1 ++ evs2).
    split; [by rewrite Ht2, Ht1, app_assoc|]. split.
    - apply Forall_app. split.
      + apply (fired_by_mono _ _ _ Hf1). intros x Hx. apply elem_of_app. by left.
      + apply (fired_by_mono _ _ _ Hf2). intros x Hx. apply elem_of_app. by right.
    - intros pfx k1 r1 k2 r2 a b Hlt Ha Hb.
      apply (fires_before_left a b (ownAddr sp)); [by eapply Hk1|done|..].
      + intros Hin. by apply (Hdisj a (childAt_elem _ _ _ Ha)).
      + intros Hin. by apply (Hdisj b (childAt_elem _ _ _ Hb)). }
  assert (Hstop : exists evs, trace w1 = trace w ++ evs
                              /\ fired_by (childAddrs sub ++ ownAddr sp) evs
                              /\ key_order (childAt sub) evs).
  { apply (Hjoin w1 []); [by rewrite app_nil_r|constructor]. }
  destruct r as [[|]| |]; [| |done..].
  - destruct (notify_events sp ov nv w1) as (evs2 & Ht2 & Hf2%own_events).
    pose proof (Hjoin _ evs2 Ht2 Hf2) as H.
    by destruct (notify sp ov nv w1) as [[[]| |] w2].
  - destruct (compareAndNotify_events T sp ov nv hc w1) as (evs2 & Ht2 & Hf2%own_events).
    pose proof (Hjoin _ evs2 Ht2 Hf2) as H.
    by destruct (compareAndNotify T sp ov nv hc w1) as [[[hc' sp']| |] w2].
Qed.

Lemma mapAt_elem k rest es a :
  match map_find k es with Some v => entryAt v rest | None => None end = Some a ->
  a ∈ mapAddrs es.
Proof.
  destruct (map_find k es) as [v|] eqn:Hfind; [|done]. intros Hat.
  apply (map_find_addrs _ _ _ Hfind). by apply (entryAt_elem _ rest).
Qed.

Lemma loopEntries_in_key_order rec o n es :
  Forall (fun e => forall s, child_ (snd e) = Some s -> rec_in_key_order rec s) es ->
  StronglySorted key_lt (map fst es) ->
  Forall (fun e => forall c, child_ (snd e) = Some c -> sorted c) es ->
  forall hc w, NoDup (mapAddrs es) ->
    exists evs, trace (snd (loopEntries T rec o n es hc w)) = trace w ++ evs
                /\ fired_by (mapAddrs es) evs
                /\ key_order (fun ks => pathAt ks (Mgr es)) evs.
Proof.
  induction 1 as [|e es He _ IH]; intros Hkeys Hch hc w Hnd.
  { exists []. simpl. rewrite app_nil_r. split; [done|]. split; [constructor|].
    apply key_order_nil. }
  apply StronglySorted_inv in Hkeys as [Hkeys Hhead].
  apply Forall_cons in Hch as [Hche Hch].
  rewrite mapAddrs_cons in *. apply NoDup_app in Hnd as (Hnd1 & Hdisj & Hnd2).
  destruct (visitEntry_in_key_order rec o n hc e w He Hnd1 Hche)
    as (evs1 & Ht1 & Hf1 & Hk1).
  assert (Hjoin : forall w2 evs2,
            trace w2 = trace (snd (visitEntry T rec o n hc e w)) ++ evs2 ->
            fired_by (mapAddrs es) evs2 ->
            key_order (fun ks => pathAt ks (Mgr es)) evs2 ->
            exists evs, trace w2 = trace w ++ evs
                        /\ fired_by (entryAddrs e ++ mapAddrs es) evs
                        /\ key_order (fun ks => pathAt ks (Mgr (e :: es))) evs).
  { intros w2 evs2 Ht2 Hf2 Hk2. exists (evs1 ++ evs2).
    split; [by rewrite Ht2, Ht1, app_assoc|]. split.
    { apply Forall_app. split.
      - apply (fired_by_mono _ _ _ Hf1). intros x Hx. apply elem_of_app. by left.
      - apply (fired_by_mono _ _ _ Hf2). intros x Hx. apply elem_of_app. by right. }
    assert (Hdisj' : forall x, x ∈ mapAddrs es -> x ∉ entryAddrs e).
    { intros x Hx Hxe. by apply (Hdisj x Hxe). }
    destruct e as [ke ve]. cbn [fst snd] in *.
    intros pfx k1 r1 k2 r2 a b Hlt Ha Hb.
    destruct pfx as [|p0 pfx]; simpl in Ha, Hb; rewrite signalAt_Mgr in Ha, Hb;
      simpl in Ha, Hb.
    - destruct (String.eqb k1 ke) eqn:H1.
      + apply String.eqb_eq in H1. subst ke.
        assert (H2 : String.eqb k2 k1 = false).
        { apply String.eqb_neq. intros ->. by apply (key_lt_irrefl k1). }
        rewrite H2 in Hb.
        apply (fires_before_apart a b (entryAddrs (k1, ve)) (mapAddrs es));
          [done|done| | | |].
        * by apply (entryAt_elem _ r1).
        * apply Hdisj. by apply (entryAt_elem _ r1).
        * by apply (mapAt_elem k2 r2).
        * apply Hdisj'. by apply (mapAt_elem k2 r2).
      + destruct (String.eqb k2 ke) eqn:H2.
        * exfalso. apply String.eqb_eq in H2. subst ke.
          destruct (map_find k1 es) as [v1|] eqn:Hfind; [|done].
          apply map_find_key in Hfind.
          pose proof (proj1 (Forall_forall _ _) Hhead k1 Hfind) as Hlt'.
          by apply (key_lt_asym k1 k2).
        * apply (fires_before_right a b (entryAddrs (ke, ve))); [done| | |].
          -- apply (Hk2 [] k1 r1 k2 r2 a b Hlt); simpl; by rewrite signalAt_Mgr.
          -- apply Hdisj'. by apply (mapAt_elem k1 r1).
          -- apply Hdisj'. by apply (mapAt_elem k2 r2).
    - destruct (String.eqb p0 ke) eqn:H0.
      + rewrite entryAt_childAt in Ha by (by destruct pfx).
        rewrite entryAt_childAt in Hb by (by destruct pfx).
        pose proof (childAt_elem _ _ _ Ha) as Hina.
        pose proof (childAt_elem _ _ _ Hb) as Hinb.
        apply (fires_before_left a b (mapAddrs es)); [by eapply Hk1|done| |].
        * apply Hdisj. unfold entryAddrs. apply elem_of_app. by left.
        * apply Hdisj. unfold entryAddrs. apply elem_of_app. by left.
      + apply (fires_before_right a b (entryAddrs (ke, ve))); [done| | |].
        * apply (Hk2 (p0 :: pfx) k1 r1 k2 r2 a b Hlt); simpl; by rewrite signalAt_Mgr.
        * apply Hdisj'. by apply (mapAt_elem p0 (pfx ++ k1 :: r1)).
        * apply Hdisj'. by apply (mapAt_elem p0 (pfx ++ k2 :: r2)). }
  rewrite loopEntries_cons.
  destruct (visitEntry T rec o n hc e w) as [[[hc'| |] e'] w1]; cbn [fst snd] in *.
  - destruct (IH Hkeys Hch hc' w1 Hnd2) as (evs2 & Ht2 & Hf2 & Hk2).
    pose proof (Hjoin _ evs2 Ht2 Hf2 Hk2) as H.
    by destruct (loopEntries T rec o n es hc' w1) as [[r rest'] w2].
  - apply (Hjoin w1 []); [by rewrite app_nil_r|constructor|apply key_order_nil].
  - apply (Hjoin w1 []); [by rewrite app_nil_r|constructor|apply key_order_nil].
Qed.

Lemma onChanged_in_key_order m : rec_in_key_order (onChanged T) m.
Proof.
  induction m as [es IH] using SignalMgr_nested_ind. intros o n w Hnd Hsorted.
  apply sorted_Mgr in Hsorted as [Hkeys Hch].
  rewrite onChanged_Mgr. rewrite sigAddrs_Mgr in *.
  assert (Hnil : exists evs : list (Event Node),
             trace w = trace w ++ evs /\ fired_by (mapAddrs es) evs
             /\ key_order (fun ks => pathAt ks (Mgr es)) evs).
  { exists []. rewrite app_nil_r. split; [done|]. split; [constructor|].
    apply key_order_nil. }
  destruct (notBothEmpty T o n) as [[|]| |]; [|done..].
  pose proof (loopEntries_in_key_order (onChanged T) o n es IH Hkeys Hch false w Hnd)
    as H.
  by destruct (loopEntries T (onChanged T) o n es false w) as [[r es'] w'].
Qed.

End KeyOrderFacts.

(** X22. Notification order among siblings. In every state reached
    through the facade, one [set(newData)] visits the children of a
    node in increasing key order (the order of [std::map]): if two
    registered paths part at some position, with the smaller key on the
    side of the first, then every call of the first path's registry is
    recorded before every call of the second path's registry. Together
    with the bottom-up order within a path this fixes the order of all
    calls of a replace. *)
Theorem X22_siblings_fire_in_key_order {Node : Type} (T : Trait Node) (root : Node)
        (t : ObservableTree Node) (w : World Node) (d : Node) :
  facade_reachable T root (t, w) ->
  exists evs,
    trace (snd (set T d t w)) = trace w ++ evs
    /\ forall (p q : Path.t) pfx k1 r1 k2 r2 a b,
         Path.keys p = pfx ++ k1 :: r1 -> Path.keys q = pfx ++ k2 :: r2 ->
         key_lt k1 k2 ->
         getSignal (signalMgr_ t) p = Some a ->
         getSignal (signalMgr_ t) q = Some b ->
         fires_before a b evs.
Proof.
  intros Hr. destruct (facade_reachable_Inv T root _ Hr) as (Hs & Hnd & _).
  cbn [fst snd] in *. rewrite set_world.
  destruct (onChanged_in_key_order T (signalMgr_ t) (root_ t) d w Hnd Hs)
    as (evs & Ht & _ & Hk).
  exists evs. split; [done|].
  intros p q pfx k1 r1 k2 r2 a b Hp Hq Hlt Ha Hb.
  apply (Hk pfx k1 r1 k2 r2 a b Hlt).
  - unfold getSignal in Ha. rewrite Hp in Ha. unfold pathAt, signalAt.
    by destruct (pfx ++ k1 :: r1).
  - unfold getSignal in Hb. rewrite Hq in Hb. unfold pathAt, signalAt.
    by destruct (pfx ++ k2 :: r2).
Qed.

Lemma X22_siblings_fire_in_key_order_witness :
  let T := Json11.Json11Trait in
  let r1 := registerAt (Scenario.path "a/d") (Scenario.quiet 1)
              Scenario.tree0 Scenario.world0 in
  let r2 := registerAt (Scenario.path "a/b/c") (Scenario.quiet 2)
              (snd (fst r1)) (snd r1) in
  let t := snd (fst r2) in
  let w := snd r2 in
  let d := Scenario.doc_abcd 1 in
  exists evs,
    trace (snd (set T d t w)) = trace w ++ evs
    /\ forall (p q : Path.t) pfx k1 r1 k2 r2 a b,
         Path.keys p = pfx ++ k1 :: r1 -> Path.keys q = pfx ++ k2 :: r2 ->
         key_lt k1 k2 ->
         getSignal (signalMgr_ t) p = Some a ->
         getSignal (signalMgr_ t) q = Some b ->
         fires_before a b evs.
Proof.
  intros T r1 r2 t w d.
  apply (X22_siblings_fire_in_key_order T Json11.JNull t w d).
  eapply facade_next;
    [|apply (facade_register T (Scenario.path "a/b/c") (Scenario.quiet 2)
               (snd (fst r1)) (snd r1))].
  eapply facade_next;
    [apply facade_init
    |apply (facade_register T (Scenario.path "a/d") (Scenario.quiet 1)
              Scenario.tree0 Scenario.world0)].
Defined.
